(** * PreciseAudio and cue-file editing: a shallow embedding

    This development models two pieces of the synesthesia code base:

    - the [PreciseAudio] player (precise-audio), a state machine over one
      track whose play position is anchored on the clock of a Web Audio
      [AudioContext];
    - the edits of cue files of the composer's
      [data/file-manipulation.ts]: [updateStartTimeForSelectedEvents],
      [updateDurationForSelectedEvents], [deleteSelectedEvents],
      [setLength], [addLayer] and [addLayerItem].

    JavaScript numbers are kept behind a small interface, [JSNumber],
    whose instance is binary64, the numbers the program runs on.  Object
    identity, on which the player's callbacks rely
    ([track === this.track], [this.track?.data?.state !== state]), is
    modelled by identifiers drawn from an allocation counter. *)

From Stdlib Require Import Floats ZArith String Lia.
From stdpp Require Import base option list strings gmap.

Set Default Proof Using "Type".

(* ================================================================== *)
(** * Numbers *)

(** The operations on numbers the two programs use: the four arithmetic
    operators, [<], [===], and the built-ins [Math.max] and [Math.min];
    and the literals [0], [1] and [1000]. *)
Class JSNumber (num : Type) : Type := {
  num_add : num -> num -> num;
  num_sub : num -> num -> num;
  num_mul : num -> num -> num;
  num_div : num -> num -> num;
  num_lt : num -> num -> bool;
  strict_eq : num -> num -> bool;
  Math_max : num -> num -> num;
  Math_min : num -> num -> num;
  lit_0 : num;
  lit_1 : num;
  lit_1000 : num
}.

Declare Scope js_scope.
Delimit Scope js_scope with js.
Infix "+" := num_add : js_scope.
Infix "-" := num_sub : js_scope.
Infix "*" := num_mul : js_scope.
Infix "/" := num_div : js_scope.
Infix "<" := num_lt : js_scope.
Notation "a === b" := (strict_eq a b) (at level 70, no associativity) : js_scope.
Notation "a !== b" := (negb (strict_eq a b)) (at level 70, no associativity) : js_scope.

(** ** Binary64 *)

Definition is_neg_zero (a : float) : bool :=
  match classify a with NZero => true | _ => false end.

(** [Math.max(a, b)] of ECMA-262: NaN if either argument is NaN, the larger
    argument otherwise, with [+0] larger than [-0]. *)
Definition float_max (a b : float) : float :=
  if is_nan a || is_nan b then nan
  else if PrimFloat.ltb a b then b
  else if PrimFloat.ltb b a then a
  else if is_neg_zero a then b else a.

(** [Math.min(a, b)] of ECMA-262: NaN if either argument is NaN, the smaller
    argument otherwise, with [-0] smaller than [+0]. *)
Definition float_min (a b : float) : float :=
  if is_nan a || is_nan b then nan
  else if PrimFloat.ltb a b then a
  else if PrimFloat.ltb b a then b
  else if is_neg_zero a then a else b.

(** The clamp of [v] to the interval from [lo] to [hi], as a formula
    (what "the volume is clamped to [0, 1]" says, to compare
    [Math.max(0, Math.min(1, v))] with). *)
Definition clamp (v lo hi : float) : float :=
  if PrimFloat.ltb hi v then hi
  else if PrimFloat.ltb v lo then lo
  else v.

#[export] Instance float_JSNumber : JSNumber float := {|
  num_add := PrimFloat.add;
  num_sub := PrimFloat.sub;
  num_mul := PrimFloat.mul;
  num_div := PrimFloat.div;
  num_lt := PrimFloat.ltb;
  strict_eq := PrimFloat.eqb;
  Math_max := float_max;
  Math_min := float_min;
  lit_0 := 0%float;
  lit_1 := 1%float;
  lit_1000 := 1000%float
|}.

(* ================================================================== *)
(** * The player: data model *)

(** The names of the events a player dispatches ([EventTypes]). *)
Module Ev.
Inductive t : Set :=
| canplay | canplaythrough | ended | error | loadeddata
| play | pause | ratechange | seeked | timeupdate | volumechange.
End Ev.
Abbreviation EventTypes := Ev.t.

#[export] Instance EventTypes_eq_dec : EqDecision EventTypes.
Proof. solve_decision. Defined.

(** An [Error] value, identified by its message. *)
Definition Error : Set := string.

(** What [dispatchEvent] was called with: a [PreciseAudioEvent] of some
    type (from [sendEvent]) or an [ErrorEvent] (from [dispatchError]). *)
Inductive DispatchedEvent : Set :=
| PreciseAudioEvent (eventType : EventTypes)
| ErrorEvent (error : Error).

#[export] Instance DispatchedEvent_eq_dec : EqDecision DispatchedEvent.
Proof. solve_decision. Defined.

(** A [File] or [Blob], an opaque handle. *)
Definition Blob : Set := nat.

Inductive TrackSource : Set :=
| source_src (src : string)
| source_file (file : Blob).

(** The state of an [AudioContext]. *)
Inductive AudioContextState : Set := suspended | running | closed.

(** Who settles a pending load: the promise [loadAudioFile] returned, or
    the promise chain the [src] setter built. *)
Inductive LoadOrigin : Set := from_loadAudioFile | from_src.

(** A load in flight: the identity of the [Track] object its continuation
    closed over, and where it was started. *)
Record PendingLoad : Set := {
  load_track : nat;
  load_origin : LoadOrigin
}.

(** How a promise settled. *)
Inductive Settled : Set :=
| fulfilled
| rejected (reason : Error).

Section DataModel.
Context {num : Type}.

(** The part of a decoded [AudioBuffer] the player reads: its duration,
    in seconds. *)
Record AudioBuffer : Type := {
  buffer_duration : num
}.

(** What the loader produced for one load: a decoded buffer, or the error
    of the file read, the fetch or the decoding. *)
Inductive LoadResult : Type :=
| decoded (buffer : AudioBuffer)
| failed (error : Error).

(** The two shapes of a [PlayState].  [source] is the index of the
    [AudioBufferSourceNode] in the context. *)
Inductive PlayStateValue : Type :=
| Paused (positionMillis : num)
| Playing (source : nat) (suppressEndedEvent : bool)
          (effectiveStartTimeMillis : num).

(** A [PlayState] object: its identity and its current fields. *)
Record PlayState : Type := {
  state_id : nat;
  state_value : PlayStateValue
}.

Record TrackData : Type := {
  buffer : AudioBuffer;
  state : PlayState
}.

(** A [Track] object: its identity, its source and, once loaded, its
    data. *)
Record Track : Type := {
  track_id : nat;
  source : TrackSource;
  data : option TrackData
}.

(** Where a source node is connected: straight to the gain node, or to a
    pitch shifter whose [transpose] is [12 * Math.log2(ratio)]. *)
Inductive Connection : Type :=
| to_gainNode
| to_pitchShift (ratio : num).

(** An [AudioBufferSourceNode] as [playFrom] sets it up and as the
    context runs it.  [node_listener] is the identity of the [PlayState]
    the node's ['ended'] listener closed over; [node_stopped] records
    [stop()]; [node_ended] records that ['ended'] was delivered. *)
Record AudioBufferSourceNode : Type := {
  node_playbackRate : num;
  node_connection : Connection;
  node_buffer : AudioBuffer;
  node_offset : num;
  node_listener : nat;
  node_stopped : bool;
  node_ended : bool
}.

(** The [AudioContext]: its clock (seconds), its state and the source
    nodes created in it. *)
Record AudioContext : Type := {
  ctx_currentTime : num;
  ctx_state : AudioContextState;
  ctx_nodes : list AudioBufferSourceNode
}.

(** A [PreciseAudio] object with the part of its host it interacts with.
    The first eight fields are the object's own ([gain] is
    [gainNode.gain.value], [volume] and [muted] are the two fields of
    [_volume]).  The others belong to the host: the events dispatched so
    far, the counter object identities are drawn from, the loads in
    flight, and the animation frame callback currently requested
    together with the counter its handles are drawn from. *)
Record PreciseAudio : Type := {
  context : AudioContext;
  gain : num;
  _animationFrameRequest : option nat;
  _playbackRate : num;
  _adjustPitchWithPlaybackRate : bool;
  volume : num;
  muted : bool;
  track : option Track;
  dispatched : list DispatchedEvent;
  next_id : nat;
  pending : list PendingLoad;
  frame_requested : option nat;
  next_frame : nat
}.

(** ** Field updates *)

Definition set_context (c : AudioContext) (e : PreciseAudio) : PreciseAudio :=
  {| context := c; gain := gain e;
     _animationFrameRequest := _animationFrameRequest e;
     _playbackRate := _playbackRate e;
     _adjustPitchWithPlaybackRate := _adjustPitchWithPlaybackRate e;
     volume := volume e; muted := muted e; track := track e;
     dispatched := dispatched e; next_id := next_id e;
     pending := pending e; frame_requested := frame_requested e;
     next_frame := next_frame e |}.

Definition set_gain (g : num) (e : PreciseAudio) : PreciseAudio :=
  {| context := context e; gain := g;
     _animationFrameRequest := _animationFrameRequest e;
     _playbackRate := _playbackRate e;
     _adjustPitchWithPlaybackRate := _adjustPitchWithPlaybackRate e;
     volume := volume e; muted := muted e; track := track e;
     dispatched := dispatched e; next_id := next_id e;
     pending := pending e; frame_requested := frame_requested e;
     next_frame := next_frame e |}.

Definition set_animationFrameRequest (r : option nat) (e : PreciseAudio)
  : PreciseAudio :=
  {| context := context e; gain := gain e;
     _animationFrameRequest := r;
     _playbackRate := _playbackRate e;
     _adjustPitchWithPlaybackRate := _adjustPitchWithPlaybackRate e;
     volume := volume e; muted := muted e; track := track e;
     dispatched := dispatched e; next_id := next_id e;
     pending := pending e; frame_requested := frame_requested e;
     next_frame := next_frame e |}.

Definition set__playbackRate (r : num) (e : PreciseAudio) : PreciseAudio :=
  {| context := context e; gain := gain e;
     _animationFrameRequest := _animationFrameRequest e;
     _playbackRate := r;
     _adjustPitchWithPlaybackRate := _adjustPitchWithPlaybackRate e;
     volume := volume e; muted := muted e; track := track e;
     dispatched := dispatched e; next_id := next_id e;
     pending := pending e; frame_requested := frame_requested e;
     next_frame := next_frame e |}.

Definition set__adjustPitchWithPlaybackRate (b : bool) (e : PreciseAudio)
  : PreciseAudio :=
  {| context := context e; gain := gain e;
     _animationFrameRequest := _animationFrameRequest e;
     _playbackRate := _playbackRate e;
     _adjustPitchWithPlaybackRate := b;
     volume := volume e; muted := muted e; track := track e;
     dispatched := dispatched e; next_id := next_id e;
     pending := pending e; frame_requested := frame_requested e;
     next_frame := next_frame e |}.

Definition set__volume_volume (v : num) (e : PreciseAudio) : PreciseAudio :=
  {| context := context e; gain := gain e;
     _animationFrameRequest := _animationFrameRequest e;
     _playbackRate := _playbackRate e;
     _adjustPitchWithPlaybackRate := _adjustPitchWithPlaybackRate e;
     volume := v; muted := muted e; track := track e;
     dispatched := dispatched e; next_id := next_id e;
     pending := pending e; frame_requested := frame_requested e;
     next_frame := next_frame e |}.

Definition set__volume_muted (m : bool) (e : PreciseAudio) : PreciseAudio :=
  {| context := context e; gain := gain e;
     _animationFrameRequest := _animationFrameRequest e;
     _playbackRate := _playbackRate e;
     _adjustPitchWithPlaybackRate := _adjustPitchWithPlaybackRate e;
     volume := volume e; muted := m; track := track e;
     dispatched := dispatched e; next_id := next_id e;
     pending := pending e; frame_requested := frame_requested e;
     next_frame := next_frame e |}.

Definition set_track (t : option Track) (e : PreciseAudio) : PreciseAudio :=
  {| context := context e; gain := gain e;
     _animationFrameRequest := _animationFrameRequest e;
     _playbackRate := _playbackRate e;
     _adjustPitchWithPlaybackRate := _adjustPitchWithPlaybackRate e;
     volume := volume e; muted := muted e; track := t;
     dispatched := dispatched e; next_id := next_id e;
     pending := pending e; frame_requested := frame_requested e;
     next_frame := next_frame e |}.

Definition set_dispatched (d : list DispatchedEvent) (e : PreciseAudio)
  : PreciseAudio :=
  {| context := context e; gain := gain e;
     _animationFrameRequest := _animationFrameRequest e;
     _playbackRate := _playbackRate e;
     _adjustPitchWithPlaybackRate := _adjustPitchWithPlaybackRate e;
     volume := volume e; muted := muted e; track := track e;
     dispatched := d; next_id := next_id e;
     pending := pending e; frame_requested := frame_requested e;
     next_frame := next_frame e |}.

Definition set_next_id (n : nat) (e : PreciseAudio) : PreciseAudio :=
  {| context := context e; gain := gain e;
     _animationFrameRequest := _animationFrameRequest e;
     _playbackRate := _playbackRate e;
     _adjustPitchWithPlaybackRate := _adjustPitchWithPlaybackRate e;
     volume := volume e; muted := muted e; track := track e;
     dispatched := dispatched e; next_id := n;
     pending := pending e; frame_requested := frame_requested e;
     next_frame := next_frame e |}.

Definition set_pending (p : list PendingLoad) (e : PreciseAudio)
  : PreciseAudio :=
  {| context := context e; gain := gain e;
     _animationFrameRequest := _animationFrameRequest e;
     _playbackRate := _playbackRate e;
     _adjustPitchWithPlaybackRate := _adjustPitchWithPlaybackRate e;
     volume := volume e; muted := muted e; track := track e;
     dispatched := dispatched e; next_id := next_id e;
     pending := p; frame_requested := frame_requested e;
     next_frame := next_frame e |}.

Definition set_frames (r : option nat) (n : nat) (e : PreciseAudio)
  : PreciseAudio :=
  {| context := context e; gain := gain e;
     _animationFrameRequest := _animationFrameRequest e;
     _playbackRate := _playbackRate e;
     _adjustPitchWithPlaybackRate := _adjustPitchWithPlaybackRate e;
     volume := volume e; muted := muted e; track := track e;
     dispatched := dispatched e; next_id := next_id e;
     pending := pending e; frame_requested := r;
     next_frame := n |}.

Definition set_ctx_currentTime (t : num) (c : AudioContext) : AudioContext :=
  {| ctx_currentTime := t; ctx_state := ctx_state c;
     ctx_nodes := ctx_nodes c |}.

Definition set_ctx_state (s : AudioContextState) (c : AudioContext)
  : AudioContext :=
  {| ctx_currentTime := ctx_currentTime c; ctx_state := s;
     ctx_nodes := ctx_nodes c |}.

Definition set_ctx_nodes (l : list AudioBufferSourceNode) (c : AudioContext)
  : AudioContext :=
  {| ctx_currentTime := ctx_currentTime c; ctx_state := ctx_state c;
     ctx_nodes := l |}.

Definition set_node_stopped (n : AudioBufferSourceNode)
  : AudioBufferSourceNode :=
  {| node_playbackRate := node_playbackRate n;
     node_connection := node_connection n;
     node_buffer := node_buffer n; node_offset := node_offset n;
     node_listener := node_listener n;
     node_stopped := true; node_ended := node_ended n |}.

Definition set_node_ended (n : AudioBufferSourceNode)
  : AudioBufferSourceNode :=
  {| node_playbackRate := node_playbackRate n;
     node_connection := node_connection n;
     node_buffer := node_buffer n; node_offset := node_offset n;
     node_listener := node_listener n;
     node_stopped := node_stopped n; node_ended := true |}.

(** ** Reading through the optional chain *)

(** [this.track?.data] *)
Definition current_data (e : PreciseAudio) : option TrackData :=
  match track e with
  | Some t => data t
  | None => None
  end.

(** [this.track?.data?.state] *)
Definition current_state (e : PreciseAudio) : option PlayState :=
  match current_data e with
  | Some d => Some (state d)
  | None => None
  end.

(** A source node is active when it was neither stopped nor has ended
    (every node is started by the method that creates it). *)
Definition node_active (n : AudioBufferSourceNode) : bool :=
  negb (node_stopped n) && negb (node_ended n).

End DataModel.

Arguments AudioBuffer : clear implicits.
Arguments LoadResult : clear implicits.
Arguments PlayStateValue : clear implicits.
Arguments PlayState : clear implicits.
Arguments TrackData : clear implicits.
Arguments Track : clear implicits.
Arguments Connection : clear implicits.
Arguments AudioBufferSourceNode : clear implicits.
Arguments AudioContext : clear implicits.
Arguments PreciseAudio : clear implicits.

(* ================================================================== *)
(** * The player: methods *)

(** Methods run in a state monad over [PreciseAudio]: they read and assign
    the fields of [this] and call into the host. *)
Definition M (num A : Type) : Type := PreciseAudio num -> A * PreciseAudio num.

#[export] Instance M_ret {num} : MRet (M num) := fun A a e => (a, e).
#[export] Instance M_bind {num} : MBind (M num) :=
  fun A B k m e => let (a, e') := m e in k a e'.

Definition gets {num A} (f : PreciseAudio num -> A) : M num A :=
  fun e => (f e, e).
Definition modify {num} (f : PreciseAudio num -> PreciseAudio num) : M num unit :=
  fun e => (tt, f e).
Definition skip {num} : M num unit := mret tt.

(** The state a method leaves, and the value it returns. *)
Definition exec {num A} (m : M num A) (e : PreciseAudio num) : PreciseAudio num :=
  snd (m e).
Definition eval {num A} (m : M num A) (e : PreciseAudio num) : A :=
  fst (m e).

Section Methods.
Context {num : Type} `{JSNumber num}.

Local Open Scope js_scope.
Local Abbreviation M := (M num).
Local Abbreviation PreciseAudio := (PreciseAudio num).

(** [new PreciseAudio()]: a fresh context (whose state the browser
    chooses), a gain node at its default gain of 1, no track. *)
Definition constructor (s : AudioContextState) : PreciseAudio :=
  {| context := {| ctx_currentTime := lit_0; ctx_state := s;
                   ctx_nodes := [] |};
     gain := lit_1;
     _animationFrameRequest := None;
     _playbackRate := lit_1;
     _adjustPitchWithPlaybackRate := true;
     volume := lit_1; muted := false;
     track := None;
     dispatched := []; next_id := 0; pending := [];
     frame_requested := None; next_frame := 0 |}.

(** ** Host primitives *)

(** A new object: its identity. *)
Definition alloc : M nat :=
  fun e => (next_id e, set_next_id (S (next_id e)) e).

(** [this.dispatchEvent(event)].  The event is recorded; the listeners
    registered on the player are outside the model (they are taken not to
    call back into the player while it runs a method). *)
Definition dispatchEvent (ev : DispatchedEvent) : M unit :=
  modify (fun e => set_dispatched (dispatched e ++ [ev]) e).

(** [this.context.currentTime * 1000] *)
Definition nowMillis (e : PreciseAudio) : num :=
  ctx_currentTime (context e) * lit_1000.

(** [if (this.context.state === 'suspended') this.context.resume()]: a
    suspended context leaves that state, another one keeps its own. *)
Definition resume_if_suspended : M unit :=
  modify (fun e =>
    set_context
      (set_ctx_state
         match ctx_state (context e) with
         | suspended => running
         | s => s
         end (context e)) e).

(** [source.stop()] on the node of index [i]. *)
Definition node_stop (i : nat) : M unit :=
  modify (fun e =>
    set_context
      (set_ctx_nodes
         (alter set_node_stopped i (ctx_nodes (context e))) (context e)) e).

(** A source node added to the context: its index. *)
Definition add_node (n : AudioBufferSourceNode num) : M nat :=
  fun e =>
    (length (ctx_nodes (context e)),
     set_context
       (set_ctx_nodes (ctx_nodes (context e) ++ [n]) (context e)) e).

(** [cancelAnimationFrame(id)] *)
Definition cancelAnimationFrame (id : nat) : M unit :=
  modify (fun e =>
    if decide (frame_requested e = Some id)
    then set_frames None (next_frame e) e else e).

(** [requestAnimationFrame(this.timeUpdated)]: the handle. *)
Definition requestAnimationFrame : M nat :=
  fun e => (next_frame e,
            set_frames (Some (next_frame e)) (S (next_frame e)) e).

(** [this.track.data.state = s] *)
Definition assign_state (s : PlayState num) : M unit :=
  modify (fun e =>
    match track e with
    | Some t =>
        match data t with
        | Some d =>
            set_track
              (Some {| track_id := track_id t; source := source t;
                       data := Some {| buffer := buffer d; state := s |} |})
              e
        | None => e
        end
    | None => e
    end).

(** An assignment to the fields of the [PlayState] object of identity
    [id]: it shows in [this.track.data.state] when that is the same
    object. *)
Definition mutate_state (id : nat) (v : PlayStateValue num) : M unit :=
  s ← gets current_state;
  match s with
  | Some s =>
      if decide (state_id s = id)
      then assign_state {| state_id := id; state_value := v |}
      else skip
  | None => skip
  end.

(** ** Private methods *)

Definition updateGain : M unit :=
  modify (fun e => set_gain (if muted e then lit_0 else volume e) e).

Definition sendEvent (eventType : EventTypes) : M unit :=
  dispatchEvent (PreciseAudioEvent eventType).

Definition dispatchError (error : Error) : M unit :=
  dispatchEvent (ErrorEvent error).

(** [stopWithoutEnding(state)], [state] being a playing state. *)
Definition stopWithoutEnding (s : PlayState num) : M unit :=
  match state_value s with
  | Playing source _ start =>
      mutate_state (state_id s) (Playing source true start);;
      node_stop source
  | Paused _ => skip
  end.

Definition scheduleTimeUpdated : M unit :=
  r ← gets _animationFrameRequest;
  match r with
  | Some id => cancelAnimationFrame id
  | None => skip
  end;;
  id ← requestAnimationFrame;
  modify (set_animationFrameRequest (Some id)).

Definition timeUpdated : M unit :=
  sendEvent Ev.timeupdate;;
  s ← gets current_state;
  match s with
  | Some {| state_value := Playing _ _ _ |} => scheduleTimeUpdated
  | _ => skip
  end.

(** The listener [createTrackEndedListener(state)] returns, [state]
    being the object of identity [id].  Past the identity test [state]
    is [this.track.data.state], whose fields are read. *)
Definition trackEndedListener (id : nat) : M unit :=
  s ← gets current_state;
  match s with
  | Some s =>
      if decide (state_id s = id) then
        match state_value s with
        | Playing _ false _ =>
            sendEvent Ev.ended;;
            fresh ← alloc;
            assign_state
              {| state_id := fresh; state_value := Paused lit_0 |}
        | _ => skip
        end
      else skip
  | None => skip
  end.

(** [loadFile(track, file)] after its two [await]s, [track] being the
    object of identity [id] and [buf] the decoded buffer. *)
Definition loadFile_decoded (id : nat) (buf : AudioBuffer num) : M unit :=
  t ← gets track;
  match t with
  | Some t =>
      if decide (track_id t = id) then
        fresh ← alloc;
        modify (set_track
          (Some {| track_id := track_id t; source := source t;
                   data := Some {| buffer := buf;
                                   state := {| state_id := fresh;
                                               state_value := Paused lit_0 |}
                                |} |}));;
        sendEvent Ev.loadeddata;;
        sendEvent Ev.canplay;;
        sendEvent Ev.canplaythrough;;
        sendEvent Ev.timeupdate
      else skip
  | None => skip
  end.

Definition playFrom (positionMillis : num) : M unit :=
  d ← gets current_data;
  match d with
  | Some d =>
      now ← gets nowMillis;
      rate ← gets _playbackRate;
      adjust ← gets _adjustPitchWithPlaybackRate;
      fresh ← alloc;
      source ← add_node
        {| node_playbackRate := rate;
           node_connection :=
             if (rate !== lit_1) && adjust
             then to_pitchShift (lit_1 / rate) else to_gainNode;
           node_buffer := buffer d;
           node_offset := positionMillis / lit_1000;
           node_listener := fresh;
           node_stopped := false; node_ended := false |};
      assign_state
        {| state_id := fresh;
           state_value :=
             Playing source false (now - positionMillis / rate) |};;
      scheduleTimeUpdated
  | None => skip
  end.

(** ** Public methods and accessors *)

(** [loadAudioFile(file)] up to its [await]. *)
Definition loadAudioFile (file : Blob) : M unit :=
  s ← gets current_state;
  match s with
  | Some ({| state_value := Playing _ _ _ |} as s) => stopWithoutEnding s
  | _ => skip
  end;;
  id ← alloc;
  modify (set_track
    (Some {| track_id := id; source := source_file file; data := None |}));;
  modify (fun e =>
    set_pending
      (pending e ++ [{| load_track := id; load_origin := from_loadAudioFile |}])
      e).

(** The rest of [loadAudioFile], once the load of the track of identity
    [id] has a result: how the promise it returned settles. *)
Definition loadAudioFile_settle (id : nat) (r : LoadResult num) : M Settled :=
  match r with
  | decoded buf => loadFile_decoded id buf;; mret fulfilled
  | failed err => dispatchError err;; mret (rejected err)
  end.

Definition get_volume : M num := gets volume.

Definition set_volume (volume' : num) : M unit :=
  let v := Math_max lit_0 (Math_min lit_1 volume') in
  old ← gets volume;
  if v !== old then
    modify (set__volume_volume v);;
    updateGain;;
    sendEvent Ev.volumechange
  else skip.

Definition get_muted : M bool := gets muted.

Definition set_muted (muted' : bool) : M unit :=
  old ← gets muted;
  if negb (Bool.eqb muted' old) then
    modify (set__volume_muted muted');;
    updateGain;;
    sendEvent Ev.volumechange
  else skip.

Definition get_src : M string :=
  t ← gets track;
  mret match t with
       | Some {| source := source_src src |} => src
       | _ => EmptyString
       end.

(** The [src] setter up to the [fetch]. *)
Definition set_src (src : string) : M unit :=
  s ← gets current_state;
  match s with
  | Some ({| state_value := Playing _ _ _ |} as s) => stopWithoutEnding s
  | _ => skip
  end;;
  if String.eqb src EmptyString then modify (set_track None)
  else
    id ← alloc;
    modify (set_track
      (Some {| track_id := id; source := source_src src; data := None |}));;
    modify (fun e =>
      set_pending
        (pending e ++ [{| load_track := id; load_origin := from_src |}]) e).

(** The promise chain of the [src] setter, once the load of the track of
    identity [id] has a result: how the chain settles. *)
Definition set_src_settle (id : nat) (r : LoadResult num) : M Settled :=
  match r with
  | decoded buf => loadFile_decoded id buf;; mret fulfilled
  | failed err => dispatchError err;; mret fulfilled
  end.

Definition play : M unit :=
  resume_if_suspended;;
  d ← gets current_data;
  match d with
  | Some {| state := {| state_value := Paused positionMillis |} |} =>
      playFrom positionMillis;;
      sendEvent Ev.play
  | _ => skip
  end.

Definition pause : M unit :=
  resume_if_suspended;;
  s ← gets current_state;
  match s with
  | Some ({| state_value := Playing _ _ start |} as s) =>
      now ← gets nowMillis;
      stopWithoutEnding s;;
      rate ← gets _playbackRate;
      fresh ← alloc;
      assign_state
        {| state_id := fresh;
           state_value := Paused ((now - start) * rate) |};;
      sendEvent Ev.pause
  | _ => skip
  end.

Definition paused : M bool :=
  s ← gets current_state;
  mret match s with
       | Some {| state_value := Playing _ _ _ |} => false
       | _ => true
       end.

Definition currentTimeMillis : M num :=
  d ← gets current_data;
  match d with
  | Some d =>
      match state_value (state d) with
      | Paused positionMillis => mret positionMillis
      | Playing _ _ start =>
          now ← gets nowMillis;
          rate ← gets _playbackRate;
          mret ((now - start) * rate)
      end
  | None => mret lit_0
  end.

Definition get_currentTime : M num :=
  ms ← currentTimeMillis;
  mret (ms / lit_1000).

Definition set_currentTime (positionSeconds : num) : M unit :=
  d ← gets current_data;
  match d with
  | Some d =>
      let positionMillis := positionSeconds * lit_1000 in
      match state_value (state d) with
      | Paused _ =>
          mutate_state (state_id (state d)) (Paused positionMillis);;
          sendEvent Ev.timeupdate
      | Playing _ _ _ =>
          stopWithoutEnding (state d);;
          playFrom positionMillis
      end;;
      sendEvent Ev.seeked
  | None => skip
  end.

Definition changeConfiguration (callback : M unit) : M unit :=
  s ← gets current_state;
  resume ← match s with
            | Some {| state_value := Playing _ _ _ |} => pause;; mret true
            | _ => mret false
            end;
  callback;;
  if resume : bool then play else skip.

Definition set_adjustPitchWithPlaybackRate (adjust : bool) : M unit :=
  changeConfiguration (modify (set__adjustPitchWithPlaybackRate adjust)).

Definition get_adjustPitchWithPlaybackRate : M bool :=
  gets _adjustPitchWithPlaybackRate.

Definition set_playbackRate (playbackRate : num) : M unit :=
  changeConfiguration (modify (set__playbackRate playbackRate));;
  sendEvent Ev.ratechange.

Definition get_playbackRate : M num := gets _playbackRate.

Definition duration : M num :=
  d ← gets current_data;
  match d with
  | Some d => mret (buffer_duration (buffer d))
  | None => mret lit_0
  end.

Definition durationMillis : M num :=
  s ← duration;
  mret (s * lit_1000).

End Methods.

(* ================================================================== *)
(** * The player and its host: transitions *)

(** What can happen to a player: a call of one of its public methods or
    setters, or one of the host's callbacks.  Each runs to completion
    before the next starts, as on the one event loop the player lives on.
    (The getters change nothing and are not listed.) *)
Inductive Action (num : Type) : Type :=
| call_loadAudioFile (file : Blob)
| assign_src (src : string)
| call_play
| call_pause
| assign_currentTime (positionSeconds : num)
| assign_playbackRate (playbackRate : num)
| assign_adjustPitchWithPlaybackRate (adjust : bool)
| assign_volume (v : num)
| assign_muted (m : bool)
| host_clock (t : num)
| host_settle (i : nat) (r : LoadResult num)
| host_ended (source : nat)
| host_animationFrame.

Arguments call_loadAudioFile {num}.
Arguments assign_src {num}.
Arguments call_play {num}.
Arguments call_pause {num}.
Arguments assign_currentTime {num}.
Arguments assign_playbackRate {num}.
Arguments assign_adjustPitchWithPlaybackRate {num}.
Arguments assign_volume {num}.
Arguments assign_muted {num}.
Arguments host_clock {num}.
Arguments host_settle {num}.
Arguments host_ended {num}.
Arguments host_animationFrame {num}.

Section Transitions.
Context {num : Type} `{JSNumber num}.

Local Abbreviation M := (M num).
Local Abbreviation PreciseAudio := (PreciseAudio num).

(** The context's clock reads [t]. *)
Definition clock (t : num) : M unit :=
  modify (fun e => set_context (set_ctx_currentTime t (context e)) e).

(** The [i]-th load in flight gets its result: the continuation that
    waited for it runs.  Returns how the promise settles, if there is
    such a load. *)
Definition settle (i : nat) (r : LoadResult num) : M (option Settled) :=
  ps ← gets pending;
  match ps !! i with
  | Some p =>
      modify (set_pending (delete i ps));;
      s ← match load_origin p with
           | from_loadAudioFile => loadAudioFile_settle (load_track p) r
           | from_src => set_src_settle (load_track p) r
           end;
      mret (Some s)
  | None => mret None
  end.

(** The context delivers ['ended'] to the source node of index [i],
    whether it played to its end or was stopped: once per node. *)
Definition deliver_ended (i : nat) : M unit :=
  ns ← gets (fun e => ctx_nodes (context e));
  match ns !! i with
  | Some n =>
      if node_ended n then skip
      else
        modify (fun e =>
          set_context
            (set_ctx_nodes
               (alter set_node_ended i (ctx_nodes (context e)))
               (context e)) e);;
        trackEndedListener (node_listener n)
  | None => skip
  end.

(** The browser runs the requested animation frame callback, if any. *)
Definition animationFrame : M unit :=
  r ← gets frame_requested;
  match r with
  | Some _ =>
      modify (fun e => set_frames None (next_frame e) e);;
      timeUpdated
  | None => skip
  end.

Definition step (a : Action num) : M unit :=
  match a with
  | call_loadAudioFile file => loadAudioFile file
  | assign_src src => set_src src
  | call_play => play
  | call_pause => pause
  | assign_currentTime s => set_currentTime s
  | assign_playbackRate r => set_playbackRate r
  | assign_adjustPitchWithPlaybackRate b => set_adjustPitchWithPlaybackRate b
  | assign_volume v => set_volume v
  | assign_muted m => set_muted m
  | host_clock t => clock t
  | host_settle i r => settle i r;; skip
  | host_ended i => deliver_ended i
  | host_animationFrame => animationFrame
  end.

(** A sequence of actions, from left to right. *)
Definition run (acts : list (Action num)) (e : PreciseAudio) : PreciseAudio :=
  fold_left (fun e a => exec (step a) e) acts e.

(** ** The invariant of the player *)

(** The index of the source node of the current state, when playing. *)
Definition current_source (e : PreciseAudio) : option nat :=
  match current_state e with
  | Some {| state_value := Playing source _ _ |} => Some source
  | _ => None
  end.

(** What every state the player can reach satisfies:
    - identities in use were allocated: those of the track, of its state,
      of the tracks of the loads in flight, of the states the listeners
      closed over;
    - the loads in flight are for distinct tracks, none of them loaded;
    - a playing state is not suppressed, and its source node is active,
      plays at the rate [_playbackRate] and carries the listener created
      for this state;
    - an active node is the source of the current state;
    - a listener created for the current state sits on its source. *)
Record Inv (e : PreciseAudio) : Prop := {
  inv_track_fresh :
    forall t, track e = Some t -> (track_id t < next_id e)%nat;
  inv_state_fresh :
    forall s, current_state e = Some s -> (state_id s < next_id e)%nat;
  inv_pending_fresh :
    forall p, p ∈ pending e -> (load_track p < next_id e)%nat;
  inv_listener_fresh :
    forall i n, ctx_nodes (context e) !! i = Some n ->
      (node_listener n < next_id e)%nat;
  inv_pending_nodup : NoDup (load_track <$> pending e);
  inv_loaded :
    forall t d, track e = Some t -> data t = Some d ->
      track_id t ∉ load_track <$> pending e;
  inv_playing :
    forall id source sup start,
      current_state e
        = Some {| state_id := id; state_value := Playing source sup start |} ->
      sup = false /\
      exists n, ctx_nodes (context e) !! source = Some n /\
                node_listener n = id /\ node_active n = true /\
                node_playbackRate n = _playbackRate e;
  inv_active :
    forall i n, ctx_nodes (context e) !! i = Some n ->
      node_active n = true -> current_source e = Some i;
  inv_listener :
    forall i n s, ctx_nodes (context e) !! i = Some n ->
      current_state e = Some s -> node_listener n = state_id s ->
      current_source e = Some i
}.

(** An identity that was allocated and is not that of the current state
    (resp. of the current track). *)
Definition stale_state (e : PreciseAudio) (id : nat) : Prop :=
  (id < next_id e)%nat /\
  forall s, current_state e = Some s -> state_id s <> id.

Definition stale_track (e : PreciseAudio) (id : nat) : Prop :=
  (id < next_id e)%nat /\
  forall t, track e = Some t -> track_id t <> id.

(** The actions that load a new track or clear the source. *)
Definition is_load (a : Action num) : bool :=
  match a with
  | call_loadAudioFile _ | assign_src _ => true
  | _ => false
  end.

(** The actions that stop the source of a playing state before its natural
    end: [pause()], a seek, and the loads. *)
Definition stops_source (a : Action num) : bool :=
  match a with
  | call_pause | assign_currentTime _
  | call_loadAudioFile _ | assign_src _ => true
  | _ => false
  end.

End Transitions.

(* ================================================================== *)
(** * The player: contracts

    Predicates and tables the further properties of the player are
    stated with. *)

Section Contracts.
Context {num : Type} `{JSNumber num}.

Local Abbreviation PreciseAudio := (PreciseAudio num).

(** Where [playFrom] connects a new source, by the rate and the pitch
    setting: to a pitch shifter when the rate is not 1 and the pitch is to
    be adjusted, straight to the gain node otherwise. *)
Definition connection_for (rate : num) (adjust : bool) : Connection num :=
  if (rate !== lit_1)%js && adjust
  then to_pitchShift (lit_1 / rate)%js else to_gainNode.

(** The source node of a playing state plays the buffer of the track, at
    the rate and through the connection the configuration asks for. *)
Definition source_configured (e : PreciseAudio) : Prop :=
  forall d id source sup start,
    current_data e = Some d ->
    state d = {| state_id := id; state_value := Playing source sup start |} ->
    exists n, ctx_nodes (context e) !! source = Some n /\
      node_buffer n = buffer d /\
      node_playbackRate n = _playbackRate e /\
      node_connection n
      = connection_for (_playbackRate e) (_adjustPitchWithPlaybackRate e).

(** The animation frame callback the browser holds is the one whose
    handle the player stored, and it holds one while a track plays. *)
Definition frame_scheduled (e : PreciseAudio) : Prop :=
  (forall h, frame_requested e = Some h -> _animationFrameRequest e = Some h) /\
  (forall source, current_source e = Some source ->
     is_Some (frame_requested e)).

(** The events one action may dispatch: one of these lists, in this
    order. *)
Definition may_dispatch (a : Action num) : list (list DispatchedEvent) :=
  match a with
  | call_loadAudioFile _ | assign_src _ | host_clock _ => [[]]
  | call_play => [[]; [PreciseAudioEvent Ev.play]]
  | call_pause => [[]; [PreciseAudioEvent Ev.pause]]
  | assign_currentTime _ =>
      [[]; [PreciseAudioEvent Ev.timeupdate; PreciseAudioEvent Ev.seeked];
       [PreciseAudioEvent Ev.seeked]]
  | assign_playbackRate _ =>
      [[PreciseAudioEvent Ev.ratechange];
       [PreciseAudioEvent Ev.pause; PreciseAudioEvent Ev.play;
        PreciseAudioEvent Ev.ratechange]]
  | assign_adjustPitchWithPlaybackRate _ =>
      [[]; [PreciseAudioEvent Ev.pause; PreciseAudioEvent Ev.play]]
  | assign_volume _ | assign_muted _ =>
      [[]; [PreciseAudioEvent Ev.volumechange]]
  | host_settle _ (decoded _) =>
      [[]; [PreciseAudioEvent Ev.loadeddata; PreciseAudioEvent Ev.canplay;
            PreciseAudioEvent Ev.canplaythrough;
            PreciseAudioEvent Ev.timeupdate]]
  | host_settle _ (failed err) => [[]; [ErrorEvent err]]
  | host_ended _ => [[]; [PreciseAudioEvent Ev.ended]]
  | host_animationFrame => [[]; [PreciseAudioEvent Ev.timeupdate]]
  end.

End Contracts.

(* ================================================================== *)
(** * Scenarios

    Concrete players, used to run the methods on. *)

Definition demo_buffer : AudioBuffer float :=
  {| buffer_duration := 10%float |}.

(** A fresh player. *)
Definition demo_fresh : PreciseAudio float := constructor running.

(** A player whose load is in flight. *)
Definition demo_loading : PreciseAudio float :=
  run [call_loadAudioFile 7] demo_fresh.

(** A player with a ten-second track loaded, paused at 0. *)
Definition demo_loaded : PreciseAudio float :=
  run [host_settle 0 (decoded demo_buffer)] demo_loading.

(** The same player, playing for half a second. *)
Definition demo_playing : PreciseAudio float :=
  run [call_play; host_clock 0.5%float] demo_loaded.

(* ================================================================== *)
(** * Cue files: [data/file-manipulation.ts]

    Numbers are binary64 here.  The types of cue files and selections are
    declared in modules this development does not cover
    ([shared/file/file], [data/selection]); they are modelled by the fields
    the functions below read.  The kinds, settings and values of layers are
    parameters.  [util.deepFreeze] returns its argument and is left out. *)

(** An entry of [selection.events]. *)
Record SelectedEvent : Set := {
  layer : nat;
  index : nat
}.

Record Selection : Set := {
  events : list SelectedEvent
}.

Section CueFile.
Context {K St V : Type}.

Record CueFileEventState : Type := {
  millisDelta : float;
  values : V
}.

Record CueFileEvent : Type := {
  timestampMillis : float;
  states : list CueFileEventState
}.

Record CueFileLayer : Type := {
  kind : K;
  settings : St;
  layer_events : list CueFileEvent
}.

Record CueFile : Type := {
  lengthMillis : float;
  layers : list CueFileLayer
}.

Local Open Scope js_scope.

(** The literal [0.1]: the binary64 number nearest to one tenth. *)
Definition lit_0_1 : float := 0x1.999999999999ap-4%float.

(** [a > b] *)
Definition num_gt (a b : float) : bool := b < a.

(** [Math.min.apply(null, l)]: ECMA-262 starts from [+Infinity] and
    takes the numbers in turn. *)
Definition Math_min_apply (l : list float) : float :=
  fold_left Math_min l infinity.

(** The lookup structure [layer -> {set of event ids}]. *)
Definition buildUpSelectionSet (selection : Selection)
  : gmap nat (gset nat) :=
  fold_left
    (fun selectedEvents e =>
       match selectedEvents !! layer e with
       | Some layerSet =>
           <[layer e := layerSet ∪ {[index e]}]> selectedEvents
       | None => <[layer e := {[index e]}]> selectedEvents
       end)
    (events selection) ∅.

(** [doConvertLayer], inside [modifyEvents]. *)
Definition doConvertLayer
    (f : CueFileEvent -> CueFileLayer -> CueFileEvent)
    (selectedEvents : gset nat) (l : CueFileLayer) : CueFileLayer :=
  {| kind := kind l;
     settings := settings l;
     layer_events :=
       imap (fun i e => if decide (i ∈ selectedEvents) then f e l else e)
            (layer_events l) |}.

Definition modifyEvents (cueFile : CueFile) (selection : Selection)
    (f : CueFileEvent -> CueFileLayer -> CueFileEvent) : CueFile :=
  let selectedEvents := buildUpSelectionSet selection in
  let newLayers :=
    imap (fun i l =>
            match selectedEvents !! i with
            | None => l
            | Some layerSet => doConvertLayer f layerSet l
            end)
         (layers cueFile) in
  {| lengthMillis := lengthMillis cueFile; layers := newLayers |}.

(** [shiftEvent], inside [updateStartTimeForSelectedEvents]. *)
Definition shiftEvent (shift : float) (e : CueFileEvent) : CueFileEvent :=
  {| timestampMillis := timestampMillis e + shift; states := states e |}.

(** [cueFile.layers[e.layer].events[e.index]]: reading a field of
    [undefined] throws a [TypeError], here [None]. *)
Definition selected_event (cueFile : CueFile) (e : SelectedEvent)
  : option CueFileEvent :=
  l ← layers cueFile !! layer e;
  layer_events l !! index e.

(** The guard of the second early return, [shift < 0.1 && shift > 0.1]. *)
Definition small_shift (shift : float) : bool :=
  (shift < lit_0_1) && num_gt shift lit_0_1.

(** [None] stands for a thrown [TypeError]. *)
Definition updateStartTimeForSelectedEvents
    (cueFile : CueFile) (selection : Selection) (newStartTime : float)
  : option CueFile :=
  if decide (length (events selection) = 0) then Some cueFile
  else
    evs ← mapM (selected_event cueFile) (events selection);
    let start := Math_min_apply (map timestampMillis evs) in
    let newStartTime := Math_max 0%float newStartTime in
    if start === newStartTime then Some cueFile
    else
      let shift := newStartTime - start in
      if small_shift shift then Some cueFile
      else Some (modifyEvents cueFile selection
                   (fun e _ => shiftEvent shift e)).

(** Whether the selection lists the event of index [i] of layer [l]. *)
Definition selects (selection : Selection) (l i : nat) : Prop :=
  {| layer := l; index := i |} ∈ events selection.

(** What the lookup structure of [buildUpSelectionSet] holds, as a
    relation: the set for layer [l] contains [i]. *)
Definition in_selection_set (m : gmap nat (gset nat)) (l i : nat) : Prop :=
  exists layerSet, m !! l = Some layerSet /\ i ∈ layerSet.

End CueFile.

Arguments CueFileEventState : clear implicits.
Arguments CueFileEvent : clear implicits.
Arguments CueFileLayer : clear implicits.
Arguments CueFile : clear implicits.

(** A cue file with one layer of two events, of which the second is
    selected. *)
Definition demo_cueFile : CueFile unit unit unit :=
  {| lengthMillis := 1000%float;
     layers :=
       [{| kind := tt; settings := tt;
           layer_events :=
             [{| timestampMillis := 10%float; states := [] |};
              {| timestampMillis := 20%float; states := [] |}] |}] |}.

Definition demo_selection : Selection :=
  {| events := [{| layer := 0; index := 1 |}] |}.

(** Both events selected, the later one first. *)
Definition demo_selection_both : Selection :=
  {| events := [{| layer := 0; index := 1 |}; {| layer := 0; index := 0 |}] |}.

(* ================================================================== *)
(** * Cue files: the other edits of [data/file-manipulation.ts]

    [convertLayer(l, f)] is [f(l)] between two casts and is left out, as
    [util.deepFreeze] is. *)

#[export] Instance SelectedEvent_eq_dec : EqDecision SelectedEvent.
Proof. solve_decision. Defined.

#[export] Instance selects_dec (selection : Selection) (l i : nat) :
  Decision (selects selection l i).
Proof. unfold selects. apply _. Defined.

(** The number of events of layer [l] below index [i] that the selection
    lists. *)
Definition selected_below (selection : Selection) (l i : nat) : nat :=
  length (filter (fun j => selects selection l j) (seq 0 i)).

(** ** Arrays and exceptions *)

(** [l.filter((x, i) => p(x, i))], the indices counted from [i]. *)
Fixpoint Array_filter_from {A : Type} (i : nat) (p : A -> nat -> bool)
    (l : list A) : list A :=
  match l with
  | [] => []
  | x :: l =>
      if p x i then x :: Array_filter_from (S i) p l
      else Array_filter_from (S i) p l
  end.

Definition Array_filter {A : Type} (p : A -> nat -> bool) (l : list A)
  : list A :=
  Array_filter_from 0 p l.

(** A computation that returns a value or throws an [Error]. *)
#[export] Instance Throws_ret : MRet (sum Error) := fun A a => inr a.
#[export] Instance Throws_bind : MBind (sum Error) :=
  fun A B k m => match m with inl err => inl err | inr a => k a end.

(** [l.map((x, i) => f(x, i))] with a callback that may throw, the
    indices counted from [i]: the elements are mapped in turn, and the
    first error thrown is that of the whole. *)
Fixpoint Array_map_from {A B : Type} (i : nat) (f : A -> nat -> Error + B)
    (l : list A) : Error + list B :=
  match l with
  | [] => inr []
  | x :: l =>
      y ← f x i;
      ys ← Array_map_from (S i) f l;
      mret (y :: ys)
  end.

Definition Array_map {A B : Type} (f : A -> nat -> Error + B) (l : list A)
  : Error + list B :=
  Array_map_from 0 f l.

(** ** Numbers *)

(** [Math.max.apply(null, l)]: ECMA-262 starts from [-Infinity] and takes
    the numbers in turn. *)
Definition Math_max_apply (l : list float) : float :=
  fold_left Math_max l neg_infinity.

(** [Math.round(x)] of ECMA-262: [x] itself when it is NaN, infinite or an
    integer; otherwise the integer nearest to [x], the larger of the two
    when [x] lies half way; a zero result has the sign of [x].  A finite
    [x] is [m * 2 ^ e], negated when [s] is set; for [e < 0] it is split
    into the integer [q] and the fraction [r / 2 ^ (- e)]. *)
Definition Math_round (x : float) : float :=
  match Prim2SF x with
  | S754_finite s m e =>
      if (0 <=? e)%Z then x
      else
        let d := (2 ^ (- e))%Z in
        let q := (Z.pos m / d)%Z in
        let r := (Z.pos m mod d)%Z in
        if (r =? 0)%Z then x
        else
          let away := if s then (d <? 2 * r)%Z else (d <=? 2 * r)%Z in
          let n := of_uint63 (Uint63.of_Z (if away then q + 1 else q)) in
          if s then (- n)%float else n
  | _ => x
  end.

(** ** Edits that do not depend on the kind of a layer *)

Section CueFileEdits.
Context {K St V : Type}.

Local Abbreviation CueFile := (CueFile K St V).
Local Abbreviation CueFileLayer := (CueFileLayer K St V).
Local Abbreviation CueFileEvent := (CueFileEvent V).

Definition deleteSelectedEvents (cueFile : CueFile) (selection : Selection)
  : CueFile :=
  if decide (length (events selection) = 0) then cueFile
  else
    let selectedEvents := buildUpSelectionSet selection in
    let newLayers :=
      imap (fun i layer0 =>
              match selectedEvents !! i with
              | None => layer0
              | Some layerSet =>
                  {| kind := kind layer0;
                     settings := settings layer0;
                     layer_events :=
                       Array_filter
                         (fun _ i => negb (bool_decide (i ∈ layerSet)))
                         (layer_events layer0) |}
              end)
           (layers cueFile) in
    {| lengthMillis := lengthMillis cueFile; layers := newLayers |}.

Definition setLength (file : CueFile) (lengthMillis' : float) : CueFile :=
  {| lengthMillis := lengthMillis'; layers := layers file |}.

(** [layer'] is an index into [file.layers]. *)
Definition addLayerItem (file : CueFile) (layer' : nat)
    (timestampMillis' : float) : CueFile :=
  {| lengthMillis := lengthMillis file;
     layers :=
       imap (fun i l =>
               if decide (i <> layer') then l
               else
                 let events' :=
                   layer_events l
                   ++ [{| timestampMillis := timestampMillis';
                          states := [] |}] in
                 {| kind := kind l; settings := settings l;
                    layer_events := events' |})
            (layers file) |}.

End CueFileEdits.

(** ** Edits that depend on the kind of a layer

    The kind of a layer is a string.  Of the settings and of the values of
    layers the code uses: the settings [{defaultLengthMillis: n}] and
    their field; the values [{amplitude: a}]. *)

Class LayerValues (St V : Type) : Type := {
  percussion_settings : float -> St;
  defaultLengthMillis : St -> float;
  amplitude : float -> V;
  defaultLengthMillis_settings n :
    defaultLengthMillis (percussion_settings n) = n
}.

Section CueFileDurations.
Context {St V : Type} `{LayerValues St V}.

Local Abbreviation CueFile := (CueFile string St V).
Local Abbreviation CueFileLayer := (CueFileLayer string St V).
Local Abbreviation CueFileEvent := (CueFileEvent V).
Local Abbreviation CueFileEventState := (CueFileEventState V).

Local Open Scope js_scope.

Definition addLayer (file : CueFile) : CueFile :=
  let layers' :=
    layers file
    ++ [{| kind := "percussion";
           settings := percussion_settings 200%float;
           layer_events := [] |}] in
  {| lengthMillis := lengthMillis file; layers := layers' |}.

Definition defaultEventStates (layer0 : CueFileLayer)
  : Error + list CueFileEventState :=
  if String.eqb (kind layer0) "percussion" then
    inr [{| millisDelta := 0%float; values := amplitude 1%float |};
         {| millisDelta := defaultLengthMillis (settings layer0);
            values := amplitude 0%float |}]
  else inl ("no default states for layer kind " +:+ kind layer0).

(** [doConvertLayer] and [modifyEvents] with a callback [f.f] that may
    throw, as [setEventDuration] does.  ([modifyEvents] above is the case
    of a callback that does not, see [modifyEvents_throwing_total].) *)
Definition doConvertLayer_throwing
    (f : CueFileEvent -> CueFileLayer -> Error + CueFileEvent)
    (selectedEvents : gset nat) (l : CueFileLayer) : Error + CueFileLayer :=
  events' ← Array_map
    (fun e i => if decide (i ∈ selectedEvents) then f e l else inr e)
    (layer_events l);
  mret {| kind := kind l; settings := settings l; layer_events := events' |}.

Definition modifyEvents_throwing (cueFile : CueFile) (selection : Selection)
    (f : CueFileEvent -> CueFileLayer -> Error + CueFileEvent)
  : Error + CueFile :=
  let selectedEvents := buildUpSelectionSet selection in
  newLayers ← Array_map
    (fun l i =>
       match selectedEvents !! i with
       | None => inr l
       | Some layerSet => doConvertLayer_throwing f layerSet l
       end)
    (layers cueFile);
  mret {| lengthMillis := lengthMillis cueFile; layers := newLayers |}.

(** [setEventDuration], inside [updateDurationForSelectedEvents]. *)
Definition setEventDuration (newDuration : float)
    (e : CueFileEvent) (layer0 : CueFileLayer) : Error + CueFileEvent :=
  states' ← (if bool_decide (0 < length (states e))%nat then inr (states e)
             else defaultEventStates layer0);
  let currentDuration := Math_max_apply (map millisDelta states') in
  let stretch := newDuration / currentDuration in
  mret {| timestampMillis := timestampMillis e;
          states :=
            map (fun s =>
                   {| millisDelta := Math_round (millisDelta s * stretch);
                      values := values s |})
                states' |}.

Definition updateDurationForSelectedEvents
    (cueFile : CueFile) (selection : Selection) (newDuration : float)
  : Error + CueFile :=
  if decide (length (events selection) = 0) then inr cueFile
  else modifyEvents_throwing cueFile selection (setEventDuration newDuration).

End CueFileDurations.

(** Layers whose settings are their default length and whose values are
    an amplitude. *)
#[export] Instance demo_LayerValues : LayerValues float float := {|
  percussion_settings n := n;
  defaultLengthMillis s := s;
  amplitude a := a;
  defaultLengthMillis_settings n := eq_refl
|}.

(** A cue file with a percussion layer of three events (one without
    states, one of 50 ms, one of no length) and a layer of another kind
    with one event without states. *)
Definition demo_layers : CueFile string float float :=
  {| lengthMillis := 1000%float;
     layers :=
       [{| kind := "percussion"; settings := 200%float;
           layer_events :=
             [{| timestampMillis := 10%float; states := [] |};
              {| timestampMillis := 20%float;
                 states :=
                   [{| millisDelta := 0%float; values := 1%float |};
                    {| millisDelta := 50%float; values := 0%float |}] |};
              {| timestampMillis := 30%float;
                 states := [{| millisDelta := 0%float;
                               values := 1%float |}] |}] |};
        {| kind := "tones"; settings := 0%float;
           layer_events :=
             [{| timestampMillis := 5%float; states := [] |}] |}] |}.

(* ================================================================== *)
(** * Properties of the player *)

(** Unfolding the monad, and the methods down to field updates. *)
Ltac monad_unfold :=
  unfold exec, eval, mbind, M_bind, mret, M_ret, gets, modify, skip in *.

Ltac player_unfold :=
  unfold step, settle, deliver_ended, animationFrame, clock,
    loadAudioFile, loadAudioFile_settle, set_src, set_src_settle,
    set_volume, set_muted, set_currentTime,
    set_playbackRate, set_adjustPitchWithPlaybackRate, changeConfiguration,
    play, pause, playFrom, loadFile_decoded, trackEndedListener, timeUpdated,
    stopWithoutEnding, dispatchError, sendEvent,
    updateGain, mutate_state, assign_state, add_node, node_stop,
    resume_if_suspended, dispatchEvent, alloc, nowMillis in *.

(** A player given by its fields. *)
Ltac destruct_player e :=
  let ct := fresh "ct" in
  let cs := fresh "cs" in
  let ns := fresh "ns" in
  let g := fresh "g" in
  let afr := fresh "afr" in
  let pr := fresh "pr" in
  let ap := fresh "ap" in
  let v := fresh "v" in
  let m := fresh "m" in
  let tr := fresh "tr" in
  let ds := fresh "ds" in
  let nid := fresh "nid" in
  let pd := fresh "pd" in
  let fr := fresh "fr" in
  let nf := fresh "nf" in
  destruct e as [[ct cs ns] g afr pr ap v m tr ds nid pd fr nf].

Section PlayerSteps.
Context {num : Type} `{JSNumber num}.

Local Abbreviation PreciseAudio := (PreciseAudio num).

(** Whatever handle was stored, [scheduleTimeUpdated] leaves one callback
    requested, the new one. *)
Lemma scheduleTimeUpdated_eq (e : PreciseAudio) :
  scheduleTimeUpdated e =
  (tt, set_animationFrameRequest (Some (next_frame e))
         (set_frames (Some (next_frame e)) (S (next_frame e)) e)).
Proof.
  destruct_player e.
  unfold scheduleTimeUpdated, cancelAnimationFrame, requestAnimationFrame.
  monad_unfold. cbn.
  destruct afr as [id|]; cbn; [case_decide|]; reflexivity.
Qed.

Lemma node_active_stopped (n : AudioBufferSourceNode num) :
  node_active (set_node_stopped n) = false.
Proof. reflexivity. Qed.

Lemma node_active_ended (n : AudioBufferSourceNode num) :
  node_active (set_node_ended n) = false.
Proof. unfold node_active. cbn. apply andb_false_r. Qed.

End PlayerSteps.

(** Running a method on a player given by its fields: the goal is a
    projection of the state the method leaves; identity tests on
    identifiers that are visibly equal or different are decided on the
    way. *)
Ltac exec_step :=
  player_unfold; monad_unfold; cbn;
  repeat (progress (repeat first
            [ rewrite decide_True by reflexivity
            | rewrite decide_False by first [ assumption | congruence | lia ]
            | rewrite scheduleTimeUpdated_eq ]; cbn)).

(** The four shapes of [this.track]: a track paused, a track playing, a
    track not loaded, no track. *)
Ltac destruct_track tr :=
  let tid := fresh "tid" in
  let src := fresh "src" in
  let b := fresh "b" in
  let sid := fresh "sid" in
  let p := fresh "p" in
  let n := fresh "n" in
  let sup := fresh "sup" in
  let a := fresh "a" in
  destruct tr as [[tid src [[b [sid [p|n sup a]]]|]]|].

(** Lookups in the node list after a [stop()], an ['ended'] or a new
    source, brought back to lookups in the list before. *)
Ltac inv_norm :=
  intros; simplify_eq/=;
  repeat match goal with
  | H : (_ ++ [_]) !! _ = Some _ |- _ =>
      apply lookup_snoc_Some in H; destruct H as [[? H]|[? ?]];
      simplify_eq/=
  | H : alter _ _ _ !! _ = Some _ |- _ =>
      rewrite list_lookup_alter in H; case_decide; simplify_eq/=
  | H : _ <$> _ = Some _ |- _ =>
      apply fmap_Some in H; destruct H as (? & H & ?); simplify_eq/=
  | H : _ ∈ _ ++ [_] |- _ =>
      apply elem_of_app in H; destruct H as [H|H];
      [|apply list_elem_of_singleton in H]; simplify_eq/=
  | H : node_active (set_node_stopped _) = true |- _ =>
      rewrite node_active_stopped in H; discriminate
  | H : node_active (set_node_ended _) = true |- _ =>
      rewrite node_active_ended in H; discriminate
  end;
  rewrite ?length_alter in *.

Ltac inv_cbn H :=
  unfold current_source, current_state, current_data in H; cbn in H.

(** What the invariant [I] of the state before says of the track and of
    the nodes at hand. *)
Ltac inv_use I :=
  try (let I1 := fresh "I1" in
       pose proof (inv_track_fresh _ I _ eq_refl) as I1; inv_cbn I1);
  try (let I2 := fresh "I2" in
       pose proof (inv_state_fresh _ I _ eq_refl) as I2; inv_cbn I2);
  try (let I6 := fresh "I6" in
       pose proof (inv_loaded _ I _ _ eq_refl eq_refl) as I6; inv_cbn I6);
  try (let I7 := fresh "I7" in
       pose proof (inv_playing _ I _ _ _ _ eq_refl) as I7; inv_cbn I7;
       destruct I7 as (? & ? & ? & ? & ? & ?); simplify_eq);
  repeat match goal with
  | Hn : _ !! _ = Some ?n, Ha : node_active ?n = true |- _ =>
      let I8 := fresh "I8" in
      pose proof (inv_active _ I _ _ Hn Ha) as I8; inv_cbn I8;
      lazymatch type of I8 with
      | Some ?a = Some ?a => fail
      | _ => simplify_eq
      end
  | Hn : _ !! _ = Some ?n, Hl : node_listener ?n = _ |- _ =>
      let I9 := fresh "I9" in
      pose proof (inv_listener _ I _ _ _ Hn eq_refl Hl) as I9; inv_cbn I9;
      lazymatch type of I9 with
      | Some ?a = Some ?a => fail
      | _ => simplify_eq
      end
  | Hn : _ !! _ = Some ?n |- _ =>
      let I9 := fresh "I9" in
      pose proof (inv_listener _ I _ _ _ Hn eq_refl eq_refl) as I9;
      inv_cbn I9;
      lazymatch type of I9 with
      | Some ?a = Some ?a => fail
      | _ => simplify_eq
      end
  | Hn : _ !! _ = Some ?n |- _ =>
      lazymatch goal with
      | _ : (node_listener n < _)%nat |- _ => fail
      | _ => idtac
      end;
      let I4 := fresh "I4" in
      pose proof (inv_listener_fresh _ I _ _ Hn) as I4; inv_cbn I4
  | Hp : ?p ∈ _ |- load_track ?p < _ =>
      let I3 := fresh "I3" in
      pose proof (inv_pending_fresh _ I _ Hp) as I3; inv_cbn I3; lia
  end.

Ltac playing_ok :=
  split; [reflexivity|];
  eexists; split;
  [ first [ eassumption
          | apply list_lookup_middle; by rewrite ?length_alter ]
  | cbn; repeat split; first [ reflexivity | assumption ] ].

Ltac inv_finish I :=
  inv_norm; inv_use I; inv_norm;
  try first [ assumption | lia | done | congruence | playing_ok ].

(** One case of the preservation of the invariant. *)
Ltac inv_case I :=
  split; unfold current_source, current_state, current_data; exec_step;
  try (apply (inv_pending_nodup _ I)); inv_finish I.

(** One case of the preservation of staleness. *)
Ltac stale_case :=
  intros [? Hcur]; unfold current_state, current_data in *; cbn in *;
  split; exec_step; intros; simplify_eq/=;
  first [ lia | exact (Hcur _ eq_refl) | done ].

(** The case analysis every proof by cases on the action needs before the
    method can be run: on the track, and on the tests of the method. *)
Ltac method_cases e tac :=
  let ct := fresh "ct" in
  let cs := fresh "cs" in
  let ns := fresh "ns" in
  let g := fresh "g" in
  let afr := fresh "afr" in
  let pr := fresh "pr" in
  let ap := fresh "ap" in
  let v := fresh "v" in
  let m := fresh "m" in
  let tr := fresh "tr" in
  let ds := fresh "ds" in
  let nid := fresh "nid" in
  let pd := fresh "pd" in
  let fr := fresh "fr" in
  let nf := fresh "nf" in
  let tid := fresh "tid" in
  let src := fresh "src" in
  let b := fresh "buf" in
  let sid := fresh "sid" in
  let p := fresh "pos" in
  let n := fresh "snode" in
  let sup := fresh "sup" in
  let st := fresh "st" in
  destruct e as [[ct cs ns] g afr pr ap v m tr ds nid pd fr nf];
  match goal with
  | |- context [set_src ?s] =>
      unfold set_src; monad_unfold;
      destruct (String.eqb s EmptyString)
  | |- context [set_volume _] =>
      unfold set_volume; monad_unfold; cbn; destruct (negb _)
  | |- context [set_muted _] =>
      unfold set_muted; monad_unfold; cbn; destruct (negb _)
  | |- context [animationFrame] =>
      unfold animationFrame; monad_unfold; cbn; destruct fr
  | |- context [settle ?i ?r] =>
      let o := fresh "o" in
      unfold settle; monad_unfold; cbn;
      destruct (pd !! i) as [[? o]|] eqn:?; cbn;
      [destruct o, r; unfold loadAudioFile_settle, set_src_settle|]
  | |- context [deliver_ended ?i] =>
      let node := fresh "node" in
      unfold deliver_ended; monad_unfold; cbn;
      destruct (ns !! i) as [node|] eqn:?; [destruct (node_ended node) eqn:?|]
  | _ => idtac
  end;
  destruct tr as [[tid src [[b [sid [p|n sup st]]]|]]|];
  try destruct sup;
  try match goal with
      | |- context [loadFile_decoded ?id] =>
          destruct (decide (tid = id)); [subst tid|]
      end;
  try match goal with
      | |- context [trackEndedListener ?id] =>
          destruct (decide (sid = id)); [subst sid|]
      end;
  tac.

Ltac step_cases a e tac := destruct a; cbn [step]; method_cases e tac.

Section PlayerInvariant.
Context {num : Type} `{JSNumber num}.

Local Abbreviation PreciseAudio := (PreciseAudio num).

Lemma Inv_constructor (s : AudioContextState) : Inv (constructor s).
Proof.
  split; unfold current_source, current_state, current_data; cbn;
    intros; simplify_eq; try done.
  - set_solver.
  - constructor.
Qed.

Lemma Inv_play (e : PreciseAudio) : Inv e -> Inv (exec play e).
Proof.
  intros I. destruct_player e. destruct_track tr; inv_case I.
Qed.

Lemma Inv_pause (e : PreciseAudio) : Inv e -> Inv (exec pause e).
Proof.
  intros I. destruct_player e. destruct_track tr; inv_case I.
Qed.

Lemma Inv_set_currentTime (e : PreciseAudio) s :
  Inv e -> Inv (exec (set_currentTime s) e).
Proof.
  intros I. destruct_player e. destruct_track tr; inv_case I.
Qed.

Lemma Inv_set_playbackRate (e : PreciseAudio) r :
  Inv e -> Inv (exec (set_playbackRate r) e).
Proof.
  intros I. destruct_player e. destruct_track tr; inv_case I.
Qed.

Lemma Inv_set_adjustPitchWithPlaybackRate (e : PreciseAudio) b :
  Inv e -> Inv (exec (set_adjustPitchWithPlaybackRate b) e).
Proof.
  intros I. destruct_player e. destruct_track tr; inv_case I.
Qed.

Lemma Inv_clock (e : PreciseAudio) t : Inv e -> Inv (exec (clock t) e).
Proof.
  intros I. destruct_player e. destruct_track tr; inv_case I.
Qed.

Lemma Inv_set_muted (e : PreciseAudio) b : Inv e -> Inv (exec (set_muted b) e).
Proof.
  intros I. destruct_player e. unfold set_muted. monad_unfold. cbn.
  destruct (negb _); destruct_track tr; inv_case I.
Qed.

Lemma Inv_set_volume (e : PreciseAudio) x : Inv e -> Inv (exec (set_volume x) e).
Proof.
  intros I. destruct_player e. unfold set_volume. monad_unfold. cbn.
  destruct (negb _); destruct_track tr; inv_case I.
Qed.

Lemma Inv_animationFrame (e : PreciseAudio) : Inv e -> Inv (exec animationFrame e).
Proof.
  intros I. destruct_player e. unfold animationFrame. monad_unfold. cbn.
  destruct fr; destruct_track tr; inv_case I.
Qed.

Lemma NoDup_pending_snoc (pd : list PendingLoad) (id : nat) (o : LoadOrigin) :
  NoDup (load_track <$> pd) ->
  (forall p, p ∈ pd -> (load_track p < id)%nat) ->
  NoDup (load_track <$> pd ++ [{| load_track := id; load_origin := o |}]).
Proof.
  intros Hnd Hlt. rewrite fmap_app. apply NoDup_app. split; [done|]. split.
  - intros x Hx Hin. apply list_elem_of_fmap in Hx as (p & -> & Hp).
    cbn in Hin. apply list_elem_of_singleton in Hin.
    specialize (Hlt p Hp). lia.
  - apply NoDup_singleton.
Qed.

Lemma NoDup_pending_delete (pd : list PendingLoad) (i : nat) :
  NoDup (load_track <$> pd) -> NoDup (load_track <$> delete i pd).
Proof.
  intros Hnd. rewrite list_fmap_delete.
  eapply sublist_NoDup; [done|]. apply sublist_delete.
Qed.

Lemma not_pending_delete (pd : list PendingLoad) (i : nat) (p : PendingLoad) :
  NoDup (load_track <$> pd) -> pd !! i = Some p ->
  load_track p ∉ load_track <$> delete i pd.
Proof.
  intros Hnd Hp.
  rewrite <- (take_drop_middle pd i p Hp) in Hnd.
  rewrite delete_take_drop.
  rewrite fmap_app in *. cbn in Hnd.
  apply NoDup_app in Hnd as (_ & Hl & Hr).
  apply NoDup_cons in Hr as (Hr & _).
  intros Hin. apply elem_of_app in Hin as [Hin|Hin]; [|done].
  apply (Hl _ Hin). left.
Qed.

Lemma Inv_loadAudioFile (e : PreciseAudio) f :
  Inv e -> Inv (exec (loadAudioFile f) e).
Proof.
  intros I. destruct_player e. destruct_track tr; inv_case I.
  all: apply NoDup_pending_snoc;
    [apply (inv_pending_nodup _ I) | apply (inv_pending_fresh _ I)].
Qed.

Lemma Inv_set_src (e : PreciseAudio) s :
  Inv e -> Inv (exec (set_src s) e).
Proof.
  intros I. destruct_player e. unfold set_src. monad_unfold.
  destruct (String.eqb s EmptyString); destruct_track tr; inv_case I.
  all: apply NoDup_pending_snoc;
    [apply (inv_pending_nodup _ I) | apply (inv_pending_fresh _ I)].
Qed.

Lemma Inv_deliver_ended (e : PreciseAudio) i :
  Inv e -> Inv (exec (deliver_ended i) e).
Proof.
  intros I. destruct_player e. unfold deliver_ended. monad_unfold. cbn.
  destruct (ns !! i) as [n|] eqn:Hi; [destruct (node_ended n) eqn:He|].
  all: destruct_track tr.
  all: try (destruct (decide (sid = node_listener n)); [subst sid|]).
  all: try destruct sup.
  all: inv_case I.
  split; [done|]. exists x.
  rewrite list_lookup_alter_ne by (intros ->; simplify_eq; done). done.
Qed.

Lemma Inv_settle (e : PreciseAudio) i r :
  Inv e -> Inv (exec (settle i r) e).
Proof.
  intros I. destruct_player e. unfold settle. monad_unfold. cbn.
  destruct (pd !! i) as [[id o]|] eqn:Hi; cbn.
  2:{ destruct_track tr; inv_case I. }
  assert (forall p, p ∈ delete i pd -> (load_track p < nid)%nat) as Hfresh.
  { intros p Hp. apply list_elem_of_delete_inv in Hp.
    apply (inv_pending_fresh _ I _ Hp). }
  pose proof (NoDup_pending_delete pd i (inv_pending_nodup _ I)) as Hnd.
  pose proof (not_pending_delete pd i _ (inv_pending_nodup _ I) Hi) as Hnot.
  cbn in Hnd, Hnot.
  destruct o, r as [buf|err]; destruct_track tr.
  all: try (destruct (decide (tid = id)); [subst tid|]).
  all: inv_case I.
  all: try (match goal with Hp : _ ∈ delete _ _ |- _ =>
              specialize (Hfresh _ Hp); lia end).
  all: try assumption.
  all: try (intros Hin; apply I6; rewrite list_fmap_delete in Hin;
            by apply list_elem_of_delete_inv in Hin).
  all: exfalso; apply I6; apply list_elem_of_fmap; eexists;
    (split; [|eapply list_elem_of_lookup_2; exact Hi]); reflexivity.
Qed.

(** Every action keeps the invariant. *)
Lemma Inv_step (a : Action num) (e : PreciseAudio) :
  Inv e -> Inv (exec (step a) e).
Proof.
  destruct a; cbn [step].
  - apply Inv_loadAudioFile.
  - apply Inv_set_src.
  - apply Inv_play.
  - apply Inv_pause.
  - apply Inv_set_currentTime.
  - apply Inv_set_playbackRate.
  - apply Inv_set_adjustPitchWithPlaybackRate.
  - apply Inv_set_volume.
  - apply Inv_set_muted.
  - apply Inv_clock.
  - intros I. pose proof (Inv_settle e i r I) as I'.
    unfold exec in *. monad_unfold. destruct (settle i r e). exact I'.
  - apply Inv_deliver_ended.
  - apply Inv_animationFrame.
Qed.

Lemma run_snoc (acts : list (Action num)) (a : Action num) (e : PreciseAudio) :
  run (acts ++ [a]) e = exec (step a) (run acts e).
Proof. unfold run. rewrite fold_left_app. reflexivity. Qed.

Lemma Inv_run (acts : list (Action num)) (e : PreciseAudio) :
  Inv e -> Inv (run acts e).
Proof.
  revert e. induction acts as [|a acts IH]; intros e I; [exact I|].
  cbn. apply IH, Inv_step, I.
Qed.

Lemma stale_state_step (a : Action num) (e : PreciseAudio) (id : nat) :
  stale_state e id -> stale_state (exec (step a) e) id.
Proof.
  unfold stale_state. step_cases a e stale_case.
Qed.

Lemma stale_track_step (a : Action num) (e : PreciseAudio) (id : nat) :
  stale_track e id -> stale_track (exec (step a) e) id.
Proof.
  unfold stale_track. step_cases a e stale_case.
Qed.

End PlayerInvariant.

Section PlayerProperties.
Context {num : Type} `{JSNumber num}.

Local Abbreviation PreciseAudio := (PreciseAudio num).

(** ** The position getter *)

Lemma currentTimeMillis_pure (e : PreciseAudio) :
  exec currentTimeMillis e = e.
Proof.
  unfold currentTimeMillis, current_data. monad_unfold.
  destruct (track e) as [[tid src [[b [sid [p|n s a]]]|]]|]; reflexivity.
Qed.

Lemma currentTimeMillis_eval (e : PreciseAudio) (d : TrackData num) :
  current_data e = Some d ->
  eval currentTimeMillis e =
    match state_value (state d) with
    | Paused positionMillis => positionMillis
    | Playing _ _ effectiveStartTimeMillis =>
        ((ctx_currentTime (context e) * lit_1000 - effectiveStartTimeMillis)
         * _playbackRate e)%js
    end.
Proof.
  intros Hd. unfold currentTimeMillis. monad_unfold. cbn. rewrite Hd.
  destruct (state_value (state d)); reflexivity.
Qed.

(** C1.  [currentTimeMillis] is a query: it leaves the player as it found
    it.  On a loaded track it returns the stored [positionMillis] when the
    state is paused, and [(now - effectiveStartTimeMillis) * playbackRate]
    when it is playing, [now] being the clock of the context in
    milliseconds. *)
Theorem currentTimeMillis_spec (e : PreciseAudio) (d : TrackData num) :
  current_data e = Some d ->
  exec currentTimeMillis e = e /\
  eval currentTimeMillis e =
    match state_value (state d) with
    | Paused positionMillis => positionMillis
    | Playing _ _ effectiveStartTimeMillis =>
        ((ctx_currentTime (context e) * lit_1000 - effectiveStartTimeMillis)
         * _playbackRate e)%js
    end.
Proof.
  intros Hd. split.
  - apply currentTimeMillis_pure.
  - apply currentTimeMillis_eval, Hd.
Qed.

(** ** Seeking while paused *)

(** C6.  On a loaded, paused track, assigning [currentTime] overwrites the
    position of the state object in place with the position given (in
    milliseconds, [positionSeconds * 1000]), which [currentTimeMillis]
    then returns; it creates no source node; and it dispatches
    [timeupdate], then [seeked]. *)
Theorem set_currentTime_paused
    (e : PreciseAudio) (d : TrackData num) (id : nat) (p s : num) :
  current_data e = Some d ->
  state d = {| state_id := id; state_value := Paused p |} ->
  let e' := exec (set_currentTime s) e in
  current_state e'
    = Some {| state_id := id; state_value := Paused (s * lit_1000)%js |} /\
  eval currentTimeMillis e' = (s * lit_1000)%js /\
  ctx_nodes (context e') = ctx_nodes (context e) /\
  dispatched e' =
    dispatched e ++ [PreciseAudioEvent Ev.timeupdate;
                     PreciseAudioEvent Ev.seeked].
Proof.
  intros Hd Hs e'. subst e'. destruct_player e.
  unfold current_data in Hd. cbn in Hd.
  destruct tr as [[tid src dt]|]; [|discriminate]. cbn in Hd. subst dt.
  destruct d as [b st]. cbn in Hs. subst st.
  unfold current_state, current_data, currentTimeMillis.
  repeat split; exec_step; rewrite <- ?app_assoc; reflexivity.
Qed.

(** ** Superseded loads *)

Lemma stale_track_run (acts : list (Action num)) (e : PreciseAudio) (id : nat) :
  stale_track e id -> stale_track (run acts e) id.
Proof.
  revert e. induction acts as [|a acts IH]; intros e Hs; [exact Hs|].
  cbn. apply IH, stale_track_step, Hs.
Qed.

Lemma stale_state_run (acts : list (Action num)) (e : PreciseAudio) (id : nat) :
  stale_state e id -> stale_state (run acts e) id.
Proof.
  revert e. induction acts as [|a acts IH]; intros e Hs; [exact Hs|].
  cbn. apply IH, stale_state_step, Hs.
Qed.

(** A load replaces the current track by one of a new identity, or by
    none. *)
Lemma stale_track_load (a : Action num) (e : PreciseAudio) (t : Track num) :
  Inv e -> track e = Some t -> is_load a = true ->
  stale_track (exec (step a) e) (track_id t).
Proof.
  intros I Ht Ha. pose proof (inv_track_fresh _ I _ Ht) as Hlt.
  destruct a; try discriminate; cbn [step]; unfold stale_track.
  - destruct_player e. cbn in Ht, Hlt. subst tr.
    destruct t as [tid src [[b [sid [p|n sup a]]]|]]; cbn in Hlt.
    all: split; exec_step; intros; simplify_eq/=; lia.
  - destruct_player e. cbn in Ht, Hlt. subst tr.
    unfold set_src. monad_unfold. destruct (String.eqb src EmptyString).
    all: destruct t as [tid src' [[b [sid [p|n sup a]]]|]]; cbn in Hlt.
    all: split; exec_step; intros; simplify_eq/=; lia.
Qed.

(** The result of a load whose track is not the current one: a decoded
    buffer is dropped, a failure is still reported; the track stays as it
    is either way. *)
Lemma settle_superseded (e : PreciseAudio) (i : nat) (p : PendingLoad)
    (r : LoadResult num) :
  pending e !! i = Some p ->
  (forall t, track e = Some t -> track_id t <> load_track p) ->
  track (exec (settle i r) e) = track e /\
  dispatched (exec (settle i r) e)
  = dispatched e
    ++ match r with decoded _ => [] | failed err => [ErrorEvent err] end.
Proof.
  intros Hp Hne. destruct_player e. cbn in Hp, Hne.
  unfold settle. monad_unfold. cbn. rewrite Hp. cbn.
  destruct p as [id o]. cbn in Hne.
  unfold loadAudioFile_settle, set_src_settle.
  destruct r as [buf|err].
  - destruct tr as [t|].
    + specialize (Hne t eq_refl). destruct t as [tid src dt]. cbn in Hne.
      destruct o; split; exec_step; rewrite ?app_nil_r; reflexivity.
    + destruct o; split; exec_step; rewrite ?app_nil_r; reflexivity.
  - destruct o; split; reflexivity.
Qed.

(** C2, as it holds.  Take a track [t] that is current at some point, then
    any load (a call of [loadAudioFile] or an assignment to [src]), then
    any further actions.  If a load for [t] is still in flight and its
    result arrives, the track (and so its data) stays as it is; a decoded
    buffer dispatches nothing, but a failure still dispatches its [error]
    event, as no identity is tested on that path.  In any state, a result
    that changes the track, or dispatches anything but the [error] event of
    a failure, is a decoded buffer of a load for the track that is current,
    by identity. *)
Theorem superseded_load_discarded
    (s0 : AudioContextState) (acts1 acts2 : list (Action num))
    (sup : Action num) (t : Track num) (i : nat) (p : PendingLoad)
    (r : LoadResult num) :
  let e1 := run acts1 (constructor s0) in
  let e2 := run acts2 (exec (step sup) e1) in
  let e3 := exec (settle i r) e2 in
  let reported :=
    match r with decoded _ => [] | failed err => [ErrorEvent err] end in
  track e1 = Some t ->
  is_load sup = true ->
  pending e2 !! i = Some p ->
  (load_track p = track_id t ->
     track e3 = track e2 /\ dispatched e3 = dispatched e2 ++ reported) /\
  (track e3 <> track e2 \/ dispatched e3 <> dispatched e2 ++ reported ->
     (exists buf, r = decoded buf) /\
     exists c, track e2 = Some c /\ track_id c = load_track p).
Proof.
  intros e1 e2 e3 reported Ht Hsup Hp. split.
  - intros Hid. apply (settle_superseded e2 i p r Hp).
    assert (stale_track e2 (track_id t)) as [_ Hs].
    { apply stale_track_run, stale_track_load; [|exact Ht|exact Hsup].
      apply Inv_run, Inv_constructor. }
    rewrite Hid. exact Hs.
  - intros Hch.
    assert (exists c, track e2 = Some c /\ track_id c = load_track p) as Hc.
    { destruct (track e2) as [c|] eqn:Hc.
      - destruct (decide (track_id c = load_track p)) as [Heq|Hne];
          [by exists c|].
        exfalso.
        destruct (settle_superseded e2 i p r Hp) as [H1 H2].
        { intros c' Hc'. rewrite Hc in Hc'. by simplify_eq. }
        subst e3. rewrite Hc in H1. destruct Hch as [Hch|Hch]; by apply Hch.
      - exfalso.
        destruct (settle_superseded e2 i p r Hp) as [H1 H2].
        { intros c' Hc'. rewrite Hc in Hc'. discriminate. }
        subst e3. rewrite Hc in H1. destruct Hch as [Hch|Hch]; by apply Hch. }
    split; [|exact Hc].
    destruct r as [buf|err]; [by exists buf|]. exfalso.
    subst e3 reported. revert Hch Hp. generalize e2. clear. intros e Hch Hp.
    destruct_player e. cbn in Hp.
    unfold settle in Hch. monad_unfold. cbn in Hch. rewrite Hp in Hch.
    destruct p as [id []]; cbn in Hch; destruct Hch as [Hch|Hch]; by apply Hch.
Qed.

(** ** The end of a track *)

(** A listener created for a state that is no longer current does
    nothing. *)
Lemma trackEndedListener_stale (e : PreciseAudio) (id : nat) :
  stale_state e id -> exec (trackEndedListener id) e = e.
Proof.
  intros [_ Hs]. unfold trackEndedListener. monad_unfold. cbn.
  destruct (current_state e) as [s|]; [|reflexivity].
  specialize (Hs s eq_refl). rewrite decide_False by exact Hs. reflexivity.
Qed.

(** Stopping the source of a playing state replaces that state: the
    listener created for it is left with a stale one. *)
Lemma stale_state_stop (a : Action num) (e : PreciseAudio)
    (id source : nat) (sup : bool) (start : num) :
  Inv e ->
  current_state e
    = Some {| state_id := id; state_value := Playing source sup start |} ->
  stops_source a = true ->
  stale_state (exec (step a) e) id.
Proof.
  intros I Hs Ha. pose proof (inv_state_fresh _ I _ Hs) as Hlt. cbn in Hlt.
  destruct_player e. unfold current_state, current_data in Hs. cbn in Hs, Hlt.
  destruct tr as [[tid src [[b st]|]]|]; simplify_eq/=.
  unfold stale_state, current_state, current_data.
  destruct a; try discriminate; cbn [step].
  - split; exec_step; intros; simplify_eq/=; lia.
  - unfold set_src. monad_unfold. destruct (String.eqb _ _).
    all: split; exec_step; intros; simplify_eq/=; lia.
  - split; exec_step; intros; simplify_eq/=; lia.
  - split; exec_step; intros; simplify_eq/=; lia.
Qed.

(** A node keeps its listener and its rate. *)
Lemma node_step (a : Action num) (e : PreciseAudio)
    (i : nat) (n : AudioBufferSourceNode num) :
  ctx_nodes (context e) !! i = Some n ->
  exists n', ctx_nodes (context (exec (step a) e)) !! i = Some n' /\
             node_listener n' = node_listener n /\
             node_playbackRate n' = node_playbackRate n.
Proof.
  intros Hn.
  step_cases a e ltac:(
    cbn in Hn; exec_step;
    rewrite ?lookup_app_l
      by (rewrite ?length_alter; eapply lookup_lt_Some; eassumption);
    rewrite ?list_lookup_alter; repeat case_decide; subst;
    rewrite ?Hn; cbn; eauto).
Qed.

(** While a playing state object is the current state, its source and
    its anchor stay as they are. *)
Lemma playing_state_step (a : Action num) (e : PreciseAudio)
    (id source source' : nat) (sup sup' : bool) (start start' : num) :
  (id < next_id e)%nat ->
  current_state e
    = Some {| state_id := id; state_value := Playing source sup start |} ->
  current_state (exec (step a) e)
    = Some {| state_id := id; state_value := Playing source' sup' start' |} ->
  source' = source /\ start' = start.
Proof.
  intros Hlt Hs. revert Hlt Hs. unfold current_state, current_data.
  step_cases a e ltac:(
    cbn; intros Hlt Hs; simplify_eq; exec_step; intros; simplify_eq/=;
    first [ lia | done ]).
Qed.

(** The ['ended'] event of a node whose listener is stale dispatches
    nothing. *)
Lemma deliver_ended_stale (e : PreciseAudio) (i : nat) :
  (forall n, ctx_nodes (context e) !! i = Some n ->
             stale_state e (node_listener n)) ->
  dispatched (exec (deliver_ended i) e) = dispatched e.
Proof.
  intros Hst. unfold deliver_ended. monad_unfold. cbn.
  destruct (ctx_nodes (context e) !! i) as [n|]; [|reflexivity].
  specialize (Hst n eq_refl).
  destruct (node_ended n); [reflexivity|].
  match goal with
  | |- dispatched (trackEndedListener ?id ?e1).2 = _ =>
      change (dispatched (exec (trackEndedListener id) e1) = dispatched e);
      rewrite (trackEndedListener_stale e1 id); [reflexivity|]
  end.
  exact Hst.
Qed.

(** C3.  Take a player that reached a playing state.  When its source
    node ends, the listener dispatches [ended] once and installs a new
    paused state at position 0; whenever that listener runs again, it does
    nothing.  When instead [pause()], a seek or a load stops the source
    first, the ['ended'] event the node then delivers dispatches nothing,
    and the listener does nothing whenever it runs later. *)
Theorem ended_once_unless_stopped
    (s0 : AudioContextState) (acts : list (Action num))
    (id source : nat) (sup : bool) (start : num) :
  let e := run acts (constructor s0) in
  current_state e
    = Some {| state_id := id; state_value := Playing source sup start |} ->
  (let e1 := exec (deliver_ended source) e in
   dispatched e1 = dispatched e ++ [PreciseAudioEvent Ev.ended] /\
   current_state e1
     = Some {| state_id := next_id e; state_value := Paused lit_0 |} /\
   forall later,
     exec (trackEndedListener id) (run later e1) = run later e1) /\
  (forall a, stops_source a = true ->
     let e2 := exec (step a) e in
     dispatched (exec (deliver_ended source) e2) = dispatched e2 /\
     forall later,
       exec (trackEndedListener id) (run later e2) = run later e2).
Proof.
  intros e Hs.
  assert (Inv e) as I by apply Inv_run, Inv_constructor.
  pose proof (inv_state_fresh _ I _ Hs) as Hlt. cbn in Hlt.
  destruct (inv_playing _ I _ _ _ _ Hs) as (-> & n & Hn & Hl & Ha & _).
  unfold node_active in Ha. apply andb_true_iff in Ha as [Hst Hen].
  apply negb_true_iff in Hst, Hen.
  split.
  - assert (dispatched (exec (deliver_ended source) e)
              = dispatched e ++ [PreciseAudioEvent Ev.ended] /\
            current_state (exec (deliver_ended source) e)
              = Some {| state_id := next_id e; state_value := Paused lit_0 |} /\
            next_id (exec (deliver_ended source) e) = S (next_id e))
      as (Hd & Hc & Hnext).
    { clear I. revert Hs Hn Hlt. generalize e. clear e. intros e Hs Hn Hlt.
      destruct_player e. unfold current_state, current_data in *.
      cbn in Hs, Hn, Hlt.
      destruct tr as [[tid src [[b st]|]]|]; simplify_eq/=.
      unfold deliver_ended. monad_unfold. cbn. rewrite Hn, Hen.
      repeat split; exec_step; reflexivity. }
    split; [exact Hd|]. split; [exact Hc|].
    intros later. apply trackEndedListener_stale, stale_state_run.
    split; [rewrite Hnext; lia|].
    intros s. rewrite Hc. intros [= <-]. cbn. lia.
  - intros a Hstop e2.
    assert (stale_state e2 id) as Hstale
      by (eapply stale_state_stop; eassumption).
    split.
    + apply deliver_ended_stale. intros n' Hn'.
      destruct (node_step a e source n Hn) as (n'' & Hn'' & Hl'' & _).
      fold e2 in Hn''. rewrite Hn' in Hn''. simplify_eq.
      rewrite Hl''. exact Hstale.
    + intros later. apply trackEndedListener_stale, stale_state_run, Hstale.
Qed.

(** ** One source at a time *)

(** C5.  In every state a player reaches, whatever the actions: at most
    one source node is active, and it is the source of the current playing
    state; the source of a playing state is active and was created at the
    current [_playbackRate]; and as long as a playing state object stays
    the current state, its anchor [effectiveStartTimeMillis] and
    [_playbackRate] stay as they were when [playFrom] computed the one
    from the other. *)
Theorem one_active_source
    (s0 : AudioContextState) (acts : list (Action num)) :
  let e := run acts (constructor s0) in
  (forall i j ni nj,
     ctx_nodes (context e) !! i = Some ni -> node_active ni = true ->
     ctx_nodes (context e) !! j = Some nj -> node_active nj = true ->
     i = j) /\
  (forall i n,
     ctx_nodes (context e) !! i = Some n -> node_active n = true ->
     current_source e = Some i) /\
  (forall id source sup start,
     current_state e
       = Some {| state_id := id;
                 state_value := Playing source sup start |} ->
     sup = false /\
     exists n, ctx_nodes (context e) !! source = Some n /\
               node_active n = true /\
               node_playbackRate n = _playbackRate e) /\
  (forall a id source source' sup sup' start start',
     current_state e
       = Some {| state_id := id;
                 state_value := Playing source sup start |} ->
     current_state (exec (step a) e)
       = Some {| state_id := id;
                 state_value := Playing source' sup' start' |} ->
     start' = start /\ _playbackRate (exec (step a) e) = _playbackRate e).
Proof.
  intros e.
  assert (Inv e) as I by apply Inv_run, Inv_constructor.
  split; [|split; [|split]].
  - intros i j ni nj Hi Hai Hj Haj.
    pose proof (inv_active _ I _ _ Hi Hai) as H1.
    pose proof (inv_active _ I _ _ Hj Haj) as H2.
    congruence.
  - apply (inv_active _ I).
  - intros id source sup start Hs.
    destruct (inv_playing _ I _ _ _ _ Hs) as (-> & n & Hn & _ & Ha & Hr).
    eauto 6.
  - intros a id source source' sup sup' start start' Hs Hs'.
    pose proof (inv_state_fresh _ I _ Hs) as Hlt. cbn in Hlt.
    destruct (playing_state_step a e _ _ _ _ _ _ _ Hlt Hs Hs') as [-> ->].
    split; [reflexivity|].
    destruct (inv_playing _ I _ _ _ _ Hs) as (_ & n & Hn & _ & _ & Hr).
    destruct (inv_playing _ (Inv_step a e I) _ _ _ _ Hs')
      as (_ & n' & Hn' & _ & _ & Hr').
    destruct (node_step a e source n Hn) as (n'' & Hn'' & _ & Hrate).
    rewrite Hn' in Hn''. simplify_eq. congruence.
Qed.

(** ** Failed loads *)

(** C7, as it holds.  When a load in flight fails, the failure is
    reported by one [error] event carrying the error, and the track stays
    as it is.  The chain the [src] setter built then settles fulfilled;
    the promise [loadAudioFile] returned is rejected with the same
    error. *)
Theorem load_failure_reported
    (e : PreciseAudio) (i : nat) (p : PendingLoad) (err : Error) :
  pending e !! i = Some p ->
  let e' := exec (settle i (failed err)) e in
  dispatched e' = dispatched e ++ [ErrorEvent err] /\
  track e' = track e /\
  pending e' = delete i (pending e) /\
  eval (settle i (failed err)) e
    = Some match load_origin p with
           | from_src => fulfilled
           | from_loadAudioFile => rejected err
           end.
Proof.
  intros Hp. unfold settle. monad_unfold. cbn. rewrite Hp. cbn.
  destruct p as [id []]; repeat split.
Qed.

(** ** Changing the playback rate *)


End PlayerProperties.

Section Binary64.

Local Open Scope float_scope.

(** C10.  On a player without a track, or whose track is not loaded yet,
    [currentTimeMillis], [currentTime], [duration] and [durationMillis]
    return 0 and [paused] returns true. *)
Theorem getters_without_data (e : PreciseAudio float) :
  current_data e = None ->
  eval currentTimeMillis e = 0 /\
  eval get_currentTime e = 0 /\
  eval duration e = 0 /\
  eval durationMillis e = 0 /\
  eval paused e = true.
Proof.
  intros Hd.
  unfold get_currentTime, currentTimeMillis, durationMillis, duration,
    paused, current_state.
  monad_unfold. cbn. rewrite Hd. cbn. repeat split.
Qed.

End Binary64.

(* ================================================================== *)
(** * Facts on binary64 comparisons *)

Section Binary64Facts.

Local Open Scope float_scope.

Lemma SFcompare_antisym (a b : spec_float) :
  SFcompare b a = option_map CompOpp (SFcompare a b).
Proof.
  destruct a as [sa|sa| |sa ma ea], b as [sb|sb| |sb mb eb]; cbn;
    try destruct sa; try destruct sb; try reflexivity.
  all: rewrite (Z.compare_antisym ea eb); destruct (ea ?= eb)%Z; cbn;
    try reflexivity.
  all: pose proof (Pos.compare_cont_antisym ma mb Eq) as Ha; cbn in Ha;
    rewrite <- Ha, ?CompOpp_involutive; reflexivity.
Qed.

(** [a < b] and [b < a] never hold together. *)
Lemma float_ltb_asym (x y : float) :
  (x <? y) = true -> (y <? x) = false.
Proof.
  rewrite !FloatAxioms.ltb_spec. unfold SFltb.
  rewrite (SFcompare_antisym (Prim2SF x) (Prim2SF y)).
  destruct (SFcompare (Prim2SF x) (Prim2SF y)) as [[]|]; cbn; congruence.
Qed.

Lemma float_ltb_leb (x y : float) :
  (x <? y) = true -> (x <=? y) = true.
Proof.
  rewrite FloatAxioms.ltb_spec, FloatAxioms.leb_spec. unfold SFltb, SFleb.
  destruct (SFcompare _ _) as [[]|]; congruence.
Qed.

Lemma float_is_nan_spec (x : float) :
  is_nan x = true <-> Prim2SF x = S754_nan.
Proof.
  unfold is_nan. rewrite FloatAxioms.eqb_spec. unfold SFeqb.
  destruct (Prim2SF x) as [s|s| |s m e]; cbn; try destruct s; cbn;
    try (split; congruence).
  all: rewrite Z.compare_refl, Pos.compare_cont_refl; cbn; split; congruence.
Qed.

(** Two numbers that are not NaN and of which neither is below the other
    compare equal. *)
Lemma float_not_ltb_leb (x y : float) :
  is_nan x = false -> is_nan y = false ->
  (x <? y) = false -> (y <? x) = false -> (x <=? y) = true.
Proof.
  intros Hx Hy. rewrite !FloatAxioms.ltb_spec, FloatAxioms.leb_spec. unfold SFltb, SFleb.
  rewrite (SFcompare_antisym (Prim2SF x) (Prim2SF y)).
  assert (Prim2SF x <> S754_nan) as Hx'
    by (intros E; apply float_is_nan_spec in E; congruence).
  assert (Prim2SF y <> S754_nan) as Hy'
    by (intros E; apply float_is_nan_spec in E; congruence).
  destruct (SFcompare (Prim2SF x) (Prim2SF y)) as [[]|] eqn:Hc; cbn;
    try congruence.
  destruct (Prim2SF x), (Prim2SF y); cbn in Hc; congruence.
Qed.

(** [===] on numbers other than [-0] and NaN is equality. *)
Lemma float_eqb_eq (x y : float) :
  (x =? y) = true -> is_neg_zero x = false -> is_neg_zero y = false ->
  x = y.
Proof.
  unfold is_neg_zero. rewrite FloatAxioms.eqb_spec, !FloatAxioms.classify_spec.
  unfold SFeqb, SF64classify. intros Hc Hx Hy.
  rewrite <- (SF2Prim_Prim2SF x), <- (SF2Prim_Prim2SF y). f_equal.
  destruct (Prim2SF x) as [sx|sx| |sx mx ex],
           (Prim2SF y) as [sy|sy| |sy my ey];
    cbn in Hc, Hx, Hy; try destruct sx; try destruct sy;
    try discriminate; try reflexivity.
  all: destruct (ex ?= ey)%Z eqn:He; try discriminate.
  all: apply Z.compare_eq in He; subst ey.
  all: destruct (Pos.compare_cont Eq mx my) eqn:Hm; try discriminate.
  all: apply Pos.compare_eq in Hm; subst; reflexivity.
Qed.

Lemma float_eqb_refl (x : float) : is_nan x = false -> (x =? x) = true.
Proof. unfold is_nan. apply negb_false_iff. Qed.

Lemma float_not_ltb_eqb (x y : float) :
  is_nan x = false -> is_nan y = false ->
  (x <? y) = false -> (y <? x) = false -> (x =? y) = true.
Proof.
  intros Hx Hy. rewrite !FloatAxioms.ltb_spec, FloatAxioms.eqb_spec.
  unfold SFltb, SFeqb.
  rewrite (SFcompare_antisym (Prim2SF x) (Prim2SF y)).
  assert (Prim2SF x <> S754_nan) as Hx'
    by (intros E; apply float_is_nan_spec in E; congruence).
  assert (Prim2SF y <> S754_nan) as Hy'
    by (intros E; apply float_is_nan_spec in E; congruence).
  destruct (SFcompare (Prim2SF x) (Prim2SF y)) as [[]|] eqn:Hc; cbn;
    try congruence.
  destruct (Prim2SF x), (Prim2SF y); cbn in Hc; congruence.
Qed.

Lemma float_ltb_not_neg_zero (x : float) :
  (0 <? x) = true -> is_neg_zero x = false.
Proof.
  unfold is_neg_zero.
  rewrite FloatAxioms.ltb_spec, FloatAxioms.classify_spec.
  unfold SFltb, SF64classify.
  change (Prim2SF 0) with (S754_zero false).
  destruct (Prim2SF x) as [s|s| |s m e]; cbn; try destruct s; cbn;
    try discriminate; try reflexivity.
  all: intros _;
    match goal with |- context [if ?c then _ else _] => destruct c end;
    reflexivity.
Qed.

(** ** The order of numbers, and [Math.min] *)

Lemma SFleb_trans (a b c : spec_float) :
  SFleb a b = true -> SFleb b c = true -> SFleb a c = true.
Proof.
  unfold SFleb.
  destruct a as [sa|sa| |sa ma ea], b as [sb|sb| |sb mb eb],
           c as [sc|sc| |sc mc ec]; cbn;
    try destruct sa; try destruct sb; try destruct sc; cbn;
    try discriminate; try reflexivity.
  all: destruct (Z.compare_spec ea eb), (Z.compare_spec eb ec),
         (Z.compare_spec ea ec); cbn; try discriminate; try reflexivity;
       try lia.
  all: subst; rewrite ?Pos.compare_cont_spec; cbn;
    destruct (Pos.compare_spec ma mb), (Pos.compare_spec mb mc),
      (Pos.compare_spec ma mc); cbn; try discriminate; try reflexivity;
    try lia.
Qed.

Lemma float_leb_trans (x y z : float) :
  (x <=? y) = true -> (y <=? z) = true -> (x <=? z) = true.
Proof. rewrite !FloatAxioms.leb_spec. apply SFleb_trans. Qed.

Lemma float_leb_refl (x : float) : is_nan x = false -> (x <=? x) = true.
Proof.
  intros Hx. apply float_not_ltb_leb; try exact Hx.
  all: destruct (x <? x) eqn:Hlt; [|reflexivity];
    by rewrite (float_ltb_asym _ _ Hlt) in Hlt.
Qed.

(** [Math.min] of two numbers is one of them, and not above either. *)
Lemma float_min_spec (a b : float) :
  is_nan a = false -> is_nan b = false ->
  (float_min a b = a \/ float_min a b = b) /\
  (float_min a b <=? a) = true /\ (float_min a b <=? b) = true.
Proof.
  intros Ha Hb. unfold float_min. rewrite Ha, Hb. cbn [orb].
  destruct (a <? b) eqn:Hab.
  { split; [by left|]. split; [by apply float_leb_refl|by apply float_ltb_leb]. }
  destruct (b <? a) eqn:Hba.
  { split; [by right|]. split; [by apply float_ltb_leb|by apply float_leb_refl]. }
  destruct (is_neg_zero a).
  - split; [by left|]. split; [by apply float_leb_refl|].
    by apply float_not_ltb_leb.
  - split; [by right|]. split; [|by apply float_leb_refl].
    by apply float_not_ltb_leb.
Qed.

Lemma float_min_nan_r (a b : float) : is_nan b = true -> float_min a b = nan.
Proof. intros Hb. unfold float_min. rewrite Hb, orb_true_r. reflexivity. Qed.

Lemma float_min_infinity (x : float) :
  is_nan x = false -> float_min infinity x = x.
Proof.
  intros Hx. unfold float_min. rewrite Hx.
  change (is_nan infinity) with false. change (is_neg_zero infinity) with false.
  cbn [orb].
  assert ((infinity <? x) = false) as ->; [|by destruct (x <? infinity)].
  rewrite FloatAxioms.ltb_spec. unfold SFltb.
  change (Prim2SF infinity) with (S754_infinity false).
  by destruct (Prim2SF x) as [[]|[]| |[] m e].
Qed.

(** ** [Math.max(0, Math.min(1, v))] *)

(** The value the [volume] setter computes is NaN, or [v] itself, or one
    of the bounds. *)
Lemma volume_clamp_cases (v : float) :
  let v' := Math_max 0 (Math_min 1 v) in
  (is_nan v = true /\ v' = nan) \/
  (is_nan v = false /\
   ((1 <? v) = true /\ v' = 1 \/
    (1 <? v) = false /\ (0 <? v) = true /\ v' = v \/
    (1 <? v) = false /\ (0 <? v) = false /\ (v <? 0) = true /\ v' = 0 \/
    (1 <? v) = false /\ (0 <? v) = false /\ (v <? 0) = false /\ v' = 0)).
Proof.
  cbn. unfold float_min.
  change (is_nan 1) with false. cbn [orb].
  destruct (is_nan v) eqn:Hn; [left; split; reflexivity|right].
  split; [reflexivity|].
  destruct (1 <? v) eqn:H1.
  { left. split; reflexivity. }
  right.
  assert ((if v <? 1 then v else if is_neg_zero 1 then 1 else v) = v) as ->
    by (destruct (v <? 1); reflexivity).
  unfold float_max. change (is_nan 0) with false. rewrite Hn. cbn [orb].
  destruct (0 <? v) eqn:H0; [left; repeat split|right].
  destruct (v <? 0) eqn:H0'; [left|right]; repeat split.
Qed.

Lemma volume_clamp_not_neg_zero (v : float) :
  is_neg_zero (Math_max 0 (Math_min 1 v)) = false.
Proof.
  destruct (volume_clamp_cases v)
    as [[_ ->]|[_ [(_ & ->)|[(_ & H0 & ->)|[(_ & _ & _ & ->)|(_ & _ & _ & ->)]]]]];
    try reflexivity.
  apply float_ltb_not_neg_zero, H0.
Qed.

(** ** The volume *)

Lemma volume_not_neg_zero_step (a : Action float) (e : PreciseAudio float) :
  is_neg_zero (volume e) = false ->
  is_neg_zero (volume (exec (step a) e)) = false.
Proof.
  intros Hv.
  step_cases a e ltac:(
    cbn in Hv; exec_step;
    first [ exact Hv | apply volume_clamp_not_neg_zero ]).
Qed.

Lemma volume_not_neg_zero_run
    (s0 : AudioContextState) (acts : list (Action float)) :
  is_neg_zero (volume (run acts (constructor s0))) = false.
Proof.
  induction acts as [|a acts IH] using rev_ind; [reflexivity|].
  rewrite run_snoc. apply volume_not_neg_zero_step, IH.
Qed.

(** C8, as it holds.  In every state a player reaches, assigning [v] to
    [volume] leaves [Math.max(0, Math.min(1, v))] stored.  For a number
    [v] (not NaN) that is the clamp of [v] to [0, 1], it lies in [0, 1],
    and either the stored value changes and [volumechange] is dispatched
    once, or nothing changes at all.  So assigning 1.5 where anything but
    1 was stored stores 1 and dispatches [volumechange] once, and
    assigning 1 then changes nothing. *)
Theorem volume_setter
    (s0 : AudioContextState) (acts : list (Action float)) (v : float) :
  let e := run acts (constructor s0) in
  let e' := exec (set_volume v) e in
  volume e' = Math_max 0 (Math_min 1 v) /\
  (is_nan v = true -> is_nan (volume e') = true) /\
  (is_nan v = false ->
   (volume e' =? clamp v 0 1) = true /\
   (0 <=? volume e') = true /\ (volume e' <=? 1) = true /\
   (dispatched e' = dispatched e ++ [PreciseAudioEvent Ev.volumechange] /\
    volume e' <> volume e
    \/ e' = e)) /\
  (volume e <> 1 ->
   let e1 := exec (set_volume 1.5) e in
   volume e1 = 1 /\
   dispatched e1 = dispatched e ++ [PreciseAudioEvent Ev.volumechange] /\
   exec (set_volume 1) e1 = e1).
Proof.
  intros e e'.
  pose proof (volume_not_neg_zero_run s0 acts) as Hz. fold e in Hz.
  assert (forall w,
    (Math_max 0 (Math_min 1 w) =? volume e) = false /\
    volume (exec (set_volume w) e) = Math_max 0 (Math_min 1 w) /\
    dispatched (exec (set_volume w) e)
      = dispatched e ++ [PreciseAudioEvent Ev.volumechange]
    \/
    (Math_max 0 (Math_min 1 w) =? volume e) = true /\
    volume e = Math_max 0 (Math_min 1 w) /\
    exec (set_volume w) e = e) as Hset.
  { intros w. unfold set_volume. monad_unfold. cbn [fst snd].
    change (strict_eq ?a ?b) with (a =? b).
    destruct (_ =? volume e) eqn:Hq; cbn [negb]; [right|left].
    - split; [reflexivity|]. split; [|reflexivity]. symmetry.
      apply float_eqb_eq;
        [exact Hq | apply volume_clamp_not_neg_zero | exact Hz].
    - repeat split. }
  assert (volume e' = Math_max 0 (Math_min 1 v)) as Hstored.
  { destruct (Hset v) as [(_ & Hv & _)|(_ & Hv & He)]; [exact Hv|].
    subst e'. rewrite He. exact Hv. }
  split; [exact Hstored|]. split; [|split].
  - intros Hn. rewrite Hstored.
    destruct (volume_clamp_cases v) as [[_ ->]|[Hn' _]];
      [reflexivity|congruence].
  - intros Hn. rewrite Hstored.
    assert (is_nan (Math_max 0 (Math_min 1 v)) = false /\
            (Math_max 0 (Math_min 1 v) =? clamp v 0 1) = true /\
            (0 <=? Math_max 0 (Math_min 1 v)) = true /\
            (Math_max 0 (Math_min 1 v) <=? 1) = true) as (Hn' & Hc & Hlo & Hhi).
    { unfold clamp.
      destruct (volume_clamp_cases v)
        as [[Hn' _]|[_ [(H1 & ->)|[(H1 & H0 & ->)|[(H1 & H0 & H0' & ->)
                                                  |(H1 & H0 & H0' & ->)]]]]];
        [congruence| | | |]; rewrite H1.
      - repeat split.
      - rewrite (float_ltb_asym _ _ H0).
        split; [exact Hn|]. split; [apply float_eqb_refl, Hn|].
        split; [apply float_ltb_leb, H0|].
        destruct (v <? 1) eqn:Hv1; [apply float_ltb_leb, Hv1|].
        apply float_not_ltb_leb; [exact Hn|reflexivity|exact Hv1|exact H1].
      - rewrite H0'. repeat split.
      - rewrite H0'. split; [reflexivity|].
        split; [|split; reflexivity].
        apply float_not_ltb_eqb; [reflexivity|exact Hn|exact H0|exact H0']. }
    split; [exact Hc|]. split; [exact Hlo|]. split; [exact Hhi|].
    destruct (Hset v) as [(Hq & Hv & Hd)|(_ & _ & He)]; [left|right; exact He].
    split; [exact Hd|].
    intros Heq. rewrite <- Heq in Hq.
    rewrite (float_eqb_refl _ Hn') in Hq. discriminate.
  - intros Hne e1.
    destruct (Hset 1.5) as [(Hq & Hv & Hd)|(Hq & Hv & _)].
    + fold e1 in Hv, Hd. change (Math_max 0 (Math_min 1 1.5)) with 1 in Hv.
      split; [exact Hv|]. split; [exact Hd|].
      unfold set_volume. monad_unfold. cbn [fst snd]. rewrite Hv.
      reflexivity.
    + exfalso. apply Hne. exact Hv.
Qed.

End Binary64Facts.

(* ================================================================== *)
(** * Properties of [updateStartTimeForSelectedEvents] *)

Section CueFileFacts.
Context {K St V : Type}.

Local Abbreviation CueFile := (CueFile K St V).
Local Abbreviation CueFileLayer := (CueFileLayer K St V).
Local Abbreviation CueFileEvent := (CueFileEvent V).

Lemma buildUpSelectionSet_fold (es : list SelectedEvent)
    (m : gmap nat (gset nat)) (l i : nat) :
  in_selection_set
    (fold_left
       (fun selectedEvents e =>
          match selectedEvents !! layer e with
          | Some layerSet =>
              <[layer e := layerSet ∪ {[index e]}]> selectedEvents
          | None => <[layer e := {[index e]}]> selectedEvents
          end) es m) l i
  <-> in_selection_set m l i \/ {| layer := l; index := i |} ∈ es.
Proof.
  revert m. induction es as [|[l0 i0] es IH]; intros m; cbn.
  - rewrite elem_of_nil. tauto.
  - rewrite IH, elem_of_cons. clear IH.
    assert (in_selection_set
              match m !! l0 with
              | Some layerSet => <[l0 := layerSet ∪ {[i0]}]> m
              | None => <[l0 := {[i0]}]> m
              end l i
            <-> in_selection_set m l i \/ (l = l0 /\ i = i0)) as ->.
    { unfold in_selection_set.
      destruct (decide (l = l0)) as [->|Hne].
      - destruct (m !! l0) as [S0|] eqn:Hm; rewrite lookup_insert_eq.
        + split.
          * intros (S' & [= <-] & Hi). apply elem_of_union in Hi as [Hi|Hi].
            -- left. eauto.
            -- right. apply elem_of_singleton in Hi. auto.
          * intros [(S' & [= <-] & Hi)|[_ ->]]; eexists; split; eauto;
              set_solver.
        + split.
          * intros (S' & [= <-] & Hi). apply elem_of_singleton in Hi. auto.
          * intros [(S' & [=] & _)|[_ ->]]. eexists; split; eauto. set_solver.
      - assert (forall x, <[l0 := x]> m !! l = m !! l) as Hl
          by (intros x; apply lookup_insert_ne; congruence).
        destruct (m !! l0); rewrite Hl; intuition congruence. }
    split.
    + intros [[?|[-> ->]]|?]; auto.
    + intros [?|[[= -> ->]|?]]; auto.
Qed.

(** The lookup structure holds exactly the selected events. *)
Lemma buildUpSelectionSet_spec (selection : Selection) (l i : nat) :
  in_selection_set (buildUpSelectionSet selection) l i
  <-> selects selection l i.
Proof.
  unfold buildUpSelectionSet, selects. rewrite buildUpSelectionSet_fold.
  unfold in_selection_set. split; [|auto].
  intros [(S0 & Hm & _)|?]; [|done]. rewrite lookup_empty in Hm. discriminate.
Qed.

(** [modifyEvents] applies [f] to the selected events and to no other; it
    keeps the length of the file, the number of layers and of events, the
    kinds and the settings. *)
Lemma modifyEvents_spec (cueFile : CueFile) (selection : Selection)
    (f : CueFileEvent -> CueFileLayer -> CueFileEvent) :
  let file' := modifyEvents cueFile selection f in
  lengthMillis file' = lengthMillis cueFile /\
  length (layers file') = length (layers cueFile) /\
  forall l layer0, layers cueFile !! l = Some layer0 ->
    exists layer1, layers file' !! l = Some layer1 /\
      kind layer1 = kind layer0 /\ settings layer1 = settings layer0 /\
      length (layer_events layer1) = length (layer_events layer0) /\
      forall i ev, layer_events layer0 !! i = Some ev ->
        (selects selection l i ->
           layer_events layer1 !! i = Some (f ev layer0)) /\
        (~ selects selection l i -> layer_events layer1 !! i = Some ev).
Proof.
  cbn. split; [reflexivity|]. split; [apply length_imap|].
  intros l layer0 Hl. rewrite list_lookup_imap, Hl. cbn.
  eexists. split; [reflexivity|].
  destruct (buildUpSelectionSet selection !! l) as [layerSet|] eqn:Hset.
  - cbn. repeat split; [apply length_imap| |].
    + intros Hsel. rewrite list_lookup_imap, H. cbn.
      apply buildUpSelectionSet_spec in Hsel as (S' & HS' & Hi).
      rewrite Hset in HS'. simplify_eq. rewrite decide_True by done. done.
    + intros Hsel. rewrite list_lookup_imap, H. cbn.
      rewrite decide_False; [done|]. intros Hi. apply Hsel.
      apply buildUpSelectionSet_spec. exists layerSet. done.
  - repeat split; [|done].
    intros Hsel. apply buildUpSelectionSet_spec in Hsel as (S' & HS' & _).
    rewrite Hset in HS'. discriminate.
Qed.

Local Open Scope float_scope.

(** The guard [shift < 0.1 && shift > 0.1] is false of every number. *)
Lemma small_shift_false (shift : float) : small_shift shift = false.
Proof.
  unfold small_shift, num_gt.
  change (@num_lt float float_JSNumber) with PrimFloat.ltb.
  destruct (shift <? lit_0_1) eqn:Hlt; [|reflexivity].
  apply float_ltb_asym in Hlt. rewrite Hlt. reflexivity.
Qed.

(** ** The earliest start of a selection *)

Lemma fold_left_min_nan (l : list float) : fold_left float_min l nan = nan.
Proof. induction l as [|x l IH]; [reflexivity|exact IH]. Qed.

Lemma fold_left_min_spec (l : list float) (a : float) :
  is_nan a = false -> Forall (fun x => is_nan x = false) l ->
  let m := fold_left float_min l a in
  (m = a \/ m ∈ l) /\ (m <=? a) = true /\
  forall x, x ∈ l -> (m <=? x) = true.
Proof.
  revert a. induction l as [|x l IH]; intros a Ha Hl; cbn.
  - split; [by left|]. split; [by apply float_leb_refl|].
    intros x Hx. by apply elem_of_nil in Hx.
  - apply Forall_cons in Hl as [Hx Hl].
    destruct (float_min_spec a x Ha Hx) as (Hor & Hma & Hmx).
    destruct (IH (float_min a x)) as (Hor' & Hle & Hall); [|exact Hl|].
    { by destruct Hor as [-> | ->]. }
    split; [|split].
    + destruct Hor' as [Hm|Hm]; [|right; by apply elem_of_cons; right].
      rewrite Hm. destruct Hor as [->| ->]; [by left|right].
      apply elem_of_cons. by left.
    + eapply float_leb_trans; eassumption.
    + intros y Hy. apply elem_of_cons in Hy as [->|Hy]; [|by apply Hall].
      eapply float_leb_trans; eassumption.
Qed.

(** [Math.min.apply(null, l)] of numbers is the least of them: one of
    them, and not above any. *)
Lemma Math_min_apply_least (l : list float) :
  l <> [] -> Forall (fun x => is_nan x = false) l ->
  Math_min_apply l ∈ l /\
  forall x, x ∈ l -> (Math_min_apply l <=? x) = true.
Proof.
  intros Hne Hl. destruct l as [|x l]; [done|]. clear Hne.
  pose proof Hl as Hl'. apply Forall_cons in Hl' as [Hx Hl'].
  unfold Math_min_apply. cbn. rewrite (float_min_infinity x Hx).
  destruct (fold_left_min_spec l x Hx Hl') as (Hor & Hle & Hall).
  split.
  - apply elem_of_cons. destruct Hor; [by left|by right].
  - intros y Hy. apply elem_of_cons in Hy as [->|Hy]; [done|by apply Hall].
Qed.

(** It is NaN as soon as one of the numbers is. *)
Lemma Math_min_apply_nan (l : list float) :
  Exists (fun x => is_nan x = true) l -> Math_min_apply l = nan.
Proof.
  unfold Math_min_apply. generalize infinity.
  induction l as [|x l IH]; intros a Hex; cbn.
  - by apply Exists_nil in Hex.
  - apply Exists_cons in Hex as [Hx|Hex]; [|by apply IH].
    rewrite (float_min_nan_r a x Hx). apply fold_left_min_nan.
Qed.

(** The events a selection names, when all of them exist. *)
Lemma selected_events_exist (cueFile : CueFile) (selection : Selection) :
  (forall e, e ∈ events selection -> is_Some (selected_event cueFile e)) ->
  exists evs,
    mapM (selected_event cueFile) (events selection) = Some evs /\
    (forall ev, ev ∈ evs <->
       exists e, e ∈ events selection /\ selected_event cueFile e = Some ev).
Proof.
  intros Hall.
  destruct (mapM (selected_event cueFile) (events selection)) as [evs|] eqn:Hm.
  - exists evs. split; [reflexivity|]. apply mapM_Some in Hm.
    intros ev. split.
    + intros Hev. apply list_elem_of_lookup in Hev as [i Hi].
      destruct (Forall2_lookup_r _ _ _ _ _ Hm Hi) as (e & He & Hsel).
      exists e. split; [by eapply list_elem_of_lookup_2|exact Hsel].
    + intros (e & He & Hsel). apply list_elem_of_lookup in He as [i Hi].
      destruct (Forall2_lookup_l _ _ _ _ _ Hm Hi) as (ev' & Hev' & Hsel').
      rewrite Hsel in Hsel'. simplify_eq. by eapply list_elem_of_lookup_2.
  - exfalso. apply mapM_None in Hm.
    apply Exists_exists in Hm as (e & He & Hnone).
    destruct (Hall e He) as [ev Hev]. congruence.
Qed.

(** C9.  No number satisfies the guard of the second early return.  For
    a selection that is not empty and lists events of the file, let
    [start] be the number the function computes as the earliest start.
    When no selected timestamp is NaN, [start] is the timestamp of a
    selected event and no selected event has a smaller one; it is NaN as
    soon as a selected timestamp is.  When the new start time (raised to 0
    if negative) is [start], the file is returned as it is; when it is
    not, however small the difference, the function returns the file with
    the timestamp of every selected event moved by the difference, and
    everything else as it was. *)
Theorem updateStartTime_shifts_selection
    (cueFile : CueFile) (selection : Selection) (newStartTime : float) :
  events selection <> [] ->
  (forall e, e ∈ events selection -> is_Some (selected_event cueFile e)) ->
  let newStartTime' := Math_max 0 newStartTime in
  (forall shift, small_shift shift = false) /\
  exists start,
    ((forall e ev, e ∈ events selection ->
        selected_event cueFile e = Some ev ->
        is_nan (timestampMillis ev) = false) ->
     (exists e ev, e ∈ events selection /\
        selected_event cueFile e = Some ev /\ timestampMillis ev = start) /\
     (forall e ev, e ∈ events selection ->
        selected_event cueFile e = Some ev ->
        (start <=? timestampMillis ev) = true)) /\
    ((exists e ev, e ∈ events selection /\
        selected_event cueFile e = Some ev /\
        is_nan (timestampMillis ev) = true) -> start = nan) /\
    ((start =? newStartTime') = true ->
     updateStartTimeForSelectedEvents cueFile selection newStartTime
       = Some cueFile) /\
    ((start =? newStartTime') = false ->
     exists file',
       updateStartTimeForSelectedEvents cueFile selection newStartTime
         = Some file' /\
       lengthMillis file' = lengthMillis cueFile /\
       length (layers file') = length (layers cueFile) /\
       forall l layer0, layers cueFile !! l = Some layer0 ->
         exists layer1, layers file' !! l = Some layer1 /\
           kind layer1 = kind layer0 /\ settings layer1 = settings layer0 /\
           length (layer_events layer1) = length (layer_events layer0) /\
           forall i ev, layer_events layer0 !! i = Some ev ->
             (selects selection l i ->
                layer_events layer1 !! i
                = Some {| timestampMillis :=
                            timestampMillis ev + (newStartTime' - start);
                          states := states ev |}) /\
             (~ selects selection l i -> layer_events layer1 !! i = Some ev)).
Proof.
  intros Hne Hall newStartTime'.
  split; [exact small_shift_false|].
  destruct (selected_events_exist cueFile selection Hall) as (evs & Hevs & Hin).
  assert (evs <> []) as Hevs_ne.
  { intros ->. apply mapM_Some, Forall2_length in Hevs.
    destruct (events selection); [done|discriminate]. }
  exists (Math_min_apply (map timestampMillis evs)).
  assert (
    updateStartTimeForSelectedEvents cueFile selection newStartTime
    = if Math_min_apply (map timestampMillis evs) =? newStartTime'
      then Some cueFile
      else Some (modifyEvents cueFile selection
                   (fun e _ =>
                      shiftEvent
                        (newStartTime'
                         - Math_min_apply (map timestampMillis evs)) e)))
    as Hrun.
  { unfold updateStartTimeForSelectedEvents.
    rewrite decide_False by (destruct (events selection); [done|discriminate]).
    rewrite Hevs. cbn [mbind option_bind]. cbv zeta.
    change (@strict_eq float float_JSNumber) with PrimFloat.eqb.
    fold newStartTime'. rewrite small_shift_false. reflexivity. }
  split; [|split; [|split]].
  - intros Hnan.
    destruct (Math_min_apply_least (map timestampMillis evs)) as [Hmin Hle].
    { by destruct evs. }
    { apply Forall_forall. intros x Hx. apply list_elem_of_In in Hx.
      apply in_map_iff in Hx as (ev & <- & Hev).
      apply list_elem_of_In in Hev.
      apply Hin in Hev as (e & He & Hsel). by eapply Hnan. }
    split.
    + apply list_elem_of_In, in_map_iff in Hmin as (ev & Hts & Hev).
      apply list_elem_of_In, Hin in Hev as (e & He & Hsel). by exists e, ev.
    + intros e ev He Hsel. apply Hle.
      apply list_elem_of_In, in_map_iff. exists ev. split; [done|].
      apply list_elem_of_In, Hin. by exists e.
  - intros (e & ev & He & Hsel & Hnan). apply Math_min_apply_nan.
    apply Exists_exists. exists (timestampMillis ev). split; [|exact Hnan].
    apply list_elem_of_In, in_map_iff. exists ev. split; [done|].
    apply list_elem_of_In, Hin. by exists e.
  - intros Heq. rewrite Hrun, Heq. reflexivity.
  - intros Hdiff. rewrite Hrun, Hdiff.
    eexists. split; [reflexivity|].
    apply (modifyEvents_spec cueFile selection).
Qed.

End CueFileFacts.

(* ================================================================== *)
(** * Instances and counterexamples *)

Section Instances.

Lemma currentTimeMillis_spec_witness :
  current_data demo_playing
    = Some {| buffer := demo_buffer;
              state := {| state_id := 2;
                          state_value := Playing 0 false 0%float |} |} /\
  exec currentTimeMillis demo_playing = demo_playing /\
  eval currentTimeMillis demo_playing = 500%float.
Proof.
  split; [vm_compute; reflexivity|].
  exact (currentTimeMillis_spec demo_playing
           {| buffer := demo_buffer;
              state := {| state_id := 2;
                          state_value := Playing 0 false 0%float |} |}
           eq_refl).
Defined.

Lemma superseded_load_discarded_witness :
  let e1 := run [call_loadAudioFile 7] (constructor running) in
  let e2 := run [] (exec (step (call_loadAudioFile 8)) e1) in
  let e3 := exec (settle 0 (decoded demo_buffer)) e2 in
  track e1 = Some {| track_id := 0; source := source_file 7; data := None |} /\
  pending e2 !! 0
    = Some {| load_track := 0; load_origin := from_loadAudioFile |} /\
  track e3 = track e2 /\ dispatched e3 = dispatched e2 ++ [].
Proof.
  split; [reflexivity|]. split; [reflexivity|].
  exact (proj1
           (superseded_load_discarded running [call_loadAudioFile 7] []
              (call_loadAudioFile 8)
              {| track_id := 0; source := source_file 7; data := None |}
              0 {| load_track := 0; load_origin := from_loadAudioFile |}
              (decoded demo_buffer) eq_refl eq_refl eq_refl)
           eq_refl).
Defined.

(** C2 fails for a load that fails: superseded by a second call of
    [loadAudioFile], the first load still dispatches an [error] event
    when it fails; and so does a superseded load of the [src] setter. *)
Lemma superseded_load_error_counterexample :
  let e2 := run [call_loadAudioFile 7; call_loadAudioFile 8] demo_fresh in
  let e3 := exec (settle 0 (failed "decoding failed"%string)) e2 in
  pending e2 !! 0
    = Some {| load_track := 0; load_origin := from_loadAudioFile |} /\
  track e2 = Some {| track_id := 1; source := source_file 8; data := None |} /\
  dispatched e2 = [] /\
  dispatched e3 = [ErrorEvent "decoding failed"%string] /\
  let e2' :=
    run [assign_src "a.mp3"%string; assign_src "b.mp3"%string] demo_fresh in
  pending e2' !! 0 = Some {| load_track := 0; load_origin := from_src |} /\
  track e2'
    = Some {| track_id := 1; source := source_src "b.mp3"%string;
              data := None |} /\
  dispatched (exec (settle 0 (failed "fetch failed"%string)) e2')
    = [ErrorEvent "fetch failed"%string].
Proof. repeat split. Defined.

Lemma ended_once_unless_stopped_witness :
  let e := run [call_loadAudioFile 7; host_settle 0 (decoded demo_buffer);
                call_play; host_clock 0.5%float] (constructor running) in
  current_state e
    = Some {| state_id := 2; state_value := Playing 0 false 0%float |} /\
  dispatched (exec (deliver_ended 0) e)
    = dispatched e ++ [PreciseAudioEvent Ev.ended] /\
  dispatched (exec (deliver_ended 0) (exec pause e))
    = dispatched (exec pause e).
Proof.
  split; [vm_compute; reflexivity|].
  pose proof (ended_once_unless_stopped running
                [call_loadAudioFile 7; host_settle 0 (decoded demo_buffer);
                 call_play; host_clock 0.5%float] 2 0 false 0%float eq_refl)
    as [(Hended & _) Hstop].
  split; [exact Hended|].
  exact (proj1 (Hstop call_pause eq_refl)).
Defined.

Lemma set_currentTime_paused_witness :
  current_data demo_loaded
    = Some {| buffer := demo_buffer;
              state := {| state_id := 1; state_value := Paused 0%float |} |} /\
  eval currentTimeMillis (exec (set_currentTime 2.5%float) demo_loaded) = 2500%float /\
  ctx_nodes (context (exec (set_currentTime 2.5%float) demo_loaded)) = [] /\
  dispatched (exec (set_currentTime 2.5%float) demo_loaded)
    = dispatched demo_loaded ++ [PreciseAudioEvent Ev.timeupdate;
                                 PreciseAudioEvent Ev.seeked].
Proof.
  split; [vm_compute; reflexivity|].
  pose proof (set_currentTime_paused demo_loaded
                {| buffer := demo_buffer;
                   state := {| state_id := 1; state_value := Paused 0%float |} |}
                1 0%float 2.5%float eq_refl eq_refl)
    as (_ & Hpos & Hnodes & Hevents).
  split; [exact Hpos|]. split; [exact Hnodes|exact Hevents].
Defined.

Lemma getters_without_data_witness :
  current_data demo_loading = None /\
  eval currentTimeMillis demo_loading = 0%float /\
  eval get_currentTime demo_loading = 0%float /\
  eval duration demo_loading = 0%float /\
  eval durationMillis demo_loading = 0%float /\
  eval paused demo_loading = true.
Proof.
  split; [reflexivity|]. exact (getters_without_data demo_loading eq_refl).
Defined.

Lemma volume_setter_witness :
  let e := run [assign_volume 0.5%float] (constructor running) in
  volume e <> 1%float /\
  volume (exec (set_volume 1.5%float) e) = 1%float /\
  dispatched (exec (set_volume 1.5%float) e)
    = dispatched e ++ [PreciseAudioEvent Ev.volumechange] /\
  exec (set_volume 1%float) (exec (set_volume 1.5%float) e) = exec (set_volume 1.5%float) e.
Proof.
  assert (volume (run [assign_volume 0.5%float] (constructor running)) <> 1%float) as Hne.
  { intros Heq. apply (f_equal (fun x => PrimFloat.eqb x 1%float)) in Heq.
    vm_compute in Heq. discriminate. }
  split; [exact Hne|].
  exact (proj2 (proj2 (proj2
           (volume_setter running [assign_volume 0.5%float] 1.5%float))) Hne).
Defined.

Lemma updateStartTime_shifts_selection_witness :
  events demo_selection_both <> [] /\
  (forall e, e ∈ events demo_selection_both ->
     is_Some (selected_event demo_cueFile e)) /\
  exists start file' layer1,
    start = 10%float /\
    updateStartTimeForSelectedEvents demo_cueFile demo_selection_both 5%float
      = Some file' /\
    layers file' !! 0 = Some layer1 /\
    layer_events layer1 !! 0
      = Some {| timestampMillis := 5%float; states := [] |} /\
    layer_events layer1 !! 1
      = Some {| timestampMillis := 15%float; states := [] |}.
Proof.
  assert (events demo_selection_both <> []) as Hne by discriminate.
  assert (forall e, e ∈ events demo_selection_both ->
            is_Some (selected_event demo_cueFile e)) as Hall.
  { intros e He. cbn in He. rewrite !elem_of_cons, elem_of_nil in He.
    destruct He as [->|[->|[]]]; eexists; reflexivity. }
  split; [exact Hne|]. split; [exact Hall|].
  destruct (updateStartTime_shifts_selection demo_cueFile demo_selection_both
              5%float Hne Hall)
    as (_ & start & Hleast & _ & _ & Hshift).
  assert (start = 10%float) as ->.
  { destruct Hleast as [(e & ev & He & Hev & <-) Hle].
    { intros e ev He. cbn in He. rewrite !elem_of_cons, elem_of_nil in He.
      destruct He as [->|[->|[]]]; intros [= <-]; reflexivity. }
    cbn in He. rewrite !elem_of_cons, elem_of_nil in He.
    destruct He as [->|[->|[]]]; injection Hev as <-; [|reflexivity].
    specialize (Hle {| layer := 0; index := 0 |}
                  {| timestampMillis := 10%float; states := [] |}).
    cbn in Hle. rewrite !elem_of_cons in Hle.
    discriminate Hle; [right; left; reflexivity|reflexivity]. }
  destruct (Hshift eq_refl) as (file' & Hfile & _ & _ & Hlayers).
  destruct (Hlayers 0 _ eq_refl) as (layer1 & Hl1 & _ & _ & _ & Hevents).
  exists 10%float, file', layer1.
  split; [reflexivity|]. split; [exact Hfile|]. split; [exact Hl1|].
  split.
  - refine (proj1 (Hevents 0 _ eq_refl) _).
    unfold selects. cbn. rewrite !elem_of_cons. right. left. reflexivity.
  - refine (proj1 (Hevents 1 _ eq_refl) _).
    unfold selects. cbn. rewrite !elem_of_cons. left. reflexivity.
Defined.



Lemma load_failure_reported_witness :
  pending demo_loading !! 0
    = Some {| load_track := 0; load_origin := from_loadAudioFile |} /\
  dispatched (exec (settle 0 (failed "decoding failed"%string)) demo_loading)
    = dispatched demo_loading ++ [ErrorEvent "decoding failed"%string] /\
  track (exec (settle 0 (failed "decoding failed"%string)) demo_loading)
    = track demo_loading.
Proof.
  split; [reflexivity|].
  pose proof (load_failure_reported demo_loading 0
                {| load_track := 0; load_origin := from_loadAudioFile |}
                "decoding failed"%string eq_refl)
    as (Hevents & Htrack & _).
  split; [exact Hevents|exact Htrack].
Defined.

(** C7 fails for [loadAudioFile]: when the load fails, the promise it
    returned is rejected with the error, after the [error] event. *)
Lemma loadAudioFile_rejects_counterexample :
  eval (settle 0 (failed "decoding failed"%string)) demo_loading
    = Some (rejected "decoding failed"%string) /\
  dispatched (exec (settle 0 (failed "decoding failed"%string)) demo_loading)
    = [ErrorEvent "decoding failed"%string].
Proof. split; reflexivity. Defined.

(** C8 fails on a fresh player, whose volume is 1 already: assigning 1.5
    dispatches nothing.  And NaN differs from itself: assigning NaN twice
    dispatches [volumechange] twice, the stored value being NaN both
    times. *)
Lemma volume_counterexample :
  volume demo_fresh = 1%float /\
  dispatched (exec (set_volume 1.5%float) demo_fresh) = [] /\
  let e := exec (set_volume nan) demo_fresh in
  volume e = nan /\
  volume (exec (set_volume nan) e) = volume e /\
  dispatched (exec (set_volume nan) e)
    = dispatched e ++ [PreciseAudioEvent Ev.volumechange].
Proof. repeat split. Defined.

End Instances.

(* ================================================================== *)
(** * Further properties of the player *)

Section PlayerContracts.
Context {num : Type} `{JSNumber num}.

Local Abbreviation PreciseAudio := (PreciseAudio num).

(** ** The gain *)

Lemma gain_step (a : Action num) (e : PreciseAudio) :
  gain e = (if muted e then lit_0 else volume e) ->
  gain (exec (step a) e)
  = (if muted (exec (step a) e) then lit_0 else volume (exec (step a) e)).
Proof.
  intros Hg.
  step_cases a e ltac:(cbn in Hg; exec_step; first [exact Hg | reflexivity]).
Qed.

(** X1.  In every state a player reaches, the gain of its gain node is 0
    when the player is muted and the stored volume otherwise. *)
Theorem gain_follows_volume
    (s0 : AudioContextState) (acts : list (Action num)) :
  let e := run acts (constructor s0) in
  gain e = if muted e then lit_0 else volume e.
Proof.
  cbv zeta. induction acts as [|a acts IH] using rev_ind; [reflexivity|].
  rewrite run_snoc. apply gain_step, IH.
Qed.

(** ** [pause()] and [play()] *)

(** X2.  In any state, [pause()] leaves the player paused at the position
    [currentTimeMillis] had just before; it dispatches [pause] when the
    player was playing and nothing otherwise; and a second [pause()]
    changes nothing. *)
Theorem pause_keeps_position (e : PreciseAudio) :
  let e' := exec pause e in
  eval currentTimeMillis e' = eval currentTimeMillis e /\
  eval paused e' = true /\
  dispatched e'
  = dispatched e
    ++ (if eval paused e then [] else [PreciseAudioEvent Ev.pause]) /\
  exec pause e' = e'.
Proof.
  cbv zeta. destruct_player e. destruct_track tr.
  all: unfold currentTimeMillis, paused, current_state, current_data.
  all: repeat split; exec_step; rewrite ?app_nil_r; try reflexivity.
  all: destruct cs; reflexivity.
Qed.

(** X3.  In any state, after [play()] the player is playing exactly when
    a track is loaded; [play] is dispatched when a loaded track was
    paused and nothing otherwise; and a second [play()] changes nothing:
    no second source, no second event. *)
Theorem play_once (e : PreciseAudio) :
  let e' := exec play e in
  eval paused e'
  = match current_data e with Some _ => false | None => true end /\
  dispatched e'
  = dispatched e
    ++ (if eval paused e && bool_decide (is_Some (current_data e))
        then [PreciseAudioEvent Ev.play] else []) /\
  exec play e' = e'.
Proof.
  cbv zeta. destruct_player e. destruct_track tr.
  all: unfold currentTimeMillis, paused, current_state, current_data.
  all: repeat split; exec_step; rewrite ?app_nil_r; try reflexivity.
  all: destruct cs; reflexivity.
Qed.

(** ** Loading *)

(** X4.  When the decoded buffer of a load arrives while the track the
    load was started for is still the current one, the track gets the
    buffer and a new state, paused at 0; [loadeddata], [canplay],
    [canplaythrough] and [timeupdate] are dispatched, in this order; the
    promise is fulfilled; and the player is paused, at position 0, with
    the duration of the buffer. *)
Theorem load_completes
    (e : PreciseAudio) (i : nat) (p : PendingLoad) (t : Track num)
    (buf : AudioBuffer num) :
  pending e !! i = Some p -> track e = Some t -> track_id t = load_track p ->
  let e' := exec (settle i (decoded buf)) e in
  track e'
  = Some {| track_id := track_id t; source := source t;
            data := Some {| buffer := buf;
                            state := {| state_id := next_id e;
                                        state_value := Paused lit_0 |} |} |} /\
  dispatched e'
  = dispatched e ++ [PreciseAudioEvent Ev.loadeddata;
                     PreciseAudioEvent Ev.canplay;
                     PreciseAudioEvent Ev.canplaythrough;
                     PreciseAudioEvent Ev.timeupdate] /\
  pending e' = delete i (pending e) /\
  eval (settle i (decoded buf)) e = Some fulfilled /\
  eval paused e' = true /\
  eval currentTimeMillis e' = lit_0 /\
  eval duration e' = buffer_duration buf.
Proof.
  intros Hp Ht Hid. cbv zeta. destruct_player e. cbn in Hp, Ht. subst tr.
  destruct t as [tid src dt]. cbn in Hid. subst tid.
  unfold settle. monad_unfold. cbn. rewrite Hp. cbn.
  destruct p as [id o]. cbn.
  unfold loadAudioFile_settle, set_src_settle, paused, currentTimeMillis,
    duration, current_state, current_data.
  destruct o; repeat split; exec_step; rewrite <- ?app_assoc; reflexivity.
Qed.

(** X5.  The [src] getter returns what was last assigned to [src]: right
    after the assignment (the empty string included), and after any
    action that is not a load, whether the load has completed, failed or
    is still in flight; after [loadAudioFile] it returns the empty
    string. *)
Theorem src_round_trip (e : PreciseAudio) :
  (forall src, eval get_src (exec (set_src src) e) = src) /\
  (forall file, eval get_src (exec (loadAudioFile file) e) = EmptyString) /\
  (forall a, is_load a = false ->
     eval get_src (exec (step a) e) = eval get_src e).
Proof.
  split; [|split].
  - intros src. destruct_player e. unfold set_src, get_src. monad_unfold.
    destruct (String.eqb_spec src EmptyString) as [->|Hne];
      destruct_track tr; exec_step; reflexivity.
  - intros file. destruct_player e. unfold get_src.
    destruct_track tr; exec_step; reflexivity.
  - intros a Ha. unfold get_src.
    step_cases a e ltac:(try discriminate; exec_step; reflexivity).
Qed.

(** X6.  On a playing track, assigning [currentTime] stops the source
    and starts a new one at the position given, with the buffer of the
    track and the current configuration; the new playing state is
    anchored at [now - positionMillis / playbackRate]; [seeked] alone is
    dispatched, and the player keeps playing. *)
Theorem set_currentTime_playing
    (e : PreciseAudio) (d : TrackData num) (id source : nat) (sup : bool)
    (start s : num) :
  current_data e = Some d ->
  state d = {| state_id := id; state_value := Playing source sup start |} ->
  let e' := exec (set_currentTime s) e in
  let now := (ctx_currentTime (context e) * lit_1000)%js in
  let rate := _playbackRate e in
  current_state e'
  = Some {| state_id := next_id e;
            state_value :=
              Playing (length (ctx_nodes (context e))) false
                (now - s * lit_1000 / rate)%js |} /\
  ctx_nodes (context e')
  = alter set_node_stopped source (ctx_nodes (context e))
    ++ [{| node_playbackRate := rate;
           node_connection :=
             if (rate !== lit_1)%js && _adjustPitchWithPlaybackRate e
             then to_pitchShift (lit_1 / rate)%js else to_gainNode;
           node_buffer := buffer d;
           node_offset := (s * lit_1000 / lit_1000)%js;
           node_listener := next_id e;
           node_stopped := false; node_ended := false |}] /\
  dispatched e' = dispatched e ++ [PreciseAudioEvent Ev.seeked] /\
  eval paused e' = false.
Proof.
  intros Hd Hs. cbv zeta. destruct_player e.
  unfold current_data in Hd. cbn in Hd.
  destruct tr as [[tid src dt]|]; [|discriminate]. cbn in Hd. subst dt.
  destruct d as [b st]. cbn in Hs. subst st.
  unfold current_state, current_data, paused.
  repeat split; exec_step; rewrite ?length_alter; reflexivity.
Qed.

(** X7.  A call of [loadAudioFile] or an assignment to [src] dispatches
    no event before it returns ([pause] in particular), stops the source
    of a playing track and leaves the player without data: paused, at
    position 0.  The new track has a new identity and its load is in
    flight; assigning the empty string to [src] leaves no track and
    starts no load. *)
Theorem load_unloads (e : PreciseAudio) (a : Action num) :
  is_load a = true ->
  let e' := exec (step a) e in
  dispatched e' = dispatched e /\
  current_data e' = None /\
  eval paused e' = true /\
  eval currentTimeMillis e' = lit_0 /\
  ctx_nodes (context e')
  = match current_source e with
    | Some source => alter set_node_stopped source (ctx_nodes (context e))
    | None => ctx_nodes (context e)
    end /\
  match a with
  | call_loadAudioFile file =>
      track e'
      = Some {| track_id := next_id e; source := source_file file;
                data := None |} /\
      pending e'
      = pending e ++ [{| load_track := next_id e;
                         load_origin := from_loadAudioFile |}]
  | assign_src src =>
      if String.eqb src EmptyString
      then track e' = None /\ pending e' = pending e
      else
        track e'
        = Some {| track_id := next_id e; source := source_src src;
                  data := None |} /\
        pending e'
        = pending e ++ [{| load_track := next_id e;
                           load_origin := from_src |}]
  | _ => True
  end.
Proof.
  intros Ha. cbv zeta.
  unfold paused, currentTimeMillis, current_source, current_state,
    current_data.
  destruct a; try discriminate; cbn [step].
  - destruct_player e. destruct_track tr.
    all: repeat split; exec_step; reflexivity.
  - destruct_player e. unfold set_src. monad_unfold.
    destruct (String.eqb src EmptyString); destruct_track tr.
    all: repeat split; exec_step; reflexivity.
Qed.

(** A loaded track keeps its identity, its source and its buffer through
    every action that is not a load. *)
Lemma loaded_step (a : Action num) (e : PreciseAudio) (t : Track num)
    (d : TrackData num) :
  Inv e -> track e = Some t -> data t = Some d -> is_load a = false ->
  exists d',
    track (exec (step a) e)
    = Some {| track_id := track_id t; source := source t; data := Some d' |} /\
    buffer d' = buffer d.
Proof.
  intros I Ht Hd Ha.
  pose proof (inv_loaded _ I t d Ht Hd) as Hnot. revert Ht Hd Hnot.
  step_cases a e ltac:(
    try discriminate; cbn; intros Ht Hd Hnot; simplify_eq/=;
    try (exfalso; apply Hnot; apply list_elem_of_fmap; eexists;
         (split; [|eapply list_elem_of_lookup_2; eassumption]); reflexivity);
    exec_step; eexists; (split; [reflexivity|reflexivity])).
Qed.

(** X28.  In every state a player reaches, a loaded track stays loaded,
    with the same buffer and so the same duration, through every action
    that is not a call of [loadAudioFile] or an assignment to [src]: no
    result of a load in flight, decoded or failed, replaces or drops the
    data of the current track. *)
Theorem loaded_until_next_load
    (s0 : AudioContextState) (acts : list (Action num)) (a : Action num)
    (d : TrackData num) :
  let e := run acts (constructor s0) in
  current_data e = Some d -> is_load a = false ->
  exists d',
    current_data (exec (step a) e) = Some d' /\ buffer d' = buffer d /\
    eval duration (exec (step a) e) = eval duration e.
Proof.
  intros e Hd Ha. unfold current_data in Hd.
  destruct (track e) as [t|] eqn:Ht; [|discriminate].
  destruct (loaded_step a e t d (Inv_run acts _ (Inv_constructor s0))
              Ht Hd Ha) as (d' & Ht' & Hb).
  exists d'. unfold duration, current_data. monad_unfold. cbn.
  rewrite Ht', Ht. cbn. rewrite Hd, Hb. done.
Qed.

(** ** Time updates *)

Lemma frame_scheduled_step (a : Action num) (e : PreciseAudio) :
  frame_scheduled e -> frame_scheduled (exec (step a) e).
Proof.
  unfold frame_scheduled, current_source, current_state, current_data.
  intros [Ha Hb].
  step_cases a e ltac:(
    cbn in Ha, Hb; split; exec_step; intros; simplify_eq/=;
    first [ done | eauto | by apply Ha | by eapply Hb
          | exfalso; by eapply is_Some_None, Hb ]).
Qed.

Lemma frame_scheduled_run
    (s0 : AudioContextState) (acts : list (Action num)) :
  frame_scheduled (run acts (constructor s0)).
Proof.
  induction acts as [|a acts IH] using rev_ind.
  - split; cbn; intros; discriminate.
  - rewrite run_snoc. apply frame_scheduled_step, IH.
Qed.

(** X8.  In every state a player reaches, the animation frame callback
    the browser holds, if any, is the one whose handle is stored in
    [_animationFrameRequest].  While a track plays there is one, and
    when the browser runs it, [timeupdate] is dispatched, the play state
    stays as it is and a callback is requested again.  While no track
    plays, a callback left over dispatches one last [timeupdate] and none
    is requested again. *)
Theorem timeupdate_scheduled
    (s0 : AudioContextState) (acts : list (Action num)) :
  let e := run acts (constructor s0) in
  let e' := exec animationFrame e in
  (forall h, frame_requested e = Some h -> _animationFrameRequest e = Some h) /\
  (forall source, current_source e = Some source ->
     is_Some (frame_requested e) /\
     dispatched e' = dispatched e ++ [PreciseAudioEvent Ev.timeupdate] /\
     current_state e' = current_state e /\
     is_Some (frame_requested e')) /\
  (current_source e = None ->
     frame_requested e' = None /\
     dispatched e'
     = dispatched e
       ++ match frame_requested e with
          | Some _ => [PreciseAudioEvent Ev.timeupdate]
          | None => []
          end).
Proof.
  intros e e'. destruct (frame_scheduled_run s0 acts) as [Ha Hb].
  fold e in Ha, Hb. split; [exact Ha|]. subst e'. revert Ha Hb.
  generalize e. clear e. intros e Ha Hb.
  unfold current_source, current_state, current_data in *.
  split.
  - intros source Hs. specialize (Hb source Hs). split; [exact Hb|].
    destruct Hb as [h Hh]. destruct_player e. cbn in *. subst fr.
    destruct_track tr; simplify_eq/=.
    unfold animationFrame. monad_unfold. cbn.
    repeat split; exec_step; eauto.
  - intros Hs. destruct_player e. cbn in *.
    unfold animationFrame. monad_unfold. cbn.
    destruct fr; destruct_track tr; simplify_eq/=.
    all: repeat split; exec_step; rewrite ?app_nil_r; reflexivity.
Qed.

(** ** The audio pipeline *)

Lemma source_configured_step (a : Action num) (e : PreciseAudio) :
  source_configured e -> source_configured (exec (step a) e).
Proof.
  unfold source_configured, current_data. intros HJ.
  step_cases a e ltac:(
    cbn in HJ; exec_step; intros; simplify_eq/=;
    try (destruct (HJ _ _ _ _ _ eq_refl eq_refl)
           as (n0 & Hn0 & Hb0 & Hr0 & Hc0); cbn in Hb0);
    first
      [ eexists; split;
        [ apply list_lookup_middle; by rewrite ?length_alter
        | cbn; done ]
      | rewrite ?list_lookup_alter; repeat case_decide; subst;
        rewrite ?Hn0; cbn; eexists; (split; [reflexivity|cbn; done])
      | idtac ]).
Qed.

Lemma source_configured_run
    (s0 : AudioContextState) (acts : list (Action num)) :
  source_configured (run acts (constructor s0)).
Proof.
  induction acts as [|a acts IH] using rev_ind.
  - intros d id source sup start Hd. discriminate.
  - rewrite run_snoc. apply source_configured_step, IH.
Qed.

(** X9.  In every state a player reaches, the source of a playing track
    plays the buffer of the track at the current [_playbackRate], and is
    connected as the current configuration asks: to a pitch shifter
    (transposing by the ratio [1 / rate]) when the rate is not 1 and
    [_adjustPitchWithPlaybackRate] is set, straight to the gain node
    otherwise.  So a change of the rate or of the pitch setting never
    leaves a source of the old configuration playing. *)
Theorem source_follows_configuration
    (s0 : AudioContextState) (acts : list (Action num))
    (d : TrackData num) (id source : nat) (sup : bool) (start : num) :
  let e := run acts (constructor s0) in
  current_data e = Some d ->
  state d = {| state_id := id; state_value := Playing source sup start |} ->
  exists n, ctx_nodes (context e) !! source = Some n /\
    node_buffer n = buffer d /\
    node_playbackRate n = _playbackRate e /\
    node_connection n
    = if (_playbackRate e !== lit_1)%js && _adjustPitchWithPlaybackRate e
      then to_pitchShift (lit_1 / _playbackRate e)%js else to_gainNode.
Proof.
  intros e Hd Hs.
  exact (source_configured_run s0 acts d id source sup start Hd Hs).
Qed.

(** ** Events *)

(** X10.  In any state, an action appends to the events dispatched one of
    the lists [may_dispatch] gives for it, and dispatches nothing else:
    a load nothing; [play()] and [pause()] at most their own event; a
    seek [seeked], after [timeupdate] when paused; a change of rate
    [ratechange], after [pause] and [play] when playing; a decoded
    buffer [loadeddata], [canplay], [canplaythrough], [timeupdate]
    together or nothing; a failed load its [error]; the end of a source
    at most [ended]; an animation frame at most [timeupdate]. *)
Theorem events_of_action (a : Action num) (e : PreciseAudio) :
  exists evs,
    evs ∈ may_dispatch a /\
    dispatched (exec (step a) e) = dispatched e ++ evs.
Proof.
  step_cases a e ltac:(
    exec_step; eexists;
    (split;
     [|rewrite <- ?app_assoc; cbn [app];
       first [reflexivity | symmetry; apply app_nil_r]]);
    cbn [may_dispatch];
    try match goal with
        | |- _ ∈ match ?r with decoded _ => _ | failed _ => _ end =>
            destruct r
        end;
    set_solver).
Qed.

(** X29.  The stored volume, the mute flag, the playback rate and the
    pitch setting are changed by an assignment to the property of that
    name and by nothing else: not by a load or its result, a seek,
    [play()], [pause()], the end of a source or an animation frame. *)
Theorem settings_persist (a : Action num) (e : PreciseAudio) :
  let e' := exec (step a) e in
  (volume e' <> volume e -> exists v, a = assign_volume v) /\
  (muted e' <> muted e -> exists m, a = assign_muted m) /\
  (_playbackRate e' <> _playbackRate e ->
   exists r, a = assign_playbackRate r) /\
  (_adjustPitchWithPlaybackRate e' <> _adjustPitchWithPlaybackRate e ->
   exists b, a = assign_adjustPitchWithPlaybackRate b).
Proof.
  cbv zeta.
  step_cases a e ltac:(
    repeat split; exec_step; intros Hne; first [done | eauto]).
Qed.

(** ** Positions *)

(** X11.  [play()] on a track paused at [p] starts a source at the
    offset [p / 1000], configured as the rate and the pitch setting ask,
    dispatches [play], and anchors the playing state at
    [now - p / rate].  When the clock of the context then reads [t],
    [currentTimeMillis] is [(t * 1000 - (now - p / rate)) * rate],
    computed in the arithmetic of the numbers; and [pause()] then stores
    this very number. *)
Theorem position_advances
    (e : PreciseAudio) (d : TrackData num) (id : nat) (p : num) :
  current_data e = Some d ->
  state d = {| state_id := id; state_value := Paused p |} ->
  let e1 := exec play e in
  let now := (ctx_currentTime (context e) * lit_1000)%js in
  let rate := _playbackRate e in
  current_state e1
  = Some {| state_id := next_id e;
            state_value :=
              Playing (length (ctx_nodes (context e))) false
                      (now - p / rate)%js |} /\
  ctx_nodes (context e1)
  = ctx_nodes (context e)
    ++ [{| node_playbackRate := rate;
           node_connection :=
             connection_for rate (_adjustPitchWithPlaybackRate e);
           node_buffer := buffer d;
           node_offset := (p / lit_1000)%js;
           node_listener := next_id e;
           node_stopped := false; node_ended := false |}] /\
  dispatched e1 = dispatched e ++ [PreciseAudioEvent Ev.play] /\
  forall t,
    let e2 := exec (clock t) e1 in
    let position := ((t * lit_1000 - (now - p / rate)) * rate)%js in
    eval currentTimeMillis e2 = position /\
    current_state (exec pause e2)
    = Some {| state_id := S (next_id e); state_value := Paused position |} /\
    eval currentTimeMillis (exec pause e2) = position.
Proof.
  intros Hd Hs. cbv zeta. destruct_player e.
  unfold current_data in Hd. cbn in Hd.
  destruct tr as [[tid src dt]|]; [|discriminate]. cbn in Hd. subst dt.
  destruct d as [b st]. cbn in Hs. subst st.
  unfold current_state, current_data, currentTimeMillis.
  repeat split; try intros t; exec_step; reflexivity.
Qed.

(** X27.  Assigning [adjustPitchWithPlaybackRate] stores the setting and
    keeps the rate.  Off a playing track it does nothing else and
    dispatches nothing.  On a playing track, whether the setting changes
    or not, it dispatches [pause] and [play], stops the source and starts
    a new one, connected as the new setting asks, at the offset of the
    position [currentTimeMillis] had; the new playing state is anchored
    at [now - position / rate], and the player keeps playing. *)
Theorem pitch_setting_change (e : PreciseAudio) (adjust : bool) :
  let e' := exec (set_adjustPitchWithPlaybackRate adjust) e in
  let now := (ctx_currentTime (context e) * lit_1000)%js in
  let position := eval currentTimeMillis e in
  let rate := _playbackRate e in
  _adjustPitchWithPlaybackRate e' = adjust /\
  _playbackRate e' = rate /\
  (current_source e = None ->
   track e' = track e /\ context e' = context e /\
   dispatched e' = dispatched e) /\
  (forall d source, current_data e = Some d -> current_source e = Some source ->
   dispatched e'
   = dispatched e
     ++ [PreciseAudioEvent Ev.pause; PreciseAudioEvent Ev.play] /\
   ctx_nodes (context e')
   = alter set_node_stopped source (ctx_nodes (context e))
     ++ [{| node_playbackRate := rate;
            node_connection := connection_for rate adjust;
            node_buffer := buffer d;
            node_offset := (position / lit_1000)%js;
            node_listener := S (next_id e);
            node_stopped := false; node_ended := false |}] /\
   current_state e'
   = Some {| state_id := S (next_id e);
             state_value :=
               Playing (length (ctx_nodes (context e))) false
                       (now - position / rate)%js |} /\
   eval paused e' = false).
Proof.
  cbv zeta. destruct_player e.
  unfold current_source, current_state, current_data, currentTimeMillis,
    paused.
  destruct_track tr.
  all: split; [exec_step; reflexivity|].
  all: split; [exec_step; reflexivity|].
  all: split;
    [intros Hs; try discriminate; repeat split; exec_step; reflexivity|].
  all: intros d source Hd Hs; try discriminate. simplify_eq/=.
  repeat split; exec_step; rewrite ?length_alter, <- ?app_assoc; reflexivity.
Qed.

End PlayerContracts.

Section Binary64Positions.

Local Open Scope float_scope.

(** [0 / r] is [0] for a positive [r]. *)
Lemma float_zero_div_pos (r : float) : (0 <? r) = true -> 0 / r = 0.
Proof.
  intros Hr. rewrite <- (SF2Prim_Prim2SF (0 / r)), FloatAxioms.div_spec.
  rewrite FloatAxioms.ltb_spec in Hr. unfold SFltb in Hr.
  change (Prim2SF 0) with (S754_zero false) in *.
  destruct (Prim2SF r) as [[]|[]| |[] m e]; cbn in Hr; try discriminate;
    reflexivity.
Qed.

(** [x - 0] is [x]. *)
Lemma float_sub_zero (x : float) : x - 0 = x.
Proof.
  rewrite <- (SF2Prim_Prim2SF (x - 0)), FloatAxioms.sub_spec.
  change (Prim2SF 0) with (S754_zero false).
  rewrite <- (SF2Prim_Prim2SF x) at 2. f_equal.
  destruct (Prim2SF x) as [[]|[]| |[] m e]; reflexivity.
Qed.

Lemma float_is_finite_spec (x : float) :
  is_finite x = true ->
  match Prim2SF x with
  | S754_zero _ | S754_finite _ _ _ => True
  | _ => False
  end.
Proof.
  unfold is_finite, is_infinity. intros Hx.
  apply negb_true_iff, orb_false_iff in Hx as [Hn Hi].
  rewrite FloatAxioms.eqb_spec, FloatAxioms.abs_spec in Hi.
  change (Prim2SF infinity) with (S754_infinity false) in Hi.
  destruct (Prim2SF x) as [s|s| |s m e] eqn:Hsf; try exact I.
  - destruct s; discriminate.
  - apply float_is_nan_spec in Hsf. congruence.
Qed.

(** [x - x] is [0] for a finite [x]. *)
Lemma float_sub_diag (x : float) : is_finite x = true -> x - x = 0.
Proof.
  intros Hx. apply float_is_finite_spec in Hx.
  rewrite <- (SF2Prim_Prim2SF (x - x)), FloatAxioms.sub_spec.
  destruct (Prim2SF x) as [s|s| |s m e]; try done.
  - destruct s; reflexivity.
  - unfold SF64sub, SFsub. rewrite Z.min_id, Z.sub_diag. reflexivity.
Qed.

(** [0 * r] is [0] for a positive finite [r]. *)
Lemma float_zero_mul_pos (r : float) :
  (0 <? r) = true -> is_finite r = true -> 0 * r = 0.
Proof.
  intros Hr Hf. apply float_is_finite_spec in Hf.
  rewrite <- (SF2Prim_Prim2SF (0 * r)), FloatAxioms.mul_spec.
  rewrite FloatAxioms.ltb_spec in Hr. unfold SFltb in Hr.
  change (Prim2SF 0) with (S754_zero false) in *.
  destruct (Prim2SF r) as [[]|[]| |[] m e]; cbn in Hr; try discriminate;
    try done.
Qed.

(** X30.  On binary64 and at a positive rate, [play()] on a track paused
    at 0 (as after a load, or after the track has ended) anchors the
    playing state at the very reading of the clock: the division
    [0 / rate] and the subtraction round nothing.  So, when the clock
    then reads [t], [currentTimeMillis] is [(t * 1000 - now) * rate]; and
    right after [play()] it is 0, for a finite clock and rate. *)
Theorem play_from_start
    (e : PreciseAudio float) (d : TrackData float) (id : nat) :
  current_data e = Some d ->
  state d = {| state_id := id; state_value := Paused 0 |} ->
  (0 <? _playbackRate e) = true ->
  let e1 := exec play e in
  let now := ctx_currentTime (context e) * 1000 in
  current_state e1
  = Some {| state_id := next_id e;
            state_value :=
              Playing (length (ctx_nodes (context e))) false now |} /\
  (forall t,
     eval currentTimeMillis (exec (clock t) e1)
     = (t * 1000 - now) * _playbackRate e) /\
  (is_finite now = true -> is_finite (_playbackRate e) = true ->
   eval currentTimeMillis e1 = 0).
Proof.
  intros Hd Hs Hr. cbv zeta. destruct_player e.
  unfold current_data in Hd. cbn in Hd, Hr.
  destruct tr as [[tid src dt]|]; [|discriminate]. cbn in Hd. subst dt.
  destruct d as [b st]. cbn in Hs. subst st.
  unfold current_state, current_data, currentTimeMillis.
  split; [|split].
  - exec_step. rewrite (float_zero_div_pos pr Hr), float_sub_zero. reflexivity.
  - intros t. exec_step.
    rewrite (float_zero_div_pos pr Hr), float_sub_zero. reflexivity.
  - intros Hnow Hfin. cbn in Hnow, Hfin. exec_step.
    rewrite (float_zero_div_pos pr Hr), float_sub_zero.
    rewrite (float_sub_diag _ Hnow). exact (float_zero_mul_pos pr Hr Hfin).
Qed.

End Binary64Positions.

(* ================================================================== *)
(** * Properties of the other cue-file edits *)

(** Unfolding the computations that may throw. *)
Ltac throws_unfold := unfold mbind, Throws_bind, mret, Throws_ret in *.

(** ** Arrays *)

Section ArrayFacts.
Context {A : Type}.

Lemma Array_filter_from_ext (p q : A -> nat -> bool) (l : list A) (i : nat) :
  (forall j x, l !! j = Some x -> p x (i + j) = q x (i + j)) ->
  Array_filter_from i p l = Array_filter_from i q l.
Proof.
  revert i. induction l as [|x l IH]; intros i Hpq; [reflexivity|]. cbn.
  pose proof (Hpq 0 x eq_refl) as H0. rewrite Nat.add_0_r in H0. rewrite H0.
  rewrite (IH (S i)); [reflexivity|].
  intros j y Hj. specialize (Hpq (S j) y Hj).
  by replace (S i + j) with (i + S j) by lia.
Qed.

Lemma Array_filter_from_all (p : A -> nat -> bool) (l : list A) (i : nat) :
  (forall j x, l !! j = Some x -> p x (i + j) = true) ->
  Array_filter_from i p l = l.
Proof.
  revert i. induction l as [|x l IH]; intros i Hp; [reflexivity|]. cbn.
  pose proof (Hp 0 x eq_refl) as H0. rewrite Nat.add_0_r in H0. rewrite H0.
  f_equal. apply IH. intros j y Hj. specialize (Hp (S j) y Hj).
  by replace (S i + j) with (i + S j) by lia.
Qed.

Lemma Array_filter_from_snoc (p : A -> nat -> bool) (l : list A) (x : A)
    (i : nat) :
  Array_filter_from i p (l ++ [x])
  = Array_filter_from i p l ++ (if p x (i + length l) then [x] else []).
Proof.
  revert i. induction l as [|y l IH]; intros i; cbn.
  - rewrite Nat.add_0_r. destruct (p x i); reflexivity.
  - rewrite IH. replace (S i + length l) with (i + S (length l)) by lia.
    destruct (p y i); reflexivity.
Qed.

(** Of [j] indices from [i0] on, a filter drops at most [j]. *)
Lemma dropped_le (q : nat -> bool) (i0 j : nat) :
  length (filter (fun k => q k = false) (seq i0 j)) <= j.
Proof.
  etransitivity; [apply length_filter|]. by rewrite length_seq.
Qed.

Lemma Array_filter_from_length (q : nat -> bool) (l : list A) (i0 : nat) :
  length (Array_filter_from i0 (fun _ i => q i) l)
  = length l - length (filter (fun k => q k = false) (seq i0 (length l))).
Proof.
  revert i0. induction l as [|x l IH]; intros i0; [reflexivity|].
  cbn [Array_filter_from length seq]. rewrite filter_cons.
  pose proof (dropped_le q (S i0) (length l)).
  destruct (q i0) eqn:Hq.
  - rewrite decide_False by congruence. cbn [length]. rewrite IH. lia.
  - rewrite decide_True by done. cbn [length]. rewrite IH. lia.
Qed.

(** An element the filter keeps moves down by the number of elements
    dropped before it. *)
Lemma Array_filter_from_lookup (q : nat -> bool) (l : list A)
    (i0 j : nat) (x : A) :
  l !! j = Some x -> q (i0 + j) = true ->
  Array_filter_from i0 (fun _ i => q i) l
    !! (j - length (filter (fun k => q k = false) (seq i0 j)))
  = Some x.
Proof.
  revert i0 j. induction l as [|y l IH]; intros i0 j Hj Hq; [done|].
  destruct j as [|j].
  - cbn in *. rewrite Nat.add_0_r in Hq. rewrite Hq. simplify_eq.
    reflexivity.
  - cbn [Array_filter_from seq]. rewrite filter_cons. cbn in Hj.
    replace (i0 + S j) with (S i0 + j) in Hq by lia.
    pose proof (dropped_le q (S i0) j).
    specialize (IH (S i0) j Hj Hq).
    destruct (q i0) eqn:Hq0.
    + rewrite decide_False by congruence.
      replace (S j - _)
        with (S (j - length (filter (fun k => q k = false) (seq (S i0) j))))
        by lia.
      exact IH.
    + rewrite decide_True by done. cbn [length]. exact IH.
Qed.

(** Two lists that agree where the filter keeps have the same filter. *)
Lemma Array_filter_from_same (q : nat -> bool) (l1 l0 : list A) (i0 : nat) :
  length l1 = length l0 ->
  (forall j x, l0 !! j = Some x -> q (i0 + j) = true -> l1 !! j = Some x) ->
  Array_filter_from i0 (fun _ i => q i) l1
  = Array_filter_from i0 (fun _ i => q i) l0.
Proof.
  revert i0 l0. induction l1 as [|x l1 IH]; intros i0 [|y l0] Hlen Hsame;
    try discriminate; [reflexivity|].
  cbn. rewrite (IH (S i0) l0).
  - destruct (q i0) eqn:Hq; [|reflexivity].
    specialize (Hsame 0 y eq_refl). rewrite Nat.add_0_r in Hsame.
    specialize (Hsame Hq). cbn in Hsame. by simplify_eq.
  - cbn in Hlen. lia.
  - intros j z Hj Hq. apply (Hsame (S j) z Hj).
    by replace (i0 + S j) with (S i0 + j) by lia.
Qed.

Lemma imap_same (l : list A) : imap (fun _ x => x) l = l.
Proof.
  apply list_eq. intros i. rewrite list_lookup_imap.
  destruct (l !! i); reflexivity.
Qed.

Context {B : Type}.

Lemma Array_map_from_inr (f : A -> nat -> Error + B) (l : list A) (i : nat)
    (ys : list B) :
  Array_map_from i f l = inr ys ->
  length ys = length l /\
  forall j x, l !! j = Some x ->
    exists y, ys !! j = Some y /\ f x (i + j) = inr y.
Proof.
  revert i ys. induction l as [|x l IH]; intros i ys; cbn.
  - intros [= <-]. split; [reflexivity|]. intros j x [=].
  - destruct (f x i) as [err|y] eqn:Hf; cbn; [discriminate|].
    destruct (Array_map_from (S i) f l) as [err|ys'] eqn:Hl; cbn;
      [discriminate|].
    intros [= <-]. destruct (IH _ _ Hl) as [Hlen Hall]. split; [cbn; lia|].
    intros [|j] z Hj; cbn in Hj.
    + simplify_eq. exists y. rewrite Nat.add_0_r. done.
    + destruct (Hall j z Hj) as (y' & Hy' & Hfy). exists y'.
      split; [exact Hy'|]. by replace (i + S j) with (S i + j) by lia.
Qed.

Lemma Array_map_from_inl (f : A -> nat -> Error + B) (l : list A) (i : nat)
    (err : Error) :
  Array_map_from i f l = inl err ->
  exists j x, l !! j = Some x /\ f x (i + j) = inl err.
Proof.
  revert i. induction l as [|x l IH]; intros i; cbn; [discriminate|].
  destruct (f x i) as [err'|y] eqn:Hf; cbn.
  - intros [= ->]. exists 0, x. rewrite Nat.add_0_r. done.
  - destruct (Array_map_from (S i) f l) as [err'|ys'] eqn:Hl; cbn;
      [|discriminate].
    intros [= ->]. destruct (IH _ Hl) as (j & z & Hj & Hfz).
    exists (S j), z. split; [exact Hj|].
    by replace (i + S j) with (S i + j) by lia.
Qed.

Lemma Array_map_from_fails (f : A -> nat -> Error + B) (l : list A)
    (i j : nat) (x : A) (err : Error) :
  l !! j = Some x -> f x (i + j) = inl err ->
  exists err', Array_map_from i f l = inl err'.
Proof.
  revert i j. induction l as [|y l IH]; intros i j Hj Hf; [done|].
  cbn. destruct j as [|j]; cbn in Hj.
  - simplify_eq. rewrite Nat.add_0_r in Hf. rewrite Hf. cbn. eauto.
  - destruct (f y i) as [err'|y']; cbn; [eauto|].
    replace (i + S j) with (S i + j) in Hf by lia.
    destruct (IH (S i) j Hj Hf) as (err' & ->). cbn. eauto.
Qed.

(** A callback that does not throw maps as [imap] does. *)
Lemma Array_map_from_total (F : A -> nat -> Error + B)
    (G : nat -> A -> B) (l : list A) (i : nat) :
  (forall j x, l !! j = Some x -> F x (i + j) = inr (G (i + j) x)) ->
  Array_map_from i F l = inr (imap (fun j => G (i + j)) l).
Proof.
  revert i. induction l as [|x l IH]; intros i HF; [reflexivity|].
  cbn. pose proof (HF 0 x eq_refl) as H0. rewrite Nat.add_0_r in *.
  rewrite H0. rewrite (IH (S i)).
  - throws_unfold. do 2 f_equal. apply imap_ext. intros j y _. cbn.
    f_equal. lia.
  - intros j y Hj. replace (S i + j) with (i + S j) by lia. by apply HF.
Qed.

Lemma Array_map_from_app (F : A -> nat -> Error + B) (l1 l2 : list A)
    (i : nat) :
  Array_map_from i F (l1 ++ l2)
  = (ys1 ← Array_map_from i F l1;
     ys2 ← Array_map_from (i + length l1) F l2;
     mret (ys1 ++ ys2)).
Proof.
  revert i. induction l1 as [|x l1 IH]; intros i; cbn.
  - rewrite Nat.add_0_r. throws_unfold.
    destruct (Array_map_from i F l2); reflexivity.
  - rewrite IH. throws_unfold.
    replace (i + S (length l1)) with (S i + length l1) by lia.
    destruct (F x i); [reflexivity|].
    destruct (Array_map_from (S i) F l1); [reflexivity|].
    destruct (Array_map_from _ F l2); reflexivity.
Qed.

End ArrayFacts.

Lemma Array_map_from_same {A : Type} (F : A -> nat -> Error + A)
    (l : list A) (i : nat) :
  (forall j x, l !! j = Some x -> F x (i + j) = inr x) ->
  Array_map_from i F l = inr l.
Proof.
  intros HF. rewrite (Array_map_from_total F (fun _ x => x)); [|exact HF].
  f_equal. apply imap_same.
Qed.

(** ** NaN and zero on binary64 *)

Section Binary64NaN.

Local Open Scope float_scope.

Lemma float_nan_eq (x : float) : Prim2SF x = S754_nan -> x = nan.
Proof.
  intros Hx. rewrite <- (SF2Prim_Prim2SF x), Hx. reflexivity.
Qed.

(** [0 * (d / 0)] is NaN whatever [d] is. *)
Lemma float_zero_mul_div_zero (d : float) : 0 * (d / 0) = nan.
Proof.
  apply float_nan_eq.
  rewrite FloatAxioms.mul_spec, FloatAxioms.div_spec.
  change (Prim2SF 0) with (S754_zero false).
  destruct (Prim2SF d) as [s|s| |s m e]; reflexivity.
Qed.

Lemma Math_max_apply_zeros (l : list float) :
  l <> [] -> Forall (fun x => x = 0) l -> Math_max_apply l = 0.
Proof.
  intros Hne Hall. destruct l as [|x l]; [done|].
  apply Forall_cons in Hall as [-> Hall]. unfold Math_max_apply. cbn.
  change (float_max neg_infinity 0) with 0. clear Hne.
  induction Hall as [|y l -> _ IH]; [reflexivity|]. cbn.
  change (float_max 0 0) with 0. exact IH.
Qed.

Lemma float_ltb_not_nan_l (x y : float) :
  (x <? y) = true -> is_nan x = false.
Proof.
  intros Hlt. destruct (is_nan x) eqn:Hn; [|reflexivity].
  apply float_is_nan_spec in Hn.
  rewrite FloatAxioms.ltb_spec, Hn in Hlt. discriminate.
Qed.

(** [Math.max(0, t)] is 0 for a negative [t]. *)
Lemma Math_max_0_negative (t : float) : (t <? 0) = true -> Math_max 0 t = 0.
Proof.
  intros Hlt. cbn. unfold float_max.
  rewrite (float_ltb_not_nan_l _ _ Hlt). cbn.
  rewrite (float_ltb_asym _ _ Hlt), Hlt. reflexivity.
Qed.

Lemma Math_max_0_nan (t : float) : is_nan t = true -> Math_max 0 t = nan.
Proof. intros Hn. cbn. unfold float_max. rewrite Hn. reflexivity. Qed.

Lemma float_add_nan (x : float) : x + nan = nan.
Proof.
  apply float_nan_eq. rewrite FloatAxioms.add_spec.
  change (Prim2SF nan) with S754_nan.
  destruct (Prim2SF x) as [s|s| |s m e]; try destruct s; reflexivity.
Qed.

Lemma float_nan_sub (x : float) : nan - x = nan.
Proof.
  apply float_nan_eq. rewrite FloatAxioms.sub_spec. reflexivity.
Qed.

Lemma float_eqb_nan (x : float) : (x =? nan) = false.
Proof.
  rewrite FloatAxioms.eqb_spec. change (Prim2SF nan) with S754_nan.
  destruct (Prim2SF x) as [s|s| |s m e]; try destruct s; reflexivity.
Qed.

(** [Math_round] on halves, on numbers just below a half, on integers and
    on the special values. *)
Lemma Math_round_examples :
  map Math_round
    [2.5; (-2.5); 0.5; (-0.5); 1.5; (-1.5); 0x1.fffffffffffffp-2;
     (-0.25); 3; nan; infinity; (-0)]
  = [3; (-2); 1; (-0); 2; (-1); 0; (-0); 3; nan; infinity; (-0)].
Proof. vm_compute. reflexivity. Qed.

End Binary64NaN.

(** ** Deleting and adding events *)

Section CueFileEditFacts.
Context {K St V : Type}.

Local Abbreviation CueFile := (CueFile K St V).
Local Abbreviation CueFileLayer := (CueFileLayer K St V).
Local Abbreviation CueFileEvent := (CueFileEvent V).

Lemma CueFileLayer_eta (l : CueFileLayer) :
  {| kind := kind l; settings := settings l; layer_events := layer_events l |}
  = l.
Proof. destruct l; reflexivity. Qed.

Lemma CueFile_eta (f : CueFile) :
  {| lengthMillis := lengthMillis f; layers := layers f |} = f.
Proof. destruct f; reflexivity. Qed.

(** The set the lookup structure holds for a layer is the set of the
    selected events of that layer; it holds none for a layer without
    selected events, and no empty set. *)
Lemma buildUpSelectionSet_lookup (selection : Selection) (l : nat)
    (layerSet : gset nat) :
  buildUpSelectionSet selection !! l = Some layerSet ->
  forall i, i ∈ layerSet <-> selects selection l i.
Proof.
  intros Hl i. rewrite <- buildUpSelectionSet_spec.
  unfold in_selection_set. split.
  - intros Hi. eauto.
  - intros (S' & HS' & Hi). congruence.
Qed.

Lemma buildUpSelectionSet_lookup_None (selection : Selection) (l : nat) :
  buildUpSelectionSet selection !! l = None ->
  forall i, ~ selects selection l i.
Proof.
  intros Hl i Hs. apply buildUpSelectionSet_spec in Hs as (S' & HS' & _).
  congruence.
Qed.

Lemma buildUpSelectionSet_nonempty (selection : Selection) (l : nat)
    (layerSet : gset nat) :
  buildUpSelectionSet selection !! l = Some layerSet ->
  exists i, i ∈ layerSet.
Proof.
  unfold buildUpSelectionSet.
  assert (forall (m : gmap nat (gset nat)),
    (forall l S, m !! l = Some S -> exists i, i ∈ S) ->
    forall l S,
      fold_left
        (fun selectedEvents e =>
           match selectedEvents !! layer e with
           | Some layerSet =>
               <[layer e := layerSet ∪ {[index e]}]> selectedEvents
           | None => <[layer e := {[index e]}]> selectedEvents
           end) (events selection) m !! l = Some S ->
      exists i, i ∈ S) as Hgen.
  { induction (events selection) as [|e es IH]; intros m Hm; [exact Hm|].
    cbn. apply IH. intros l' S'.
    destruct (m !! layer e) as [S0|] eqn:Hm0;
      (destruct (decide (l' = layer e)) as [->|Hne];
       [rewrite lookup_insert_eq|rewrite lookup_insert_ne by congruence]).
    - intros [= <-]. exists (index e). set_solver.
    - apply Hm.
    - intros [= <-]. exists (index e). set_solver.
    - apply Hm. }
  apply Hgen. intros l' S'. rewrite lookup_empty. discriminate.
Qed.

(** Selections that list the same events give the same lookup
    structure. *)
Lemma buildUpSelectionSet_ext (s1 s2 : Selection) :
  (forall l i, selects s1 l i <-> selects s2 l i) ->
  buildUpSelectionSet s1 = buildUpSelectionSet s2.
Proof.
  intros Hsame. apply map_eq. intros l.
  destruct (buildUpSelectionSet s1 !! l) as [S1|] eqn:H1,
           (buildUpSelectionSet s2 !! l) as [S2|] eqn:H2.
  - f_equal. apply set_eq. intros i.
    rewrite (buildUpSelectionSet_lookup s1 l S1 H1 i).
    rewrite (buildUpSelectionSet_lookup s2 l S2 H2 i). apply Hsame.
  - exfalso. destruct (buildUpSelectionSet_nonempty s1 l S1 H1) as (i & Hi).
    apply (buildUpSelectionSet_lookup s1 l S1 H1 i), Hsame in Hi.
    exact (buildUpSelectionSet_lookup_None s2 l H2 i Hi).
  - exfalso. destruct (buildUpSelectionSet_nonempty s2 l S2 H2) as (i & Hi).
    apply (buildUpSelectionSet_lookup s2 l S2 H2 i), Hsame in Hi.
    exact (buildUpSelectionSet_lookup_None s1 l H1 i Hi).
  - reflexivity.
Qed.

Lemma selection_empty_iff (s1 s2 : Selection) :
  (forall l i, selects s1 l i <-> selects s2 l i) ->
  length (events s1) = 0 <-> length (events s2) = 0.
Proof.
  unfold selects. intros Hsame.
  destruct (events s1) as [|[l1 i1] es1], (events s2) as [|[l2 i2] es2];
    cbn; try tauto; split; try discriminate; intros _; exfalso.
  - apply (not_elem_of_nil {| layer := l2; index := i2 |}), Hsame. left.
  - apply (not_elem_of_nil {| layer := l1; index := i1 |}), Hsame. left.
Qed.

(** What [deleteSelectedEvents] leaves of a layer, in terms of the
    selection. *)
Lemma deleteSelectedEvents_lookup (cueFile : CueFile) (selection : Selection)
    (l : nat) (layer0 : CueFileLayer) :
  layers cueFile !! l = Some layer0 ->
  layers (deleteSelectedEvents cueFile selection) !! l
  = Some {| kind := kind layer0; settings := settings layer0;
            layer_events :=
              Array_filter
                (fun _ i => negb (bool_decide (selects selection l i)))
                (layer_events layer0) |}.
Proof.
  intros Hl. unfold deleteSelectedEvents. case_decide as Hempty.
  - rewrite Hl. f_equal. symmetry.
    rewrite <- (CueFileLayer_eta layer0) at 4. f_equal.
    apply Array_filter_from_all. intros j x _.
    apply negb_true_iff, bool_decide_eq_false. unfold selects.
    destruct (events selection); [apply not_elem_of_nil|discriminate].
  - cbn. rewrite list_lookup_imap, Hl. cbn. f_equal.
    destruct (buildUpSelectionSet selection !! l) as [layerSet|] eqn:Hset.
    + f_equal. apply Array_filter_from_ext. intros j x _. f_equal.
      apply bool_decide_ext, buildUpSelectionSet_lookup, Hset.
    + rewrite <- (CueFileLayer_eta layer0) at 1. f_equal. symmetry.
      apply Array_filter_from_all. intros j x _.
      apply negb_true_iff, bool_decide_eq_false.
      apply buildUpSelectionSet_lookup_None, Hset.
Qed.

Lemma deleteSelectedEvents_length
    (cueFile : CueFile) (selection : Selection) :
  length (layers (deleteSelectedEvents cueFile selection))
  = length (layers cueFile).
Proof.
  unfold deleteSelectedEvents. case_decide; [reflexivity|]. apply length_imap.
Qed.

Lemma deleteSelectedEvents_lengthMillis
    (cueFile : CueFile) (selection : Selection) :
  lengthMillis (deleteSelectedEvents cueFile selection)
  = lengthMillis cueFile.
Proof. unfold deleteSelectedEvents. case_decide; reflexivity. Qed.

Lemma selected_below_filter (selection : Selection) (l i : nat) :
  selected_below selection l i
  = length (filter
              (fun k => negb (bool_decide (selects selection l k)) = false)
              (seq 0 i)).
Proof.
  unfold selected_below. f_equal. apply list_filter_iff. intros k.
  rewrite negb_false_iff, bool_decide_eq_true. reflexivity.
Qed.

(** X13.  [deleteSelectedEvents] keeps the length of the file, the number
    of layers, and the kind and the settings of every layer.  Of the
    events of a layer it keeps those the selection does not list, in
    their order: the layer shrinks by the number of its events the
    selection lists, and an event it does not list moves down by the
    number of listed events before it. *)
Theorem deleteSelectedEvents_spec
    (cueFile : CueFile) (selection : Selection) :
  let file' := deleteSelectedEvents cueFile selection in
  lengthMillis file' = lengthMillis cueFile /\
  length (layers file') = length (layers cueFile) /\
  forall l layer0, layers cueFile !! l = Some layer0 ->
    exists layer1, layers file' !! l = Some layer1 /\
      kind layer1 = kind layer0 /\ settings layer1 = settings layer0 /\
      length (layer_events layer1)
      = length (layer_events layer0)
        - selected_below selection l (length (layer_events layer0)) /\
      forall i ev, layer_events layer0 !! i = Some ev ->
        ~ selects selection l i ->
        layer_events layer1 !! (i - selected_below selection l i) = Some ev.
Proof.
  cbv zeta. split; [apply deleteSelectedEvents_lengthMillis|].
  split; [apply deleteSelectedEvents_length|].
  intros l layer0 Hl. eexists. split; [apply deleteSelectedEvents_lookup, Hl|].
  cbn. split; [reflexivity|]. split; [reflexivity|].
  rewrite !selected_below_filter. split.
  - apply (Array_filter_from_length
             (fun i => negb (bool_decide (selects selection l i)))).
  - intros i ev Hi Hsel. rewrite selected_below_filter.
    apply (Array_filter_from_lookup
             (fun i => negb (bool_decide (selects selection l i))));
      [exact Hi|].
    apply negb_true_iff, bool_decide_eq_false. exact Hsel.
Qed.

(** X14.  [deleteSelectedEvents] ignores the entries of the selection
    that refer to no event of the file (where
    [updateStartTimeForSelectedEvents] throws): with a selection of such
    entries only, an empty one included, it returns the file as it is. *)
Theorem deleteSelectedEvents_out_of_range
    (cueFile : CueFile) (selection : Selection) :
  Forall (fun e => selected_event cueFile e = None) (events selection) ->
  deleteSelectedEvents cueFile selection = cueFile.
Proof.
  intros Hout. rewrite <- (CueFile_eta (deleteSelectedEvents _ _)).
  rewrite deleteSelectedEvents_lengthMillis.
  rewrite <- (CueFile_eta cueFile) at 3. f_equal.
  apply list_eq. intros l.
  destruct (layers cueFile !! l) as [layer0|] eqn:Hl.
  - rewrite (deleteSelectedEvents_lookup _ _ _ _ Hl). f_equal.
    rewrite <- (CueFileLayer_eta layer0) at 4. f_equal.
    apply Array_filter_from_all. intros j x Hj.
    apply negb_true_iff, bool_decide_eq_false. intros Hsel.
    rewrite Forall_forall in Hout. specialize (Hout _ Hsel).
    unfold selected_event in Hout. cbn in Hout. rewrite Hl in Hout.
    cbn in Hout. congruence.
  - apply lookup_ge_None. rewrite deleteSelectedEvents_length.
    apply lookup_ge_None, Hl.
Qed.

Lemma addLayerItem_lookup (file : CueFile) (layer' : nat) (t : float)
    (l : nat) :
  layers (addLayerItem file layer' t) !! l
  = (fun layer0 =>
       if decide (l = layer') then
         {| kind := kind layer0; settings := settings layer0;
            layer_events :=
              layer_events layer0
              ++ [{| timestampMillis := t; states := [] |}] |}
       else layer0) <$> layers file !! l.
Proof.
  unfold addLayerItem. cbn. rewrite list_lookup_imap.
  destruct (layers file !! l) as [layer0|]; [|reflexivity]. cbn.
  repeat case_decide; try reflexivity; congruence.
Qed.

(** X15.  Adding an item to a layer and then deleting the selection of
    that one item (the last event of the layer) gives back the file. *)
Theorem addLayerItem_delete (file : CueFile) (layer' : nat) (t : float)
    (layer0 : CueFileLayer) :
  layers file !! layer' = Some layer0 ->
  deleteSelectedEvents (addLayerItem file layer' t)
    {| events := [{| layer := layer';
                     index := length (layer_events layer0) |}] |}
  = file.
Proof.
  intros Hl. rewrite <- (CueFile_eta (deleteSelectedEvents _ _)).
  rewrite deleteSelectedEvents_lengthMillis.
  rewrite <- (CueFile_eta file) at 3. cbn [lengthMillis addLayerItem]. f_equal.
  apply list_eq. intros l.
  destruct (layers (addLayerItem file layer' t) !! l) as [layer1|] eqn:Hl1.
  - rewrite (deleteSelectedEvents_lookup _ _ _ _ Hl1).
    rewrite addLayerItem_lookup in Hl1.
    destruct (layers file !! l) as [layer2|] eqn:Hl2; [|discriminate].
    cbn in Hl1. f_equal. case_decide as Heq; simplify_eq/=.
    + destruct layer0 as [k0 s0 evs0]. cbn. f_equal.
      unfold Array_filter. rewrite Array_filter_from_snoc. cbn.
      rewrite bool_decide_eq_true_2 by (unfold selects; cbn; left).
      cbn. rewrite app_nil_r.
      apply Array_filter_from_all. intros j x Hj. cbn.
      apply negb_true_iff, bool_decide_eq_false. unfold selects. cbn.
      rewrite list_elem_of_singleton. intros [= ->].
      apply lookup_lt_Some in Hj. lia.
    + destruct layer1 as [k1 s1 evs1]. cbn. f_equal.
      apply Array_filter_from_all. intros j x Hj.
      apply negb_true_iff, bool_decide_eq_false. unfold selects. cbn.
      rewrite list_elem_of_singleton. congruence.
  - transitivity (@None CueFileLayer).
    + apply lookup_ge_None. rewrite deleteSelectedEvents_length.
      apply lookup_ge_None, Hl1.
    + rewrite addLayerItem_lookup in Hl1.
      destruct (layers file !! l); [discriminate|reflexivity].
Qed.

(** [addLayerItem] alters the layer of the index given, and no other. *)
Lemma addLayerItem_layers (file : CueFile) (layer' : nat) (t : float) :
  layers (addLayerItem file layer' t)
  = alter (fun layer0 =>
             {| kind := kind layer0; settings := settings layer0;
                layer_events :=
                  layer_events layer0
                  ++ [{| timestampMillis := t; states := [] |}] |})
          layer' (layers file).
Proof.
  apply list_eq. intros l. rewrite addLayerItem_lookup.
  rewrite list_lookup_alter.
  destruct (decide (layer' = l)) as [<-|Hne].
  - destruct (layers file !! layer'); cbn; [|reflexivity].
    rewrite decide_True by done. reflexivity.
  - destruct (layers file !! l); cbn; [|reflexivity].
    rewrite decide_False by congruence. reflexivity.
Qed.

(** X16.  [addLayerItem] appends an event without states, at the
    timestamp given, to the events of the layer of the index given, and
    keeps everything else: the length of the file, the other layers, the
    kind, the settings and the events of that layer.  With an index that
    is no layer of the file it returns the file as it is. *)
Theorem addLayerItem_spec (file : CueFile) (layer' : nat) (t : float) :
  let file' := addLayerItem file layer' t in
  lengthMillis file' = lengthMillis file /\
  layers file'
  = alter (fun layer0 =>
             {| kind := kind layer0; settings := settings layer0;
                layer_events :=
                  layer_events layer0
                  ++ [{| timestampMillis := t; states := [] |}] |})
          layer' (layers file) /\
  (length (layers file) <= layer' -> file' = file).
Proof.
  cbv zeta. split; [reflexivity|].
  split; [apply addLayerItem_layers|].
  intros Hge. rewrite <- (CueFile_eta (addLayerItem _ _ _)).
  rewrite addLayerItem_layers.
  rewrite <- (CueFile_eta file) at 3. cbn [lengthMillis addLayerItem].
  f_equal. apply list_eq. intros l. rewrite list_lookup_alter.
  destruct (decide (layer' = l)) as [<-|Hne]; [|reflexivity].
  rewrite (proj2 (lookup_ge_None _ _)) by exact Hge. reflexivity.
Qed.

(** Deleting the selection from a file and from an edit of it that kept
    the events not selected gives the same file. *)
Lemma deleteSelectedEvents_of_edited
    (cueFile file' : CueFile) (selection : Selection) :
  lengthMillis file' = lengthMillis cueFile ->
  length (layers file') = length (layers cueFile) ->
  (forall l layer0, layers cueFile !! l = Some layer0 ->
     exists layer1, layers file' !! l = Some layer1 /\
       kind layer1 = kind layer0 /\ settings layer1 = settings layer0 /\
       length (layer_events layer1) = length (layer_events layer0) /\
       forall i ev, layer_events layer0 !! i = Some ev ->
         ~ selects selection l i -> layer_events layer1 !! i = Some ev) ->
  deleteSelectedEvents file' selection
  = deleteSelectedEvents cueFile selection.
Proof.
  intros Hlm Hlen Hlayers.
  rewrite <- (CueFile_eta (deleteSelectedEvents file' _)).
  rewrite <- (CueFile_eta (deleteSelectedEvents cueFile _)).
  rewrite !deleteSelectedEvents_lengthMillis, Hlm. f_equal.
  apply list_eq. intros l.
  destruct (layers cueFile !! l) as [layer0|] eqn:Hl.
  - rewrite (deleteSelectedEvents_lookup cueFile _ _ _ Hl).
    destruct (Hlayers l layer0 Hl) as (layer1 & Hl1 & Hk & Hs & Hlen' & Hev).
    rewrite (deleteSelectedEvents_lookup _ _ _ _ Hl1), Hk, Hs. do 2 f_equal.
    apply (Array_filter_from_same
             (fun i => negb (bool_decide (selects selection l i))));
      [exact Hlen'|].
    intros j x Hj Hq. apply Hev; [exact Hj|].
    by apply negb_true_iff, bool_decide_eq_false in Hq.
  - transitivity (@None CueFileLayer); [|symmetry].
    all: apply lookup_ge_None; rewrite deleteSelectedEvents_length.
    + rewrite Hlen. apply lookup_ge_None, Hl.
    + apply lookup_ge_None, Hl.
Qed.

Lemma modifyEvents_delete (cueFile : CueFile) (selection : Selection)
    (f : CueFileEvent -> CueFileLayer -> CueFileEvent) :
  deleteSelectedEvents (modifyEvents cueFile selection f) selection
  = deleteSelectedEvents cueFile selection.
Proof.
  destruct (modifyEvents_spec cueFile selection f) as (Hlm & Hlen & Hlayers).
  apply deleteSelectedEvents_of_edited; [exact Hlm|exact Hlen|].
  intros l layer0 Hl.
  destruct (Hlayers l layer0 Hl) as (layer1 & Hl1 & Hk & Hs & Hlen' & Hev).
  exists layer1. do 4 (split; [done|]).
  intros i ev Hi Hn. by apply (Hev i ev Hi).
Qed.

(** ** More on [updateStartTimeForSelectedEvents] *)

Local Open Scope float_scope.

(** X19.  [updateStartTimeForSelectedEvents] throws exactly when the
    selection has an entry that refers to no event of the file (a layer
    or an event index out of range); an empty selection never throws. *)
Theorem updateStartTime_throws
    (cueFile : CueFile) (selection : Selection) (newStartTime : float) :
  updateStartTimeForSelectedEvents cueFile selection newStartTime = None
  <-> exists e, e ∈ events selection /\ selected_event cueFile e = None.
Proof.
  unfold updateStartTimeForSelectedEvents. case_decide as Hempty.
  - split; [discriminate|]. intros (e & He & _).
    destruct (events selection); [by apply elem_of_nil in He|discriminate].
  - destruct (mapM (selected_event cueFile) (events selection)) as [evs|]
      eqn:Hevs; cbn.
    + split.
      * repeat match goal with
               | |- context [if ?c then _ else _] => destruct c
               end; discriminate.
      * intros (e & He & Hnone). exfalso.
        assert (is_Some (mapM (selected_event cueFile) (events selection)))
          as Hsome by (rewrite Hevs; eauto).
        apply mapM_is_Some in Hsome. rewrite Forall_forall in Hsome.
        specialize (Hsome e He). cbn in Hsome. rewrite Hnone in Hsome.
        by apply is_Some_None in Hsome.
    + split; [|done]. intros _.
      destruct (decide (Forall (fun e => is_Some (selected_event cueFile e))
                          (events selection))) as [Hall|Hnall].
      * apply mapM_is_Some in Hall. rewrite Hevs in Hall.
        by apply is_Some_None in Hall.
      * apply not_Forall_Exists in Hnall; [|apply _].
        apply Exists_exists in Hnall as (e & He & Hn).
        exists e. split; [exact He|]. cbn in Hn.
        by apply eq_None_not_Some.
Qed.

(** X20.  A negative new start time counts as 0:
    [updateStartTimeForSelectedEvents] returns for it what it returns
    for 0. *)
Theorem updateStartTime_negative
    (cueFile : CueFile) (selection : Selection) (newStartTime : float) :
  (newStartTime <? 0) = true ->
  updateStartTimeForSelectedEvents cueFile selection newStartTime
  = updateStartTimeForSelectedEvents cueFile selection 0.
Proof.
  intros Hneg. unfold updateStartTimeForSelectedEvents.
  rewrite (Math_max_0_negative _ Hneg).
  change (Math_max 0 0) with 0. reflexivity.
Qed.

(** X21.  A new start time that is NaN is not rejected: for a selection
    that is not empty and lists events of the file,
    [updateStartTimeForSelectedEvents] returns a file in which the
    timestamp of every selected event is NaN. *)
Theorem updateStartTime_nan
    (cueFile : CueFile) (selection : Selection) (newStartTime : float)
    (evs : list CueFileEvent) :
  events selection <> [] ->
  mapM (selected_event cueFile) (events selection) = Some evs ->
  is_nan newStartTime = true ->
  exists file',
    updateStartTimeForSelectedEvents cueFile selection newStartTime
      = Some file' /\
    forall l i layer0 ev,
      selects selection l i -> layers cueFile !! l = Some layer0 ->
      layer_events layer0 !! i = Some ev ->
      exists layer1,
        layers file' !! l = Some layer1 /\
        layer_events layer1 !! i
        = Some {| timestampMillis := nan; states := states ev |}.
Proof.
  intros Hne Hevs Hnan. unfold updateStartTimeForSelectedEvents.
  rewrite decide_False by (destruct (events selection); [done|discriminate]).
  rewrite Hevs. cbn [mbind option_bind]. cbv zeta.
  rewrite (Math_max_0_nan _ Hnan).
  change (@strict_eq float float_JSNumber) with PrimFloat.eqb.
  change (@num_sub float float_JSNumber) with PrimFloat.sub.
  rewrite float_eqb_nan, small_shift_false, float_nan_sub.
  eexists. split; [reflexivity|].
  intros l i layer0 ev Hs Hl Hi.
  destruct (modifyEvents_spec cueFile selection
              (fun e _ => shiftEvent nan e)) as (_ & _ & Hlayers).
  destruct (Hlayers l layer0 Hl) as (layer1 & Hl1 & _ & _ & _ & Hev).
  exists layer1. split; [exact Hl1|].
  rewrite (proj1 (Hev i ev Hi) Hs). unfold shiftEvent.
  change (@num_add float float_JSNumber) with PrimFloat.add.
  rewrite float_add_nan. reflexivity.
Qed.

End CueFileEditFacts.

(** ** Durations *)

Section CueFileDurationFacts.
Context {St V : Type} `{LayerValues St V}.

Local Abbreviation CueFile := (CueFile string St V).
Local Abbreviation CueFileLayer := (CueFileLayer string St V).
Local Abbreviation CueFileEvent := (CueFileEvent V).
Local Abbreviation CueFileEventState := (CueFileEventState V).

Local Open Scope float_scope.

(** With a callback that does not throw, [modifyEvents_throwing] is
    [modifyEvents]. *)
Lemma modifyEvents_throwing_total
    (cueFile : CueFile) (selection : Selection)
    (f : CueFileEvent -> CueFileLayer -> CueFileEvent) :
  modifyEvents_throwing cueFile selection (fun e l => inr (f e l))
  = inr (modifyEvents cueFile selection f).
Proof.
  unfold modifyEvents_throwing, modifyEvents, Array_map.
  rewrite (Array_map_from_total _
             (fun i l =>
                match buildUpSelectionSet selection !! i with
                | None => l
                | Some layerSet => doConvertLayer f layerSet l
                end)); [reflexivity|].
  intros l layer0 _. cbn.
  destruct (buildUpSelectionSet selection !! l) as [layerSet|];
    [|reflexivity].
  unfold doConvertLayer_throwing, doConvertLayer, Array_map.
  rewrite (Array_map_from_total _
             (fun i e => if decide (i ∈ layerSet) then f e layer0 else e));
    [reflexivity|].
  intros i ev _. cbn. case_decide; reflexivity.
Qed.

(** When [modifyEvents_throwing] returns, it has applied the callback to
    the selected events and to no other. *)
Lemma modifyEvents_throwing_inr (cueFile : CueFile) (selection : Selection)
    (g : CueFileEvent -> CueFileLayer -> Error + CueFileEvent)
    (file' : CueFile) :
  modifyEvents_throwing cueFile selection g = inr file' ->
  lengthMillis file' = lengthMillis cueFile /\
  length (layers file') = length (layers cueFile) /\
  forall l layer0, layers cueFile !! l = Some layer0 ->
    exists layer1, layers file' !! l = Some layer1 /\
      kind layer1 = kind layer0 /\ settings layer1 = settings layer0 /\
      length (layer_events layer1) = length (layer_events layer0) /\
      forall i ev, layer_events layer0 !! i = Some ev ->
        exists ev', layer_events layer1 !! i = Some ev' /\
          (selects selection l i -> g ev layer0 = inr ev') /\
          (~ selects selection l i -> ev' = ev).
Proof.
  unfold modifyEvents_throwing, doConvertLayer_throwing. throws_unfold.
  destruct (Array_map _ (layers cueFile)) as [err|newLayers] eqn:Hmap; cbn;
    [discriminate|].
  intros [= <-]. cbn. split; [reflexivity|].
  apply Array_map_from_inr in Hmap as [Hlen Hall]. split; [exact Hlen|].
  intros l layer0 Hl. destruct (Hall l layer0 Hl) as (layer1 & Hl1 & Hconv).
  exists layer1. split; [exact Hl1|]. cbn in Hconv.
  destruct (buildUpSelectionSet selection !! l) as [layerSet|] eqn:Hset.
  - destruct (Array_map _ (layer_events layer0)) as [err|events'] eqn:Hevs;
      cbn in Hconv; [discriminate|].
    simplify_eq. cbn. split; [reflexivity|]. split; [reflexivity|].
    apply Array_map_from_inr in Hevs as [Hlen' Hall']. split; [exact Hlen'|].
    intros i ev Hi. destruct (Hall' i ev Hi) as (ev' & Hi' & Hg).
    exists ev'. split; [exact Hi'|]. cbn in Hg.
    pose proof (buildUpSelectionSet_lookup selection l layerSet Hset i) as Hin.
    case_decide as Hd.
    + split; [intros _; exact Hg|]. intros Hn. exfalso. apply Hn, Hin, Hd.
    + simplify_eq. split; [|reflexivity]. intros Hs. exfalso.
      apply Hd, Hin, Hs.
  - simplify_eq. repeat split; try reflexivity.
    intros i ev Hi. exists ev. split; [exact Hi|]. split; [|reflexivity].
    intros Hs. exfalso.
    exact (buildUpSelectionSet_lookup_None selection l Hset i Hs).
Qed.

(** When [modifyEvents_throwing] throws, the callback threw on a
    selected event. *)
Lemma modifyEvents_throwing_inl (cueFile : CueFile) (selection : Selection)
    (g : CueFileEvent -> CueFileLayer -> Error + CueFileEvent)
    (err : Error) :
  modifyEvents_throwing cueFile selection g = inl err ->
  exists l i layer0 ev,
    selects selection l i /\ layers cueFile !! l = Some layer0 /\
    layer_events layer0 !! i = Some ev /\ g ev layer0 = inl err.
Proof.
  unfold modifyEvents_throwing, doConvertLayer_throwing. throws_unfold.
  destruct (Array_map _ (layers cueFile)) as [err'|newLayers] eqn:Hmap; cbn;
    [|discriminate].
  intros [= ->]. apply Array_map_from_inl in Hmap as (l & layer0 & Hl & Hconv).
  cbn in Hconv.
  destruct (buildUpSelectionSet selection !! l) as [layerSet|] eqn:Hset;
    [|discriminate].
  destruct (Array_map _ (layer_events layer0)) as [err'|events'] eqn:Hevs;
    cbn in Hconv; [|discriminate].
  simplify_eq. apply Array_map_from_inl in Hevs as (i & ev & Hi & Hg).
  cbn in Hg. case_decide as Hd; [|discriminate].
  exists l, i, layer0, ev. split; [|done].
  apply (buildUpSelectionSet_lookup selection l layerSet Hset i), Hd.
Qed.

(** When the callback throws on a selected event, [modifyEvents_throwing]
    throws. *)
Lemma modifyEvents_throwing_fails (cueFile : CueFile) (selection : Selection)
    (g : CueFileEvent -> CueFileLayer -> Error + CueFileEvent)
    (l i : nat) (layer0 : CueFileLayer) (ev : CueFileEvent) (err : Error) :
  selects selection l i -> layers cueFile !! l = Some layer0 ->
  layer_events layer0 !! i = Some ev -> g ev layer0 = inl err ->
  exists err', modifyEvents_throwing cueFile selection g = inl err'.
Proof.
  intros Hs Hl Hi Hg.
  unfold modifyEvents_throwing, doConvertLayer_throwing. throws_unfold.
  apply buildUpSelectionSet_spec in Hs as (layerSet & Hset & Hin).
  destruct (Array_map_from_fails
              (fun e i => if decide (i ∈ layerSet) then g e layer0 else inr e)
              (layer_events layer0) 0 i ev err Hi) as (err1 & Hfail1).
  { cbn. rewrite decide_True by exact Hin. exact Hg. }
  match goal with
  | |- context [Array_map ?f (layers cueFile)] =>
      destruct (Array_map_from_fails f (layers cueFile) 0 l layer0 err1 Hl)
        as (err2 & Hfail2);
      [|change (Array_map f (layers cueFile))
          with (Array_map_from 0 f (layers cueFile)); rewrite Hfail2]
  end.
  - cbn. rewrite Hset. unfold Array_map. rewrite Hfail1. reflexivity.
  - exists err2. reflexivity.
Qed.

Lemma setEventDuration_inl (newDuration : float) (ev : CueFileEvent)
    (layer0 : CueFileLayer) (err : Error) :
  setEventDuration newDuration ev layer0 = inl err <->
  states ev = [] /\ kind layer0 <> "percussion" /\
  err = "no default states for layer kind " +:+ kind layer0.
Proof.
  unfold setEventDuration, defaultEventStates. throws_unfold.
  destruct (states ev) as [|s ss]; cbn.
  - destruct (String.eqb_spec (kind layer0) "percussion") as [Hk|Hk].
    + split; [discriminate|]. intros (_ & Hne & _). done.
    + split; [intros [= <-]; done|]. intros (_ & _ & ->). reflexivity.
  - split; [discriminate|]. intros ([=] & _).
Qed.

Lemma setEventDuration_inr (newDuration : float) (ev ev' : CueFileEvent)
    (layer0 : CueFileLayer) :
  setEventDuration newDuration ev layer0 = inr ev' ->
  timestampMillis ev' = timestampMillis ev /\
  (states ev <> [] ->
     length (states ev') = length (states ev) /\
     values <$> states ev' = values <$> states ev) /\
  (states ev = [] ->
     kind layer0 = "percussion" /\
     values <$> states ev' = [amplitude 1; amplitude 0]).
Proof.
  unfold setEventDuration, defaultEventStates. throws_unfold.
  destruct (states ev) as [|s ss] eqn:Hst; cbn.
  - destruct (String.eqb_spec (kind layer0) "percussion") as [Hk|Hk];
      [|discriminate].
    intros [= <-]. cbn. split; [reflexivity|]. split; [done|].
    intros _. split; [exact Hk|reflexivity].
  - intros [= <-]. cbn. split; [reflexivity|]. split; [|discriminate].
    intros _. rewrite length_map. split; [reflexivity|].
    f_equal. rewrite <- list_fmap_compose. reflexivity.
Qed.

(** X22.  [updateDurationForSelectedEvents] throws exactly when some
    selected event of the file has no states and lies on a layer whose
    kind is not ['percussion']; the error then names the kind of such a
    layer.  Entries of the selection that refer to no event of the file
    are ignored, and an empty selection never throws. *)
Theorem updateDuration_throws
    (cueFile : CueFile) (selection : Selection) (newDuration : float) :
  (forall err,
     updateDurationForSelectedEvents cueFile selection newDuration = inl err ->
     exists l i layer0 ev,
       selects selection l i /\ layers cueFile !! l = Some layer0 /\
       layer_events layer0 !! i = Some ev /\
       states ev = [] /\ kind layer0 <> "percussion" /\
       err = "no default states for layer kind " +:+ kind layer0) /\
  (forall l i layer0 ev,
     selects selection l i -> layers cueFile !! l = Some layer0 ->
     layer_events layer0 !! i = Some ev ->
     states ev = [] -> kind layer0 <> "percussion" ->
     exists err,
       updateDurationForSelectedEvents cueFile selection newDuration
       = inl err).
Proof.
  unfold updateDurationForSelectedEvents. split.
  - intros err. case_decide; [discriminate|]. intros Herr.
    apply modifyEvents_throwing_inl in Herr
      as (l & i & layer0 & ev & Hs & Hl & Hi & Hg).
    apply setEventDuration_inl in Hg as (Hst & Hk & ->).
    exists l, i, layer0, ev. done.
  - intros l i layer0 ev Hs Hl Hi Hst Hk.
    rewrite decide_False.
    2:{ unfold selects in Hs. destruct (events selection); [|discriminate].
        by apply elem_of_nil in Hs. }
    eapply modifyEvents_throwing_fails; [exact Hs|exact Hl|exact Hi|].
    apply setEventDuration_inl. done.
Qed.

(** X23.  When [updateDurationForSelectedEvents] returns a file, it has
    changed nothing but the [millisDelta] of the states of selected
    events: the length of the file, the layers with their kinds and
    settings, the number of events and the timestamp of every event are
    kept; an event that is not selected is kept as it is; a selected
    event with states keeps their number and their values; a selected
    event without states lies on a percussion layer and gets two states,
    of amplitude 1 and 0. *)
Theorem updateDuration_keeps
    (cueFile : CueFile) (selection : Selection) (newDuration : float)
    (file' : CueFile) :
  updateDurationForSelectedEvents cueFile selection newDuration = inr file' ->
  lengthMillis file' = lengthMillis cueFile /\
  length (layers file') = length (layers cueFile) /\
  forall l layer0, layers cueFile !! l = Some layer0 ->
    exists layer1, layers file' !! l = Some layer1 /\
      kind layer1 = kind layer0 /\ settings layer1 = settings layer0 /\
      length (layer_events layer1) = length (layer_events layer0) /\
      forall i ev, layer_events layer0 !! i = Some ev ->
        exists ev', layer_events layer1 !! i = Some ev' /\
          timestampMillis ev' = timestampMillis ev /\
          (~ selects selection l i -> ev' = ev) /\
          (states ev <> [] ->
             length (states ev') = length (states ev) /\
             values <$> states ev' = values <$> states ev) /\
          (selects selection l i -> states ev = [] ->
             kind layer0 = "percussion" /\
             values <$> states ev' = [amplitude 1; amplitude 0]).
Proof.
  unfold updateDurationForSelectedEvents. case_decide as Hempty.
  - intros [= <-]. split; [reflexivity|]. split; [reflexivity|].
    intros l layer0 Hl. exists layer0. do 4 (split; [done|]).
    intros i ev Hi. exists ev. do 4 (split; [done|]).
    intros Hs. exfalso. unfold selects in Hs.
    destruct (events selection); [|discriminate]. by apply elem_of_nil in Hs.
  - intros Hr. apply modifyEvents_throwing_inr in Hr as (Hlm & Hlen & Hlayers).
    split; [exact Hlm|]. split; [exact Hlen|].
    intros l layer0 Hl.
    destruct (Hlayers l layer0 Hl) as (layer1 & Hl1 & Hk & Hs & Hlen' & Hev).
    exists layer1. split; [exact Hl1|]. split; [exact Hk|]. split; [exact Hs|].
    split; [exact Hlen'|].
    intros i ev Hi. destruct (Hev i ev Hi) as (ev' & Hi' & Hsel & Hnsel).
    exists ev'. split; [exact Hi'|].
    destruct (decide (selects selection l i)) as [Hd|Hd].
    + destruct (setEventDuration_inr _ _ _ _ (Hsel Hd)) as (Ht & Hne & Hnil).
      split; [exact Ht|]. split; [done|]. split; [exact Hne|].
      intros _. exact Hnil.
    + rewrite (Hnsel Hd). split; [reflexivity|]. split; [done|].
      split; [done|]. done.
Qed.

(** X24.  A selected event whose states all lie at [millisDelta] 0 has no
    duration to stretch: [updateDurationForSelectedEvents] divides by
    zero and, whatever the new duration, leaves every state of the event
    at a [millisDelta] of NaN. *)
Theorem updateDuration_zero_length
    (cueFile : CueFile) (selection : Selection) (newDuration : float)
    (file' : CueFile) (l i : nat) (layer0 : CueFileLayer)
    (ev : CueFileEvent) :
  updateDurationForSelectedEvents cueFile selection newDuration = inr file' ->
  selects selection l i -> layers cueFile !! l = Some layer0 ->
  layer_events layer0 !! i = Some ev ->
  states ev <> [] -> Forall (fun s => millisDelta s = 0) (states ev) ->
  exists layer1 ev',
    layers file' !! l = Some layer1 /\ layer_events layer1 !! i = Some ev' /\
    length (states ev') = length (states ev) /\
    Forall (fun s => millisDelta s = nan) (states ev').
Proof.
  intros Hr Hs Hl Hi Hne Hzero.
  unfold updateDurationForSelectedEvents in Hr.
  rewrite decide_False in Hr.
  2:{ unfold selects in Hs. destruct (events selection); [|discriminate].
      by apply elem_of_nil in Hs. }
  apply modifyEvents_throwing_inr in Hr as (_ & _ & Hlayers).
  destruct (Hlayers l layer0 Hl) as (layer1 & Hl1 & _ & _ & _ & Hev).
  destruct (Hev i ev Hi) as (ev' & Hi' & Hsel & _).
  exists layer1, ev'. split; [exact Hl1|]. split; [exact Hi'|].
  specialize (Hsel Hs). unfold setEventDuration in Hsel. throws_unfold.
  rewrite bool_decide_eq_true_2 in Hsel
    by (destruct (states ev); [done|cbn; lia]).
  simplify_eq. cbn. rewrite length_map. split; [reflexivity|].
  rewrite Math_max_apply_zeros.
  2:{ destruct (states ev); [done|discriminate]. }
  2:{ apply Forall_fmap. exact Hzero. }
  apply Forall_fmap. eapply Forall_impl; [exact Hzero|].
  intros s Hsz. cbn. rewrite Hsz.
  change (@num_mul float float_JSNumber) with PrimFloat.mul.
  change (@num_div float float_JSNumber) with PrimFloat.div.
  rewrite float_zero_mul_div_zero. reflexivity.
Qed.

(** X25.  A layer added by [addLayer] is a percussion layer of default
    length 200 without events, after the layers of the file.  An item
    added to it by [addLayerItem] can be given a duration:
    [updateDurationForSelectedEvents] on that item does not throw, and
    gives it the two default states, of amplitude 1 at 0 and of
    amplitude 0 at 200, stretched by [newDuration / 200] and rounded;
    the other layers and the length of the file stay as they are. *)
Theorem addLayer_item_duration (file : CueFile) (t d : float) :
  let n := length (layers file) in
  updateDurationForSelectedEvents (addLayerItem (addLayer file) n t)
    {| events := [{| layer := n; index := 0 |}] |} d
  = inr {| lengthMillis := lengthMillis file;
           layers :=
             layers file
             ++ [{| kind := "percussion";
                    settings := percussion_settings 200;
                    layer_events :=
                      [{| timestampMillis := t;
                          states :=
                            [{| millisDelta := Math_round (0 * (d / 200));
                                values := amplitude 1 |};
                             {| millisDelta := Math_round (200 * (d / 200));
                                values := amplitude 0 |}] |}] |}] |}.
Proof.
  intros n. unfold updateDurationForSelectedEvents.
  rewrite decide_False by (cbn; discriminate).
  unfold modifyEvents_throwing, buildUpSelectionSet.
  cbn [events fold_left layer index].
  rewrite lookup_empty.
  assert (layers (addLayerItem (addLayer file) n t)
          = layers file
            ++ [{| kind := "percussion";
                   settings := percussion_settings 200;
                   layer_events :=
                     [{| timestampMillis := t; states := [] |}] |}]) as ->.
  { rewrite addLayerItem_layers. cbn [addLayer layers]. subst n.
    rewrite <- (Nat.add_0_r (length (layers file))).
    rewrite alter_app_r. reflexivity. }
  unfold Array_map. rewrite Array_map_from_app.
  rewrite (Array_map_from_same _ (layers file)).
  2:{ intros j x Hj. cbn. rewrite lookup_insert_ne; [by rewrite lookup_empty|].
      apply lookup_lt_Some in Hj. subst n. lia. }
  throws_unfold. cbn [Array_map_from plus]. fold n.
  rewrite lookup_insert_eq.
  unfold doConvertLayer_throwing, Array_map. throws_unfold.
  cbn [Array_map_from layer_events].
  rewrite decide_True by set_solver.
  unfold setEventDuration, defaultEventStates. throws_unfold.
  cbn [states length bool_decide kind settings timestampMillis].
  rewrite bool_decide_eq_false_2 by (cbn; lia).
  cbn [String.eqb Ascii.eqb Bool.eqb map millisDelta values lengthMillis
       addLayerItem addLayer].
  rewrite defaultLengthMillis_settings.
  change (Math_max_apply [0; 200]) with 200.
  reflexivity.
Qed.

(** ** How the edits compose *)

(** X17.  Moving the selected events, or changing their duration, and
    then deleting the selection gives the file that deleting the
    selection at once gives. *)
Theorem edit_then_delete (cueFile : CueFile) (selection : Selection) :
  (forall newStartTime file',
     updateStartTimeForSelectedEvents cueFile selection newStartTime
       = Some file' ->
     deleteSelectedEvents file' selection
     = deleteSelectedEvents cueFile selection) /\
  (forall newDuration file',
     updateDurationForSelectedEvents cueFile selection newDuration
       = inr file' ->
     deleteSelectedEvents file' selection
     = deleteSelectedEvents cueFile selection).
Proof.
  split.
  - intros t file'. unfold updateStartTimeForSelectedEvents.
    case_decide; [by intros [= <-]|].
    destruct (mapM _ _) as [evs|]; [|discriminate]. cbn.
    repeat match goal with
           | |- context [if ?c then _ else _] => destruct c
           end; intros [= <-]; try reflexivity.
    apply modifyEvents_delete.
  - intros d file'. unfold updateDurationForSelectedEvents.
    case_decide; [by intros [= <-]|]. intros Hr.
    apply modifyEvents_throwing_inr in Hr as (Hlm & Hlen & Hlayers).
    apply deleteSelectedEvents_of_edited; [exact Hlm|exact Hlen|].
    intros l layer0 Hl.
    destruct (Hlayers l layer0 Hl) as (layer1 & Hl1 & Hk & Hs & Hlen' & Hev).
    exists layer1. do 4 (split; [done|]).
    intros i ev Hi Hn. destruct (Hev i ev Hi) as (ev' & Hi' & _ & Hsame).
    by rewrite Hi', (Hsame Hn).
Qed.

(** X18.  [deleteSelectedEvents] and [updateDurationForSelectedEvents]
    depend on the selection only through the set of events it lists: the
    order of its entries and their repetition do not matter. *)
Theorem selection_as_set (cueFile : CueFile) (s1 s2 : Selection) :
  (forall l i, selects s1 l i <-> selects s2 l i) ->
  deleteSelectedEvents cueFile s1 = deleteSelectedEvents cueFile s2 /\
  forall newDuration,
    updateDurationForSelectedEvents cueFile s1 newDuration
    = updateDurationForSelectedEvents cueFile s2 newDuration.
Proof.
  intros Hsame. pose proof (buildUpSelectionSet_ext s1 s2 Hsame) as Hset.
  pose proof (selection_empty_iff s1 s2 Hsame) as Hempty.
  split; [|intros d].
  - unfold deleteSelectedEvents. rewrite Hset.
    repeat case_decide; try reflexivity; tauto.
  - unfold updateDurationForSelectedEvents, modifyEvents_throwing.
    rewrite Hset. repeat case_decide; try reflexivity; tauto.
Qed.

(** X26.  The length of a file and its layers are edited independently:
    [setLength] changes the length only, and commutes with [addLayer],
    [addLayerItem], [deleteSelectedEvents],
    [updateStartTimeForSelectedEvents] and
    [updateDurationForSelectedEvents], errors included. *)
Theorem setLength_commutes (cueFile : CueFile) (n : float) :
  layers (setLength cueFile n) = layers cueFile /\
  addLayer (setLength cueFile n) = setLength (addLayer cueFile) n /\
  (forall layer' t,
     addLayerItem (setLength cueFile n) layer' t
     = setLength (addLayerItem cueFile layer' t) n) /\
  (forall selection,
     deleteSelectedEvents (setLength cueFile n) selection
     = setLength (deleteSelectedEvents cueFile selection) n) /\
  (forall selection t,
     updateStartTimeForSelectedEvents (setLength cueFile n) selection t
     = (fun file' => setLength file' n)
       <$> updateStartTimeForSelectedEvents cueFile selection t) /\
  (forall selection d,
     updateDurationForSelectedEvents (setLength cueFile n) selection d
     = match updateDurationForSelectedEvents cueFile selection d with
       | inl err => inl err
       | inr file' => inr (setLength file' n)
       end).
Proof.
  split; [reflexivity|]. split; [reflexivity|]. split; [reflexivity|].
  split; [|split].
  - intros selection. unfold deleteSelectedEvents. case_decide; reflexivity.
  - intros selection t. unfold updateStartTimeForSelectedEvents.
    case_decide; [reflexivity|].
    change (selected_event (setLength cueFile n)) with (selected_event cueFile).
    destruct (mapM _ _) as [evs|]; [|reflexivity]. cbn.
    repeat match goal with
           | |- context [if ?c then _ else _] => destruct c
           end; reflexivity.
  - intros selection d. unfold updateDurationForSelectedEvents.
    case_decide; [reflexivity|]. unfold modifyEvents_throwing.
    throws_unfold. cbn [layers setLength].
    destruct (Array_map _ _); reflexivity.
Qed.

End CueFileDurationFacts.

(* ================================================================== *)
(** * Instances of the further properties *)

Section FurtherInstances.

Lemma load_completes_witness :
  pending demo_loading !! 0
    = Some {| load_track := 0; load_origin := from_loadAudioFile |} /\
  dispatched (exec (settle 0 (decoded demo_buffer)) demo_loading)
    = [PreciseAudioEvent Ev.loadeddata; PreciseAudioEvent Ev.canplay;
       PreciseAudioEvent Ev.canplaythrough; PreciseAudioEvent Ev.timeupdate] /\
  eval duration (exec (settle 0 (decoded demo_buffer)) demo_loading)
    = 10%float.
Proof.
  split; [reflexivity|].
  pose proof (load_completes demo_loading 0
                {| load_track := 0; load_origin := from_loadAudioFile |}
                {| track_id := 0; source := source_file 7; data := None |}
                demo_buffer eq_refl eq_refl eq_refl)
    as (_ & Hevents & _ & _ & _ & _ & Hduration).
  split; [exact Hevents|exact Hduration].
Defined.

Lemma set_currentTime_playing_witness :
  current_data demo_playing
    = Some {| buffer := demo_buffer;
              state := {| state_id := 2;
                          state_value := Playing 0 false 0%float |} |} /\
  dispatched (exec (set_currentTime 2%float) demo_playing)
    = dispatched demo_playing ++ [PreciseAudioEvent Ev.seeked] /\
  eval paused (exec (set_currentTime 2%float) demo_playing) = false.
Proof.
  split; [vm_compute; reflexivity|].
  pose proof (set_currentTime_playing demo_playing
                {| buffer := demo_buffer;
                   state := {| state_id := 2;
                               state_value := Playing 0 false 0%float |} |}
                2 0 false 0%float 2%float eq_refl eq_refl)
    as (_ & _ & Hevents & Hpaused).
  split; [exact Hevents|exact Hpaused].
Defined.

Lemma load_unloads_witness :
  is_load (call_loadAudioFile (num:=float) 8) = true /\
  dispatched (exec (loadAudioFile 8) demo_playing) = dispatched demo_playing /\
  eval paused (exec (loadAudioFile 8) demo_playing) = true.
Proof.
  split; [reflexivity|].
  pose proof (load_unloads demo_playing (call_loadAudioFile 8) eq_refl)
    as (Hevents & _ & Hpaused & _).
  split; [exact Hevents|exact Hpaused].
Defined.

Lemma source_follows_configuration_witness :
  let e := run [call_loadAudioFile 7; host_settle 0 (decoded demo_buffer);
                call_play; host_clock 0.5%float] (constructor running) in
  current_data e
    = Some {| buffer := demo_buffer;
              state := {| state_id := 2;
                          state_value := Playing 0 false 0%float |} |} /\
  exists n, ctx_nodes (context e) !! 0 = Some n /\
    node_buffer n = demo_buffer /\
    node_playbackRate n = 1%float /\
    node_connection n = to_gainNode.
Proof.
  split; [vm_compute; reflexivity|].
  exact (source_follows_configuration running
           [call_loadAudioFile 7; host_settle 0 (decoded demo_buffer);
            call_play; host_clock 0.5%float]
           {| buffer := demo_buffer;
              state := {| state_id := 2;
                          state_value := Playing 0 false 0%float |} |}
           2 0 false 0%float eq_refl eq_refl).
Defined.

Lemma loaded_until_next_load_witness :
  let e := run [call_loadAudioFile 7; host_settle 0 (decoded demo_buffer)]
             (constructor running) in
  current_data e
    = Some {| buffer := demo_buffer;
              state := {| state_id := 1; state_value := Paused 0%float |} |} /\
  eval duration (exec (step (host_settle 0 (failed "late"%string))) e)
    = eval duration e.
Proof.
  cbv zeta.
  assert (current_data
            (run [call_loadAudioFile 7; host_settle 0 (decoded demo_buffer)]
               (constructor running))
          = Some {| buffer := demo_buffer;
                    state := {| state_id := 1;
                                state_value := Paused 0%float |} |})
    as Hloaded by reflexivity.
  split; [exact Hloaded|].
  destruct (loaded_until_next_load running
              [call_loadAudioFile 7; host_settle 0 (decoded demo_buffer)]
              (host_settle 0 (failed "late"%string))
              _ Hloaded eq_refl) as (d' & _ & _ & Hduration).
  exact Hduration.
Defined.

Lemma deleteSelectedEvents_out_of_range_witness :
  deleteSelectedEvents demo_cueFile
    {| events := [{| layer := 3; index := 0 |};
                  {| layer := 0; index := 7 |}] |}
  = demo_cueFile.
Proof.
  apply deleteSelectedEvents_out_of_range. repeat constructor.
Defined.

Lemma addLayerItem_delete_witness :
  layers demo_cueFile !! 0
    = Some {| kind := tt; settings := tt;
              layer_events :=
                [{| timestampMillis := 10%float; states := [] |};
                 {| timestampMillis := 20%float; states := [] |}] |} /\
  deleteSelectedEvents (addLayerItem demo_cueFile 0 99%float)
    {| events := [{| layer := 0; index := 2 |}] |}
  = demo_cueFile.
Proof.
  split; [reflexivity|].
  exact (addLayerItem_delete demo_cueFile 0 99%float
           {| kind := tt; settings := tt;
              layer_events :=
                [{| timestampMillis := 10%float; states := [] |};
                 {| timestampMillis := 20%float; states := [] |}] |}
           eq_refl).
Defined.

Lemma updateStartTime_negative_witness :
  PrimFloat.ltb (-5)%float 0%float = true /\
  updateStartTimeForSelectedEvents demo_cueFile demo_selection (-5)%float
  = updateStartTimeForSelectedEvents demo_cueFile demo_selection 0%float.
Proof.
  split; [reflexivity|].
  exact (updateStartTime_negative demo_cueFile demo_selection (-5)%float
           eq_refl).
Defined.

Lemma updateStartTime_nan_witness :
  events demo_selection <> [] /\
  mapM (selected_event demo_cueFile) (events demo_selection)
    = Some [{| timestampMillis := 20%float; states := [] |}] /\
  exists file',
    updateStartTimeForSelectedEvents demo_cueFile demo_selection nan
      = Some file' /\
    exists layer1,
      layers file' !! 0 = Some layer1 /\
      layer_events layer1 !! 1
      = Some {| timestampMillis := nan; states := [] |}.
Proof.
  assert (events demo_selection <> []) as Hne by discriminate.
  split; [exact Hne|]. split; [reflexivity|].
  destruct (updateStartTime_nan demo_cueFile demo_selection nan
              [{| timestampMillis := 20%float; states := [] |}]
              Hne eq_refl eq_refl)
    as (file' & Hfile & Hnan).
  exists file'. split; [exact Hfile|].
  refine (Hnan 0 1 _ {| timestampMillis := 20%float; states := [] |}
            _ eq_refl eq_refl).
  unfold selects. cbn. left.
Defined.

Lemma selection_as_set_witness :
  let s1 := {| events := [{| layer := 0; index := 1 |};
                          {| layer := 0; index := 0 |}] |} in
  let s2 := {| events := [{| layer := 0; index := 0 |};
                          {| layer := 0; index := 1 |};
                          {| layer := 0; index := 0 |}] |} in
  deleteSelectedEvents demo_layers s1 = deleteSelectedEvents demo_layers s2.
Proof.
  refine (proj1 (selection_as_set demo_layers _ _ _)).
  intros l i. unfold selects. cbn.
  rewrite !elem_of_cons, !elem_of_nil. tauto.
Defined.

Lemma updateDuration_keeps_witness :
  let selection := {| events := [{| layer := 0; index := 1 |}] |} in
  let file' :=
    {| lengthMillis := 1000%float;
       layers :=
         [{| kind := "percussion"%string; settings := 200%float;
             layer_events :=
               [{| timestampMillis := 10%float; states := [] |};
                {| timestampMillis := 20%float;
                   states :=
                     [{| millisDelta := 0%float; values := 1%float |};
                      {| millisDelta := 100%float; values := 0%float |}] |};
                {| timestampMillis := 30%float;
                   states := [{| millisDelta := 0%float;
                                 values := 1%float |}] |}] |};
          {| kind := "tones"%string; settings := 0%float;
             layer_events :=
               [{| timestampMillis := 5%float; states := [] |}] |}] |} in
  updateDurationForSelectedEvents demo_layers selection 100%float
    = inr file' /\
  lengthMillis file' = lengthMillis demo_layers /\
  length (layers file') = length (layers demo_layers).
Proof.
  cbv zeta. split; [vm_compute; reflexivity|].
  match goal with
  | |- lengthMillis ?f = _ /\ _ =>
      pose proof (updateDuration_keeps demo_layers
                    {| events := [{| layer := 0; index := 1 |}] |}
                    100%float f ltac:(vm_compute; reflexivity))
        as (Hlength & Hlayers & _)
  end.
  split; [exact Hlength|exact Hlayers].
Defined.

Lemma updateDuration_zero_length_witness :
  let selection := {| events := [{| layer := 0; index := 2 |}] |} in
  exists file' layer1 ev',
    updateDurationForSelectedEvents demo_layers selection 100%float
      = inr file' /\
    layers file' !! 0 = Some layer1 /\
    layer_events layer1 !! 2 = Some ev' /\
    Forall (fun s => millisDelta s = nan) (states ev').
Proof.
  cbv zeta.
  destruct (updateDurationForSelectedEvents demo_layers
              {| events := [{| layer := 0; index := 2 |}] |} 100%float)
    as [err|file'] eqn:Hfile; [vm_compute in Hfile; discriminate|].
  destruct (updateDuration_zero_length demo_layers
              {| events := [{| layer := 0; index := 2 |}] |} 100%float
              file' 0 2
              {| kind := "percussion"%string; settings := 200%float;
                 layer_events :=
                   [{| timestampMillis := 10%float; states := [] |};
                    {| timestampMillis := 20%float;
                       states :=
                         [{| millisDelta := 0%float; values := 1%float |};
                          {| millisDelta := 50%float; values := 0%float |}] |};
                    {| timestampMillis := 30%float;
                       states := [{| millisDelta := 0%float;
                                     values := 1%float |}] |}] |}
              {| timestampMillis := 30%float;
                 states := [{| millisDelta := 0%float; values := 1%float |}] |}
              Hfile)
    as (layer1 & ev' & Hl & Hi & _ & Hnan).
  - unfold selects. cbn. left.
  - reflexivity.
  - reflexivity.
  - discriminate.
  - repeat constructor.
  - exists file', layer1, ev'. done.
Defined.

Lemma position_advances_witness :
  let e1 := exec play demo_loaded in
  current_data demo_loaded
    = Some {| buffer := demo_buffer;
              state := {| state_id := 1; state_value := Paused 0%float |} |} /\
  current_state e1
    = Some {| state_id := 2; state_value := Playing 0 false 0%float |} /\
  eval currentTimeMillis (exec (clock 0.5%float) e1) = 500%float /\
  eval currentTimeMillis (exec pause (exec (clock 0.5%float) e1)) = 500%float.
Proof.
  split; [reflexivity|].
  destruct (position_advances demo_loaded
              {| buffer := demo_buffer;
                 state := {| state_id := 1; state_value := Paused 0%float |} |}
              1 0%float eq_refl eq_refl) as (Hs & _ & _ & Hadv).
  split; [exact Hs|].
  destruct (Hadv 0.5%float) as (Hpos & _ & Hpaused).
  split; [exact Hpos|exact Hpaused].
Defined.

Lemma play_from_start_witness :
  let e :=
    run [assign_playbackRate 3%float; host_clock 0.25%float] demo_loaded in
  let e1 := exec play e in
  current_data e
    = Some {| buffer := demo_buffer;
              state := {| state_id := 1; state_value := Paused 0%float |} |} /\
  PrimFloat.ltb 0%float (_playbackRate e) = true /\
  current_state e1
    = Some {| state_id := 2; state_value := Playing 0 false 250%float |} /\
  eval currentTimeMillis e1 = 0%float /\
  eval currentTimeMillis (exec (clock 0.75%float) e1) = 1500%float.
Proof.
  cbv zeta.
  split; [reflexivity|]. split; [reflexivity|].
  destruct (play_from_start
              (run [assign_playbackRate 3%float; host_clock 0.25%float]
                 demo_loaded)
              {| buffer := demo_buffer;
                 state := {| state_id := 1; state_value := Paused 0%float |} |}
              1 eq_refl eq_refl eq_refl) as (Hs & Hadv & Hzero).
  split; [exact Hs|]. split; [exact (Hzero eq_refl eq_refl)|].
  exact (Hadv 0.75%float).
Defined.

End FurtherInstances.
